(** * A feed-forward network in C++ ([neural_network.cpp]): shallow embedding

    The classes [Neuron], [Layer] and [NeuralNetwork] of the source are
    embedded as records and functions.  The C++ code computes on [double]s;
    the embedding is written once over an interface [DoubleOps] of the
    operations the source applies to them and is then read at two
    instances:

    - [R_DoubleOps]: the real numbers, the exact reading: what is proved at
      it holds of the algorithm in exact arithmetic;
    - [float_DoubleOps]: IEEE 754 binary64 (Rocq's primitive floats), the
      reading that decides what [0.0 / 0.0] is and where rounding shows.

    What is said of the code's own arithmetic is proved for every instance
    of [DoubleOps].

    A C++ execution with undefined behaviour (an [operator[]] out of range,
    [back()] of an empty vector, dereferencing [end()]) is the result
    [None], and so is one that ends in an exception of the standard library
    that nothing catches; the source contains no [throw] and no check of
    its own. *)

From Stdlib Require Import Reals Lra ZArith Floats Ascii Permutation.
From stdpp Require Import base option list strings.

Set Default Proof Using "Type".

(** ** The arithmetic of [double] used by the source *)

Class DoubleOps (D : Type) := {
  d0 : D;                       (* the literal 0 *)
  d1 : D;                       (* the literal 1 *)
  dadd : D -> D -> D;           (* a + b *)
  dsub : D -> D -> D;           (* a - b *)
  dmul : D -> D -> D;           (* a * b *)
  ddiv : D -> D -> D;           (* a / b *)
  dexp : D -> D;                (* exp(a) of <cmath> *)
  dlt : D -> D -> bool;         (* a < b *)
  dof_nat : nat -> D;           (* conversion of a count to double *)
}.

(** ** Loops *)

(** [for (i = lo; i < lo + count; ++i) body], threading the state [s];
    an undefined iteration makes the loop undefined. *)
Fixpoint for_up {St : Type} (lo count : nat) (body : nat -> St -> option St)
    (s : St) : option St :=
  match count with
  | O => Some s
  | S c => s' ← body lo s; for_up (S lo) c body s'
  end.

(** [for (i = lo + count - 1; i >= lo; --i) body]: the same range, walked
    downwards. *)
Fixpoint for_down {St : Type} (lo count : nat)
    (body : nat -> St -> option St) (s : St) : option St :=
  match count with
  | O => Some s
  | S c => s' ← body (lo + c) s; for_down lo c body s'
  end.

(** [std::max_element(first, last, comp)] as an index into the range:
    [largest] starts at the first position and moves to a later position
    only when [comp] holds of the element at [largest] and the one at [it].  On an empty range the result is
    [last], at distance 0 from [first]. *)
Fixpoint max_element_from {A : Type} (comp : A -> A -> bool)
    (largest : nat) (vlargest : A) (it : nat) (l : list A) : nat :=
  match l with
  | [] => largest
  | x :: l' =>
      if comp vlargest x then max_element_from comp it x (S it) l'
      else max_element_from comp largest vlargest (S it) l'
  end.

Definition max_element {A : Type} (comp : A -> A -> bool) (l : list A) : nat :=
  match l with
  | [] => 0
  | x :: l' => max_element_from comp 0 x 1 l'
  end.

Section Network.
Context {D : Type} `{DoubleOps D}.

(** ** Data model *)

Record Neuron := mkNeuron {
  value : D;
  weights : list D;
  bias : D;
}.

(** [class Layer] has the single member [neurons]. *)
Record Layer := mkLayer { neurons : list Neuron }.

Record NeuralNetwork := mkNetwork {
  layers : list Layer;
  learningRate : D;
}.

Definition set_value (v : D) (n : Neuron) : Neuron :=
  mkNeuron v (weights n) (bias n).

(** ** [Layer::Layer] and [NeuralNetwork::NeuralNetwork]

    Every [Layer] constructor seeds a fresh [mt19937] from
    [random_device]; the embedding receives that generator as [gen : G]
    and [dis : G -> D * G] is one draw [dis(gen)] of the uniform
    distribution on [-1, 1].  The sizes are the source's [int]s taken
    non-negative; [Layer_int] and [NeuralNetwork_int] below are the
    constructors on every [int], with the exception a negative size ends
    them in. *)
Section Construction.
Context {G : Type} (dis : G -> D * G).

(** [generate(weights.begin(), weights.end(), [&]{ return dis(gen); })]
    on a vector of [n] elements. *)
Fixpoint generate (n : nat) (gen : G) : list D * G :=
  match n with
  | O => ([], gen)
  | S n' =>
      let '(w, gen1) := dis gen in
      let '(ws, gen2) := generate n' gen1 in
      (w :: ws, gen2)
  end.

(** The loop [for (Neuron &neuron : neurons)] of the constructor over
    the [neuronCount] value-initialised neurons. *)
Fixpoint init_neurons (neuronCount prevLayerNeuronCount : nat) (gen : G)
    : list Neuron :=
  match neuronCount with
  | O => []
  | S c =>
      let '(ws, gen1) := generate prevLayerNeuronCount gen in
      let '(b, gen2) := dis gen1 in
      mkNeuron d0 ws b :: init_neurons c prevLayerNeuronCount gen2
  end.

Definition Layer_new (neuronCount prevLayerNeuronCount : nat) (gen : G)
    : Layer :=
  mkLayer (init_neurons neuronCount prevLayerNeuronCount gen).

(** [for (i = 1; i < layerSizes.size(); ++i)
       layers.emplace_back(layerSizes[i], layerSizes[i - 1]);]
    [rd i] is the generator the [i]-th iteration's [Layer] seeds.  The
    loop runs [layerSizes.size() - 1] times, so both subscripts are in
    range and the default of [nth] is never taken; no iteration is
    undefined, so neither is the [default] of [NeuralNetwork_new]. *)
Definition construct_step (rd : nat -> G) (layerSizes : list nat)
    (i : nat) (ls : list Layer) : option (list Layer) :=
  Some (ls ++ [Layer_new (nth i layerSizes 0) (nth (i - 1) layerSizes 0)
                 (rd i)]).

Definition NeuralNetwork_new (rd : nat -> G) (layerSizes : list nat)
    (lr : D) : NeuralNetwork :=
  mkNetwork
    (default [] (for_up 1 (length layerSizes - 1)
                   (construct_step rd layerSizes) []))
    lr.
End Construction.

(** ** Activations *)

Definition relu (x : D) : D := if dlt d0 x then x else d0.

Definition reluDerivative (x : D) : D := if dlt d0 x then d1 else d0.

(** The first loop of [softmax]: [result[i] = exp(x[i] - maxElement);
    expSum += result[i]]. *)
Fixpoint softmax_exps (maxElement : D) (x : list D) (expSum : D)
    : list D * D :=
  match x with
  | [] => ([], expSum)
  | xi :: x' =>
      let e := dexp (dsub xi maxElement) in
      let '(r, s) := softmax_exps maxElement x' (dadd expSum e) in
      (e :: r, s)
  end.

(** [*max_element(x.begin(), x.end())] dereferences [end()] when [x] is
    empty. *)
Definition softmax (x : list D) : option (list D) :=
  maxElement ← x !! max_element dlt x;
  let '(result, expSum) := softmax_exps maxElement x d0 in
  Some (map (fun element => ddiv element expSum) result).

Definition getOutputs (l : Layer) : list D := map value (neurons l).

(** ** Forward propagation *)

(** [for (i = 0; i < layers[0].neurons.size(); ++i)
       layers[0].neurons[i].value = inputValues[i];]
    walks the neurons of [layers[0]] with the running index [i]. *)
Fixpoint set_input_values (i : nat) (ns : list Neuron) (inputValues : list D)
    : option (list Neuron) :=
  match ns with
  | [] => Some []
  | n :: ns' =>
      v ← inputValues !! i;
      ns'' ← set_input_values (S i) ns' inputValues;
      Some (set_value v n :: ns'')
  end.

(** [for (j = 0; j < layers[i-1].neurons.size(); ++j)
       neuron.value += layers[i-1].neurons[j].value * neuron.weights[j];]
    [prev] is what remains of the previous layer's neurons, [acc] the
    running [neuron.value]. *)
Fixpoint weighted_sum (j : nat) (prev : list Neuron) (ws : list D) (acc : D)
    : option D :=
  match prev with
  | [] => Some acc
  | p :: prev' =>
      w ← ws !! j;
      weighted_sum (S j) prev' ws (dadd acc (dmul (value p) w))
  end.

(** The body of [for (Neuron &neuron : layers[i].neurons)]. *)
Definition fire (prev : Layer) (is_output : bool) (neuron : Neuron)
    : option Neuron :=
  v ← weighted_sum 0 (neurons prev) (weights neuron) d0;
  Some (set_value
          (if is_output then dadd v (bias neuron)
           else relu (dadd v (bias neuron)))
          neuron).

(** [layers.back().neurons[j].value = outputs[j]] for every [j]; [outputs]
    has as many entries as the layer has neurons. *)
Fixpoint store_outputs (j : nat) (ns : list Neuron) (outputs : list D)
    : option (list Neuron) :=
  match ns with
  | [] => Some []
  | n :: ns' =>
      v ← outputs !! j;
      ns'' ← store_outputs (S j) ns' outputs;
      Some (set_value v n :: ns'')
  end.

(** One iteration of [for (i = 1; i < layers.size(); ++i)]. *)
Definition forward_step (i : nat) (ls : list Layer) : option (list Layer) :=
  prev ← ls !! (i - 1);
  cur ← ls !! i;
  let is_output := bool_decide (i = length ls - 1) in
  ns ← mapM (fire prev is_output) (neurons cur);
  let ls1 := <[i := mkLayer ns]> ls in
  if is_output then
    back ← last ls1;
    outputs ← softmax (getOutputs back);
    ns' ← store_outputs 0 (neurons back) outputs;
    Some (<[length ls1 - 1 := mkLayer ns']> ls1)
  else Some ls1.

Definition forwardPropagation (net : NeuralNetwork) (inputValues : list D)
    : option NeuralNetwork :=
  l0 ← layers net !! 0;
  ns0 ← set_input_values 0 (neurons l0) inputValues;
  let ls := <[0 := mkLayer ns0]> (layers net) in
  ls' ← for_up 1 (length ls - 1) forward_step ls;
  Some (mkNetwork ls' (learningRate net)).

(** ** Backward propagation *)

(** [outputDeltas[i] = layers.back().neurons[i].value - targetValues[i]]. *)
Fixpoint output_deltas (i : nat) (ns : list Neuron) (targetValues : list D)
    : option (list D) :=
  match ns with
  | [] => Some []
  | n :: ns' =>
      t ← targetValues !! i;
      ds ← output_deltas (S i) ns' targetValues;
      Some (dsub (value n) t :: ds)
  end.

(** The delta of neuron [k] of layer [i + 1] as the hidden-delta loop reads
    it: [i == layers.size() - 2 ? outputDeltas[k] : hiddenDeltas[i + 1][k]]. *)
Definition next_delta (size : nat) (outputDeltas : list D)
    (hiddenDeltas : list (list D)) (i k : nat) : option D :=
  if bool_decide (i = size - 2) then outputDeltas !! k
  else row ← hiddenDeltas !! (i + 1); row !! k.

(** [for (k = 0; k < layers[i+1].neurons.size(); ++k)
       sum += layers[i+1].neurons[k].weights[j] * (delta of k);] *)
Fixpoint delta_sum (k : nat) (next : list Neuron) (j : nat)
    (delta_of : nat -> option D) (sum : D) : option D :=
  match next with
  | [] => Some sum
  | nk :: next' =>
      w ← weights nk !! j;
      d ← delta_of k;
      delta_sum (S k) next' j delta_of (dadd sum (dmul w d))
  end.

(** [for (j = 0; j < layers[i].neurons.size(); ++j)
       hiddenDeltas[i][j] = sum * reluDerivative(layers[i].neurons[j].value);] *)
Fixpoint hidden_row (j : nat) (cur next : list Neuron)
    (delta_of : nat -> option D) : option (list D) :=
  match cur with
  | [] => Some []
  | n :: cur' =>
      sum ← delta_sum 0 next j delta_of d0;
      row ← hidden_row (S j) cur' next delta_of;
      Some (dmul sum (reluDerivative (value n)) :: row)
  end.

(** One iteration of [for (int i = layers.size() - 2; i >= 0; --i)]. *)
Definition hidden_step (ls : list Layer) (outputDeltas : list D) (i : nat)
    (hiddenDeltas : list (list D)) : option (list (list D)) :=
  cur ← ls !! i;
  next ← ls !! (i + 1);
  row ← hidden_row 0 (neurons cur) (neurons next)
        (next_delta (length ls) outputDeltas hiddenDeltas i);
  Some (<[i := row]> hiddenDeltas).

(** [for (k = 0; k < neuron.weights.size(); ++k)
       neuron.weights[k] -= learningRate * delta * layers[i-1].neurons[k].value;] *)
Fixpoint update_weights (k : nat) (ws : list D) (prev : list Neuron)
    (lr delta : D) : option (list D) :=
  match ws with
  | [] => Some []
  | w :: ws' =>
      p ← prev !! k;
      ws'' ← update_weights (S k) ws' prev lr delta;
      Some (dsub w (dmul (dmul lr delta) (value p)) :: ws'')
  end.

(** The delta the update loop uses for neuron [j] of layer [i]:
    [(i == layers.size() - 1) ? outputDeltas[j] : hiddenDeltas[i][j]]. *)
Definition own_delta (size : nat) (outputDeltas : list D)
    (hiddenDeltas : list (list D)) (i j : nat) : option D :=
  if bool_decide (i = size - 1) then outputDeltas !! j
  else row ← hiddenDeltas !! i; row !! j.

(** [for (j = 0; j < layers[i].neurons.size(); ++j)] of the update. *)
Fixpoint update_neurons (j : nat) (ns : list Neuron)
    (delta_of : nat -> option D) (prev : list Neuron) (lr : D)
    : option (list Neuron) :=
  match ns with
  | [] => Some []
  | neuron :: ns' =>
      delta ← delta_of j;
      ws ← update_weights 0 (weights neuron) prev lr delta;
      ns'' ← update_neurons (S j) ns' delta_of prev lr;
      Some (mkNeuron (value neuron) ws (dsub (bias neuron) (dmul lr delta))
              :: ns'')
  end.

(** One iteration of [for (size_t i = layers.size() - 1; i > 0; --i)]. *)
Definition update_step (lr : D) (outputDeltas : list D)
    (hiddenDeltas : list (list D)) (i : nat) (ls : list Layer)
    : option (list Layer) :=
  cur ← ls !! i;
  prev ← ls !! (i - 1);
  ns ← update_neurons 0 (neurons cur)
         (own_delta (length ls) outputDeltas hiddenDeltas i)
         (neurons prev) lr;
  Some (<[i := mkLayer ns]> ls).

Definition backPropagation (net : NeuralNetwork) (targetValues : list D)
    : option NeuralNetwork :=
  let ls := layers net in
  back ← last ls;
  outputDeltas ← output_deltas 0 (neurons back) targetValues;
  hiddenDeltas ← for_down 0 (length ls - 1) (hidden_step ls outputDeltas)
                   (replicate (length ls - 1) []);
  ls' ← for_down 1 (length ls - 1)
          (update_step (learningRate net) outputDeltas hiddenDeltas) ls;
  Some (mkNetwork ls' (learningRate net)).

(** ** Training, prediction, evaluation *)

(** The body of [for (i = 0; i < inputs.size(); ++i)] in [train]. *)
Definition train_sample (inputs targets : list (list D)) (i : nat)
    (net : NeuralNetwork) : option NeuralNetwork :=
  x ← inputs !! i;
  net1 ← forwardPropagation net x;
  t ← targets !! i;
  backPropagation net1 t.

(** [epochs] is an [int]: a count that is not positive runs no epoch. *)
Definition train (net : NeuralNetwork) (inputs targets : list (list D))
    (epochs : Z) : option NeuralNetwork :=
  for_up 0 (Z.to_nat epochs)
    (fun _ => for_up 0 (length inputs) (train_sample inputs targets)) net.

(** [distance(begin, max_element(begin, end, a.value < b.value))] over the
    neurons of [layers.back()]. *)
Definition argmax_output (net : NeuralNetwork) : option nat :=
  back ← last (layers net);
  Some (max_element (fun a b => dlt (value a) (value b)) (neurons back)).

(** [predict] returns the class index; the network it leaves behind (with
    the activations of this forward pass) is the first component. *)
Definition predict (net : NeuralNetwork) (input : list D)
    : option (NeuralNetwork * nat) :=
  net' ← forwardPropagation net input;
  c ← argmax_output net';
  Some (net', c).

(** The body of the loop of [evaluateAccuracy]; the state is the network
    and [correctPredictions]. *)
Definition evaluate_sample (inputs outputs : list (list D)) (i : nat)
    (st : NeuralNetwork * nat) : option (NeuralNetwork * nat) :=
  x ← inputs !! i;
  net' ← forwardPropagation st.1 x;
  predictedClass ← argmax_output net';
  o ← outputs !! i;
  let actualClass := max_element dlt o in
  Some (net', if bool_decide (predictedClass = actualClass)
              then S st.2 else st.2).

(** [return static_cast<double>(correctPredictions) / inputs.size();] *)
Definition evaluateAccuracy (net : NeuralNetwork)
    (inputs outputs : list (list D)) : option (NeuralNetwork * D) :=
  st ← for_up 0 (length inputs) (evaluate_sample inputs outputs) (net, 0);
  Some (st.1, ddiv (dof_nat st.2) (dof_nat (length inputs))).

End Network.

Arguments Neuron D : clear implicits.
Arguments Layer D : clear implicits.
Arguments NeuralNetwork D : clear implicits.

(** ** The two readings of [double] *)

Definition Rltb (x y : R) : bool := if Rlt_dec x y then true else false.

(** The exact reading: every operation of [double] as the operation on
    real numbers that it rounds.  It has no rounding, no overflow or
    underflow and no NaN: what is proved at it is a fact of the algorithm in
    exact arithmetic, and an equation or a bound among them need not hold
    of the code's binary64.  What is said of the code's own arithmetic is
    proved for every [DoubleOps]; [float_DoubleOps] is the binary64 one. *)
#[export] Instance R_DoubleOps : DoubleOps R := {|
  d0 := 0%R; d1 := 1%R;
  dadd := Rplus; dsub := Rminus; dmul := Rmult; ddiv := Rdiv;
  dexp := exp; dlt := Rltb; dof_nat := INR;
|}.

(** Reading the [DoubleOps] operations at the instance [R_DoubleOps]. *)
Ltac real_ops :=
  cbn [d0 d1 dadd dsub dmul ddiv dexp dlt dof_nat R_DoubleOps] in *.

(** IEEE 754 binary64.  [<cmath>]'s [exp] is not an IEEE operation; it is
    left as the parameter [libm_exp].  The conversion is that of counts
    below 2^63. *)
Definition float_DoubleOps (libm_exp : float -> float) : DoubleOps float := {|
  d0 := 0%float; d1 := 1%float;
  dadd := PrimFloat.add; dsub := PrimFloat.sub; dmul := PrimFloat.mul;
  ddiv := PrimFloat.div;
  dexp := libm_exp; dlt := PrimFloat.ltb;
  dof_nat := fun n => PrimFloat.of_uint63 (Uint63.of_Z (Z.of_nat n));
|}.

(** ** Vocabulary of the statements *)

Section Vocabulary.
Context {D : Type} `{DoubleOps D}.

(** What the loop [for (i = 1; i < layers.size(); ++i)] of the forward pass
    computes for the layers [rest] that follow [prev], read off the list
    instead of through subscripts. *)
Fixpoint forward_from (prev : Layer D) (rest : list (Layer D))
    : option (list (Layer D)) :=
  match rest with
  | [] => Some []
  | cur :: rest' =>
      let is_output := bool_decide (rest' = []) in
      ns ← mapM (fire prev is_output) (neurons cur);
      cur' ← (if is_output then
                outputs ← softmax (map value ns);
                ns' ← store_outputs 0 ns outputs;
                Some (mkLayer ns')
              else Some (mkLayer ns));
      rest'' ← forward_from cur' rest';
      Some (cur' :: rest'')
  end.

(** What the loop [for (int i = layers.size() - 2; i >= 0; --i)] of the
    backward pass computes: the deltas of all layers of [ls] but the last,
    those of the first layer first.  The delta row that follows is
    [outputDeltas] for the layer before the last. *)
Fixpoint deltas_from (ls : list (Layer D)) (outputDeltas : list D)
    : option (list (list D)) :=
  match ls with
  | [] => Some []
  | cur :: rest =>
      match rest with
      | [] => Some []
      | next :: _ =>
          ds ← deltas_from rest outputDeltas;
          row ← hidden_row 0 (neurons cur) (neurons next)
                  (fun k => default outputDeltas (head ds) !! k);
          Some (row :: ds)
      end
  end.

(** What the loop [for (size_t i = layers.size() - 1; i > 0; --i)] computes
    for the layers [rest] that follow [prev], [deltas] holding one row per
    layer of [rest]. *)
Fixpoint update_from (prev : Layer D) (rest : list (Layer D))
    (deltas : list (list D)) (lr : D) : option (list (Layer D)) :=
  match rest, deltas with
  | [], _ => Some []
  | cur :: rest', d :: deltas' =>
      ns ← update_neurons 0 (neurons cur) (fun j => d !! j) (neurons prev) lr;
      rest'' ← update_from cur rest' deltas' lr;
      Some (mkLayer ns :: rest'')
  | _ :: _, [] => None
  end.

(** The persistent part of a neuron, of a layer, of a network. *)
Definition neuron_params (n : Neuron D) : list D * D := (weights n, bias n).
Definition layer_params (l : Layer D) : list (list D * D) :=
  map neuron_params (neurons l).
Definition parameters (net : NeuralNetwork D)
    : list (list (list D * D)) * D :=
  (map layer_params (layers net), learningRate net).

(** The layer sizes fit: every neuron of a layer holds one weight per
    neuron of the layer before it ([width] neurons before the first). *)
Fixpoint shaped (width : nat) (ls : list (Layer D)) : bool :=
  match ls with
  | [] => true
  | l :: ls' =>
      forallb (fun n => Nat.eqb (length (weights n)) width) (neurons l)
      && shaped (length (neurons l)) ls'
  end.

(** The layers the constructor builds, read off the size list: [prev] is
    the size before [sizes], [i] the subscript of the head of [sizes]. *)
Fixpoint build {G : Type} (dis : G -> D * G) (rd : nat -> G) (i prev : nat)
    (sizes : list nat) : list (Layer D) :=
  match sizes with
  | [] => []
  | s :: sizes' => Layer_new dis s prev (rd i) :: build dis rd (S i) s sizes'
  end.

(** Overwriting the weights and biases of a layer's neurons with [ps],
    neuron by neuron, and of the first layer of a network. *)
Fixpoint set_params (ns : list (Neuron D)) (ps : list (list D * D))
    : list (Neuron D) :=
  match ns, ps with
  | n :: ns', p :: ps' => mkNeuron (value n) p.1 p.2 :: set_params ns' ps'
  | _, _ => ns
  end.

Definition on_first (ps : list (list D * D)) (ls : list (Layer D))
    : list (Layer D) :=
  match ls with
  | [] => []
  | l :: rest => mkLayer (set_params (neurons l) ps) :: rest
  end.

Definition with_first_params (ps : list (list D * D))
    (net : NeuralNetwork D) : NeuralNetwork D :=
  mkNetwork (on_first ps (layers net)) (learningRate net).

Definition first_params (net : NeuralNetwork D)
    : option (list (list D * D)) :=
  layer_params <$> head (layers net).

(** Number of neurons of [layers[0]] and of [layers.back()]. *)
Definition firstWidth (net : NeuralNetwork D) : nat :=
  from_option (fun l => length (neurons l)) 0 (head (layers net)).
Definition outputWidth (net : NeuralNetwork D) : nat :=
  from_option (fun l => length (neurons l)) 0 (last (layers net)).

(** The activations of the output layer. *)
Definition outputs_of (net : NeuralNetwork D) : list D :=
  from_option getOutputs [] (last (layers net)).
End Vocabulary.

(** Over the reals: the sum and the maximum of a vector, and softmax as the
    formula [exp(x_i - max x) / sum_j exp(x_j - max x)]. *)
Definition Rsum (l : list R) : R := foldr Rplus 0%R l.

Definition Rmaximum (x : list R) : R :=
  match x with
  | [] => 0%R
  | a :: x' => fold_left Rmax x' a
  end.

Definition softmax_formula (x : list R) : list R :=
  map (fun xi => (exp (xi - Rmaximum x)
                  / Rsum (map (fun xj => exp (xj - Rmaximum x)) x))%R) x.

(** [c] is the first position of a largest entry of [l]. *)
Definition first_maximum (l : list R) (c : nat) : Prop :=
  exists m, l !! c = Some m
            /\ (forall j u, l !! j = Some u -> (u <= m)%R)
            /\ (forall j u, j < c -> l !! j = Some u -> (u < m)%R).

(** Every weight and every bias of the network is zero. *)
Definition zero_neuron (n : Neuron R) : Prop :=
  bias n = 0%R /\ Forall (fun w => w = 0%R) (weights n).

Definition all_zero (ls : list (Layer R)) : Prop :=
  Forall (fun l => Forall zero_neuron (neurons l)) ls.

(** The activations a network holds and the sizes of its weight vectors. *)
Definition activations {D : Type} (net : NeuralNetwork D) : list (list D) :=
  map getOutputs (layers net).

Definition shape {D : Type} (net : NeuralNetwork D) : list (list nat) :=
  map (fun l => map (fun n => length (weights n)) (neurons l)) (layers net).

(** One step of an option bind in a hypothesis: [Some a ≫= f] is [f a]. *)
Ltac bind_step H :=
  match type of H with
  | context [Some ?a ≫= ?f] =>
      change (Some a ≫= f) with (f a) in H; cbv beta in H
  end.

(** The vector [vector<double> output(n, 0); output[k] = 1;]. *)
Definition one_hot {D : Type} `{DoubleOps D} (n k : nat) : list D :=
  <[k := d1]> (replicate n d0).

(** ** The data loader [loadIrisDataset] and [main]

    The loader reads the file line by line; the embedding receives the
    lines [getline(file, line)] yields.  [stod] is [std::stod] and
    [shuffle] is [std::shuffle] with the generator the loader seeds; both
    are arguments.  A result [None] of the loader is an execution that
    does not return: [std::out_of_range] thrown by [stod] leaves the
    function, or a subscript is out of range.  Messages written to [cerr]
    and [cout] are not part of the embedding. *)

Inductive stod_result (D : Type) :=
  | stod_value (d : D)
  | stod_invalid_argument
  | stod_out_of_range.
Arguments stod_value {D} d.
Arguments stod_invalid_argument {D}.
Arguments stod_out_of_range {D}.

(** What the loader and [main] need of [double] beyond [DoubleOps]. *)
Class LoaderOps (D : Type) := {
  dpow2 : D -> D;               (* pow(a, 2) *)
  dsqrt : D -> D;               (* sqrt(a) *)
  dto_size : D -> option nat;   (* static_cast<size_t>(a), undefined when
                                   the truncated value is no size_t *)
  d0_90 : D;                    (* the literal 0.90 *)
  d0_1 : D;                     (* the literal 0.1 *)
  d0_01 : D;                    (* the literal 0.01 *)
}.

(** [getline(stream, value, delim)] on a string stream whose unread
    characters are [s]: the characters before the first [delim], and what
    is left after it.  A stream at its end leaves the fresh [value]
    empty. *)
Fixpoint getline (delim : ascii) (s : string) : string * string :=
  match s with
  | EmptyString => (EmptyString, EmptyString)
  | String c s' =>
      if bool_decide (c = delim) then (EmptyString, s')
      else let '(value, rest) := getline delim s' in (String c value, rest)
  end.

Inductive parsed_line (D : Type) :=
  | line_row (input output : list D)
  | line_skipped
  | line_thrown.
Arguments line_row {D} input output.
Arguments line_skipped {D}.
Arguments line_thrown {D}.

Section Loader.
Context {D : Type} `{DoubleOps D} `{LoaderOps D}.
Context (stod : string -> stod_result D) (shuffle : list nat -> list nat).

(** The body of [for (size_t i = 0; i < 4; ++i)]; the state is [input] and
    the unread part of [lineStream].  [None]: [std::out_of_range] is
    thrown. *)
Definition read_field (i : nat) (st : list D * string)
    : option (list D * string) :=
  let '(value, rest) := getline ","%char st.2 in
  if bool_decide (value = EmptyString) then Some (st.1, rest)
  else match stod value with
       | stod_value d => Some (<[i := d]> st.1, rest)
       | stod_invalid_argument => Some (st.1, rest)
       | stod_out_of_range => None
       end.

(** The body of [while (getline(file, line))] up to the two [push_back]s. *)
Definition parse_line (line : string) : parsed_line D :=
  match for_up 0 4 read_field (replicate 4 d0, line) with
  | None => line_thrown
  | Some (input, rest) =>
      let label := (getline "010"%char rest).1 in
      if bool_decide (label = "Iris-setosa"%string)
      then line_row input (one_hot 3 0)
      else if bool_decide (label = "Iris-versicolor"%string)
      then line_row input (one_hot 3 1)
      else if bool_decide (label = "Iris-virginica"%string)
      then line_row input (one_hot 3 2)
      else line_skipped
  end.

Fixpoint read_rows (lines : list string) (inputs outputs : list (list D))
    : option (list (list D) * list (list D)) :=
  match lines with
  | [] => Some (inputs, outputs)
  | line :: lines' =>
      match parse_line line with
      | line_row input output =>
          read_rows lines' (inputs ++ [input]) (outputs ++ [output])
      | line_skipped => read_rows lines' inputs outputs
      | line_thrown => None
      end
  end.

(** [for (j = 0; j < inputs[i].size(); ++j) inputMeans[j] += inputs[i][j];] *)
Fixpoint add_to_means (j : nat) (row inputMeans : list D) : option (list D) :=
  match row with
  | [] => Some inputMeans
  | x :: row' =>
      m ← inputMeans !! j;
      add_to_means (S j) row' (<[j := dadd m x]> inputMeans)
  end.

(** [inputStds[j] += pow(inputs[i][j] - inputMeans[j], 2);] for every [j]. *)
Fixpoint add_to_stds (j : nat) (row inputMeans inputStds : list D)
    : option (list D) :=
  match row with
  | [] => Some inputStds
  | x :: row' =>
      s ← inputStds !! j;
      m ← inputMeans !! j;
      add_to_stds (S j) row' inputMeans
        (<[j := dadd s (dpow2 (dsub x m))]> inputStds)
  end.

(** [inputs[i][j] = (inputs[i][j] - inputMeans[j]) / inputStds[j];] for
    every [j]. *)
Fixpoint normalize_row (j : nat) (row inputMeans inputStds : list D)
    : option (list D) :=
  match row with
  | [] => Some []
  | x :: row' =>
      m ← inputMeans !! j;
      s ← inputStds !! j;
      row'' ← normalize_row (S j) row' inputMeans inputStds;
      Some (ddiv (dsub x m) s :: row'')
  end.

(** The loops over the rows, with the accumulator threaded through. *)
Fixpoint sum_rows (inputs : list (list D)) (inputMeans : list D)
    : option (list D) :=
  match inputs with
  | [] => Some inputMeans
  | row :: inputs' =>
      inputMeans' ← add_to_means 0 row inputMeans;
      sum_rows inputs' inputMeans'
  end.

Fixpoint sum_squares (inputs : list (list D)) (inputMeans inputStds : list D)
    : option (list D) :=
  match inputs with
  | [] => Some inputStds
  | row :: inputs' =>
      inputStds' ← add_to_stds 0 row inputMeans inputStds;
      sum_squares inputs' inputMeans inputStds'
  end.

(** The block "Normalize the dataset". *)
Definition normalize (inputs : list (list D)) : option (list (list D)) :=
  let n := dof_nat (length inputs) in
  sums ← sum_rows inputs (replicate 4 d0);
  let inputMeans := map (fun m => ddiv m n) sums in
  squares ← sum_squares inputs inputMeans (replicate 4 d0);
  let inputStds := map (fun s => dsqrt (ddiv s n)) squares in
  mapM (fun row => normalize_row 0 row inputMeans inputStds) inputs.

(** [for (i = lo; i < lo + count; ++i) {
       ins.push_back(inputs[indices[i]]);
       outs.push_back(outputs[indices[i]]); }] *)
Definition push_sample (indices : list nat) (inputs outputs : list (list D))
    (i : nat) (st : list (list D) * list (list D))
    : option (list (list D) * list (list D)) :=
  k ← indices !! i;
  x ← inputs !! k;
  o ← outputs !! k;
  Some (st.1 ++ [x], st.2 ++ [o]).

(** The block "Split the dataset into training and validation sets". *)
Definition split_rows (indices : list nat) (inputs outputs : list (list D))
    (trainSize validationSize : nat)
    (trainInputs trainOutputs validationInputs validationOutputs
       : list (list D))
    : option (list (list D) * list (list D)
              * (list (list D) * list (list D))) :=
  tr ← for_up 0 trainSize (push_sample indices inputs outputs)
         (trainInputs, trainOutputs);
  va ← for_up trainSize validationSize (push_sample indices inputs outputs)
         (validationInputs, validationOutputs);
  Some (tr, va).

Definition loadIrisDataset (lines : list string)
    (trainInputs trainOutputs validationInputs validationOutputs
       : list (list D))
    (trainSplit validationSplit : D)
    : option (list (list D) * list (list D)
              * (list (list D) * list (list D))) :=
  rows ← read_rows lines [] [];
  inputs ← normalize rows.1;
  let indices := shuffle (seq 0 (length inputs)) in
  trainSize ← dto_size (dmul (dof_nat (length inputs)) trainSplit);
  validationSize ← dto_size (dmul (dof_nat (length inputs)) validationSplit);
  split_rows indices inputs rows.2 trainSize validationSize
    trainInputs trainOutputs validationInputs validationOutputs.

(** The last loop of [main]: the class of the target and the predicted
    class of every validation sample. *)
Definition report_sample (validationInputs validationOutputs : list (list D))
    (i : nat) (st : NeuralNetwork D * list (nat * nat))
    : option (NeuralNetwork D * list (nat * nat)) :=
  o ← validationOutputs !! i;
  x ← validationInputs !! i;
  r ← predict st.1 x;
  Some (r.1, st.2 ++ [(max_element dlt o, r.2)]).

(** [main]: the values it prints - the accuracy [evaluateAccuracy] returns
    (printed times 100) and, for every validation sample, the expected and
    the predicted class.  [dis] and [rd] are the draws and seeds of the
    constructor. *)
Definition main_program {G : Type} (dis : G -> D * G) (rd : nat -> G)
    (lines : list string) : option (D * list (nat * nat)) :=
  sets ← loadIrisDataset lines [] [] [] [] d0_90 d0_1;
  let nn := NeuralNetwork_new dis rd [4; 8; 128; 64; 8; 3] d0_01 in
  nn1 ← train nn sets.1.1 sets.1.2 1000;
  ev ← evaluateAccuracy nn1 sets.2.1 sets.2.2;
  st ← for_up 0 (length sets.2.1) (report_sample sets.2.1 sets.2.2) (ev.1, []);
  Some (ev.2, st.2).
End Loader.

(** The loader's operations over the reals, the exact reading again.  The
    cast to [size_t] truncates towards zero; it is defined for the values
    above -1, whose truncation is not negative.  Sizes have no upper bound
    in the embedding, as the lengths of the vectors have none.  The cast
    is applied to the exact product where the code applies it to the
    rounded one (ten times the double nearest to 0.7 is below 7, and
    rounds to 7.0 in binary64), and the literals are the exact decimals,
    not the doubles nearest to them: the sizes computed here need not be
    the sizes the code computes.  The statements that speak of the code's
    sizes take them as given. *)
#[export] Instance R_LoaderOps : LoaderOps R := {|
  dpow2 := fun a => (a * a)%R;
  dsqrt := R_sqrt.sqrt;
  dto_size := fun a => if Rlt_dec (-1) a then Some (Z.to_nat (Int_part a))
                       else None;
  d0_90 := 0.90%R; d0_1 := 0.1%R; d0_01 := 0.01%R;
|}.

(** The vocabulary of the loader's statements: a string without the
    character [c]; the value a field leaves in its feature; the class of a
    label; a line of four fields and a label. *)
Fixpoint lacks (c : ascii) (s : string) : bool :=
  match s with
  | EmptyString => true
  | String c' s' => negb (bool_decide (c' = c)) && lacks c s'
  end.

Definition field_value {D : Type} `{DoubleOps D}
    (stod : string -> stod_result D) (f : string) : D :=
  if bool_decide (f = EmptyString) then d0
  else match stod f with
       | stod_value d => d
       | _ => d0
       end.

Definition field_in_range {D : Type} (stod : string -> stod_result D)
    (f : string) : bool :=
  bool_decide (f = EmptyString)
  || match stod f with
     | stod_out_of_range => false
     | _ => true
     end.

Definition label_class (label : string) : option nat :=
  if bool_decide (label = "Iris-setosa"%string) then Some 0
  else if bool_decide (label = "Iris-versicolor"%string) then Some 1
  else if bool_decide (label = "Iris-virginica"%string) then Some 2
  else None.

Definition csv_line (f0 f1 f2 f3 label : string) : string :=
  f0 +:+ String ","%char
    (f1 +:+ String ","%char
       (f2 +:+ String ","%char (f3 +:+ String ","%char label))).

(** A [stod] for the examples: [1e999] is out of range, [x] is no number,
    any other text stands for its length. *)
Definition stod_example (s : string) : stod_result R :=
  if bool_decide (s = "1e999"%string) then stod_out_of_range
  else if bool_decide (s = "x"%string) then stod_invalid_argument
  else stod_value (INR (String.length s)).

(** ** The constructors on the [int]s of the source

    [Layer::Layer(int neuronCount, int prevLayerNeuronCount)] hands both
    counts to [vector::resize], whose parameter is a [size_t]: a negative
    count converts to a size above [max_size()] and [resize] throws
    [std::length_error].  [neurons.resize(neuronCount)] runs first;
    [neuron.weights.resize(prevLayerNeuronCount)] runs for the first
    neuron, if the layer has one.  [None] is that exception; it leaves the
    constructor of the network as well.  On counts that are not negative
    the constructors are [Layer_new] and [NeuralNetwork_new].  Memory has
    no bound in the embedding: there is no [std::bad_alloc]. *)
Definition Layer_int {D : Type} `{DoubleOps D} {G : Type} (dis : G -> D * G)
    (neuronCount prevLayerNeuronCount : Z) (gen : G) : option (Layer D) :=
  if (neuronCount <? 0)%Z then None
  else if (0 <? neuronCount)%Z && (prevLayerNeuronCount <? 0)%Z then None
  else Some (Layer_new dis (Z.to_nat neuronCount)
               (Z.to_nat prevLayerNeuronCount) gen).

(** [layers.emplace_back(layerSizes[i], layerSizes[i - 1])]. *)
Definition construct_step_int {D : Type} `{DoubleOps D} {G : Type}
    (dis : G -> D * G) (rd : nat -> G) (layerSizes : list Z) (i : nat)
    (ls : list (Layer D)) : option (list (Layer D)) :=
  l ← Layer_int dis (nth i layerSizes 0%Z) (nth (i - 1) layerSizes 0%Z)
        (rd i);
  Some (ls ++ [l]).

Definition NeuralNetwork_int {D : Type} `{DoubleOps D} {G : Type}
    (dis : G -> D * G) (rd : nat -> G) (layerSizes : list Z) (lr : D)
    : option (NeuralNetwork D) :=
  ls ← for_up 1 (length layerSizes - 1) (construct_step_int dis rd layerSizes)
         [];
  Some (mkNetwork ls lr).

(** The vocabulary of the normalisation: the column [j] of a table, and
    the mean and the deviation the loops compute for it, every sum
    accumulated from 0 in the order of the rows. *)
Definition column_of {D : Type} `{DoubleOps D} (j : nat)
    (inputs : list (list D)) : list D :=
  map (fun row => nth j row d0) inputs.

Definition column_mean {D : Type} `{DoubleOps D} (j : nat)
    (inputs : list (list D)) : D :=
  ddiv (foldl dadd d0 (column_of j inputs)) (dof_nat (length inputs)).

Definition column_dev {D : Type} `{DoubleOps D} `{LoaderOps D} (j : nat)
    (inputs : list (list D)) : D :=
  dsqrt (ddiv (foldl dadd d0
                 (map (fun x => dpow2 (dsub x (column_mean j inputs)))
                    (column_of j inputs)))
           (dof_nat (length inputs))).

(** An [exp] for the examples in binary64: the correctly rounded values at
    the arguments 0, -1 and -2; no other argument occurs in them. *)
Definition exp_example (x : float) : float :=
  if PrimFloat.eqb x 0%float then 1%float
  else if PrimFloat.eqb x (-1)%float then 0x1.78b56362cef38p-2%float
  else if PrimFloat.eqb x (-2)%float then 0x1.152aaa3bf81ccp-3%float
  else 0%float.

(** ** Loops *)

(** The source's range-[for] is written with [map]; stdpp's list lemmas are
    about [<$>]. *)
Lemma map_fmap {A B : Type} (f : A -> B) (l : list A) : map f l = f <$> l.
Proof. reflexivity. Qed.

Section Loops.
Context {St : Type}.
Implicit Types (body : nat -> St -> option St) (s : St).

(** A property kept by every iteration is kept by the loop. *)
Lemma for_up_invariant (P : St -> Prop) lo count body s s' :
  (forall i t t', lo <= i < lo + count -> P t -> body i t = Some t' -> P t') ->
  P s -> for_up lo count body s = Some s' -> P s'.
Proof.
  revert lo s. induction count as [|c IH]; intros lo s Hbody Hs Hrun;
    simpl in Hrun.
  - by simplify_eq.
  - destruct (body lo s) as [s1|] eqn:E; simplify_eq/=.
    eapply (IH (S lo) s1); [| |done].
    + intros i t t' Hi. apply Hbody. lia.
    + eapply Hbody; [|done..]. lia.
Qed.

Lemma for_down_invariant (P : St -> Prop) lo count body s s' :
  (forall i t t', lo <= i < lo + count -> P t -> body i t = Some t' -> P t') ->
  P s -> for_down lo count body s = Some s' -> P s'.
Proof.
  revert s. induction count as [|c IH]; intros s Hbody Hs Hrun;
    simpl in Hrun.
  - by simplify_eq.
  - destruct (body (lo + c) s) as [s1|] eqn:E; simplify_eq/=.
    eapply (IH s1); [| |done].
    + intros i t t' Hi. apply Hbody. lia.
    + eapply Hbody; [|done..]. lia.
Qed.
End Loops.

(** Two loops whose bodies are related by [f] on the states that satisfy an
    invariant of the first are related by [f]. *)
Lemma for_up_commute {St St' : Type} (f : St -> St') (P : St -> Prop)
    (body : nat -> St -> option St) (body' : nat -> St' -> option St')
    lo count s :
  (forall i t t', lo <= i < lo + count -> P t -> body i t = Some t' -> P t') ->
  (forall i t, lo <= i < lo + count -> P t -> body' i (f t) = f <$> body i t) ->
  P s ->
  for_up lo count body' (f s) = f <$> for_up lo count body s.
Proof.
  revert lo s. induction count as [|c IH]; intros lo s Hinv Hbody Hs; [done|].
  simpl. rewrite Hbody by (done || lia).
  destruct (body lo s) as [s1|] eqn:E; simpl; [|done].
  apply IH.
  - intros i t t' Hi. apply Hinv. lia.
  - intros i t Hi. apply Hbody. lia.
  - eapply Hinv; [|done..]. lia.
Qed.

Lemma for_down_commute {St St' : Type} (f : St -> St') (P : St -> Prop)
    (body : nat -> St -> option St) (body' : nat -> St' -> option St')
    lo count s :
  (forall i t t', lo <= i < lo + count -> P t -> body i t = Some t' -> P t') ->
  (forall i t, lo <= i < lo + count -> P t -> body' i (f t) = f <$> body i t) ->
  P s ->
  for_down lo count body' (f s) = f <$> for_down lo count body s.
Proof.
  revert s. induction count as [|c IH]; intros s Hinv Hbody Hs; [done|].
  simpl. rewrite Hbody by (done || lia).
  destruct (body (lo + c) s) as [s1|] eqn:E; simpl; [|done].
  apply IH.
  - intros i t t' Hi. apply Hinv. lia.
  - intros i t Hi. apply Hbody. lia.
  - eapply Hinv; [|done..]. lia.
Qed.

(** ** The constructor *)

Section ConstructionFacts.
Context {D : Type} `{DoubleOps D} {G : Type} (dis : G -> D * G).
Implicit Types (rd : nat -> G) (gen : G) (sizes : list nat).

Lemma generate_length n gen : length (generate dis n gen).1 = n.
Proof.
  revert gen. induction n as [|n IH]; intros gen; simpl; [done|].
  destruct (dis gen) as [w gen1]. specialize (IH gen1).
  destruct (generate dis n gen1) as [ws gen2]. simpl in *. by rewrite IH.
Qed.

Lemma init_neurons_length c p gen : length (init_neurons dis c p gen) = c.
Proof.
  revert gen. induction c as [|c IH]; intros gen; simpl; [done|].
  destruct (generate dis p gen) as [ws gen1], (dis gen1) as [b gen2].
  simpl. by rewrite IH.
Qed.

Lemma init_neurons_weights c p gen :
  forallb (fun n => Nat.eqb (length (weights n)) p) (init_neurons dis c p gen)
  = true.
Proof.
  revert gen. induction c as [|c IH]; intros gen; simpl; [done|].
  pose proof (generate_length p gen) as Hlen.
  destruct (generate dis p gen) as [ws gen1], (dis gen1) as [b gen2].
  simpl in *. by rewrite Hlen, Nat.eqb_refl, IH.
Qed.

Lemma construct_loop rd sizes lo count acc :
  for_up lo count (construct_step dis rd sizes) acc
  = Some (acc ++ map (fun i => Layer_new dis (nth i sizes 0)
                                 (nth (i - 1) sizes 0) (rd i))
                   (seq lo count)).
Proof.
  revert lo acc. induction count as [|c IH]; intros lo acc; simpl.
  - by rewrite app_nil_r.
  - rewrite IH. by rewrite <- app_assoc.
Qed.

Lemma build_subscripts rd rest pre s0 :
  map (fun i => Layer_new dis (nth i (pre ++ s0 :: rest) 0)
                  (nth (i - 1) (pre ++ s0 :: rest) 0) (rd i))
      (seq (S (length pre)) (length rest))
  = build dis rd (S (length pre)) s0 rest.
Proof.
  revert pre s0. induction rest as [|s rest IH]; intros pre s0; [done|].
  simpl. rewrite Nat.sub_0_r.
  replace (nth (S (length pre)) (pre ++ s0 :: s :: rest) 0) with s; last first.
  { rewrite app_nth2 by lia.
    by replace (S (length pre) - length pre) with 1 by lia. }
  replace (nth (length pre) (pre ++ s0 :: s :: rest) 0) with s0; last first.
  { rewrite app_nth2 by lia. by rewrite Nat.sub_diag. }
  f_equal. specialize (IH (pre ++ [s0]) s).
  rewrite <- app_assoc, length_app in IH. simpl in IH.
  by rewrite Nat.add_1_r in IH.
Qed.

(** The constructor materialises one [Layer] per entry of [layerSizes]
    after the first, and none when there are fewer than two entries. *)
Lemma layers_new rd s0 rest lr :
  layers (NeuralNetwork_new dis rd (s0 :: rest) lr) = build dis rd 1 s0 rest.
Proof.
  unfold NeuralNetwork_new. cbn [layers length]. rewrite Nat.sub_succ, Nat.sub_0_r.
  rewrite construct_loop. simpl default.
  apply (build_subscripts rd rest [] s0).
Qed.

Lemma layers_new_nil rd lr : layers (NeuralNetwork_new dis rd [] lr) = [].
Proof. done. Qed.

Lemma build_length rd i prev sizes :
  length (build dis rd i prev sizes) = length sizes.
Proof.
  revert i prev. induction sizes as [|s sizes IH]; intros i prev; simpl;
    [done|by rewrite IH].
Qed.

Lemma build_shaped rd i prev sizes :
  shaped prev (build dis rd i prev sizes) = true.
Proof.
  revert i prev. induction sizes as [|s sizes IH]; intros i prev; simpl;
    [done|].
  by rewrite init_neurons_weights, init_neurons_length, IH.
Qed.
End ConstructionFacts.

(** ** The forward pass, layer by layer *)

Section ForwardFacts.
Context {D : Type} `{DoubleOps D}.
Implicit Types (prev cur : Layer D) (pre rest ls : list (Layer D)).

Lemma lookup_after pre prev cur rest :
  (pre ++ prev :: cur :: rest) !! S (length pre) = Some cur.
Proof.
  rewrite (lookup_app_r pre) by lia.
  by replace (S (length pre) - length pre) with 1 by lia.
Qed.

Lemma insert_after pre prev cur rest (x : Layer D) :
  <[S (length pre) := x]> (pre ++ prev :: cur :: rest)
  = pre ++ prev :: x :: rest.
Proof.
  rewrite insert_app_r_alt by lia.
  by replace (S (length pre) - length pre) with 1 by lia.
Qed.

(** The iteration for the layer after [prev] reads [prev] and rewrites that
    one layer. *)
Lemma forward_step_at pre prev cur rest :
  forward_step (S (length pre)) (pre ++ prev :: cur :: rest)
  = ns ← mapM (fire prev (bool_decide (rest = []))) (neurons cur);
    cur' ← (if bool_decide (rest = []) then
              outputs ← softmax (map value ns);
              ns' ← store_outputs 0 ns outputs;
              Some (mkLayer ns')
            else Some (mkLayer ns));
    Some (pre ++ prev :: cur' :: rest).
Proof.
  unfold forward_step.
  replace (S (length pre) - 1) with (length pre) by lia.
  rewrite (list_lookup_middle pre (cur :: rest) prev (length pre) eq_refl).
  rewrite lookup_after. simpl.
  assert (bool_decide (S (length pre)
                       = length (pre ++ prev :: cur :: rest) - 1)
          = bool_decide (rest = [])) as ->.
  { apply bool_decide_ext. rewrite length_app. simpl.
    destruct rest; simpl; split; intros; (done || lia). }
  destruct (mapM _ (neurons cur)) as [ns|]; simpl; [|done].
  rewrite insert_after.
  case_bool_decide as Hrest; simpl; [|done]. subst rest.
  replace (pre ++ [prev; mkLayer ns]) with ((pre ++ [prev]) ++ [mkLayer ns])
    by by rewrite <- app_assoc.
  rewrite last_snoc. simpl. unfold getOutputs. simpl.
  destruct (softmax (map value ns)) as [outputs|]; simpl; [|done].
  destruct (store_outputs 0 ns outputs) as [ns'|]; simpl; [|done].
  rewrite <- app_assoc. simpl.
  replace (length (pre ++ [prev; mkLayer ns]) - 1) with (S (length pre))
    by (rewrite length_app; simpl; lia).
  by rewrite insert_after.
Qed.

Lemma forward_loop rest pre prev :
  for_up (S (length pre)) (length rest) forward_step (pre ++ prev :: rest)
  = (fun rest' => pre ++ prev :: rest') <$> forward_from prev rest.
Proof.
  revert pre prev. induction rest as [|cur rest IH]; intros pre prev; [done|].
  cbn [length for_up forward_from]. rewrite forward_step_at.
  destruct (mapM _ (neurons cur)) as [ns|]; simpl; [|done].
  set (o := if bool_decide (rest = []) then _ else _).
  destruct o as [cur'|]; simpl; [|done].
  specialize (IH (pre ++ [prev]) cur').
  rewrite length_app, Nat.add_1_r, <- app_assoc in IH. simpl in IH.
  rewrite IH. destruct (forward_from cur' rest); simpl; [|done].
  by rewrite <- app_assoc.
Qed.

(** [forwardPropagation] copies the input into the activations of
    [layers[0]] and runs the layer loop from there. *)
Lemma forwardPropagation_unfold net inputValues :
  forwardPropagation net inputValues
  = match layers net with
    | [] => None
    | l0 :: rest =>
        ns0 ← set_input_values 0 (neurons l0) inputValues;
        rest' ← forward_from (mkLayer ns0) rest;
        Some (mkNetwork (mkLayer ns0 :: rest') (learningRate net))
    end.
Proof.
  unfold forwardPropagation. destruct (layers net) as [|l0 rest]; [done|].
  simpl. destruct (set_input_values 0 (neurons l0) inputValues) as [ns0|];
    simpl; [|done].
  rewrite Nat.sub_0_r.
  pose proof (forward_loop rest [] (mkLayer ns0)) as Hloop.
  simpl in Hloop. rewrite Hloop.
  by destruct (forward_from (mkLayer ns0) rest).
Qed.
End ForwardFacts.

(** ** What the inner loops read and write *)

Section InnerLoops.
Context {D : Type} `{DoubleOps D}.
Implicit Types (ns prev cur next : list (Neuron D)) (ws x : list D).

Lemma set_params_values ns ps : map value (set_params ns ps) = map value ns.
Proof.
  revert ps. induction ns as [|n ns IH]; intros [|p ps]; simpl; try done.
  by rewrite IH.
Qed.

Lemma set_params_length ns ps : length (set_params ns ps) = length ns.
Proof.
  by rewrite <- (length_map value), set_params_values, length_map.
Qed.

Lemma set_input_values_set_params i ns ps x :
  set_input_values i (set_params ns ps) x
  = (fun ns' => set_params ns' ps) <$> set_input_values i ns x.
Proof.
  revert i ps. induction ns as [|n ns IH]; intros i [|p ps]; simpl;
    try done.
  - by destruct (x !! i) as [v|]; simpl;
      [destruct (set_input_values (S i) ns x)|].
  - destruct (x !! i) as [v|]; simpl; [|done]. rewrite IH.
    by destruct (set_input_values (S i) ns x).
Qed.

(** The copy of the input keeps every neuron's weights and bias, stores
    the input's entries from [i] on, and is defined exactly when the input
    has them. *)
Lemma set_input_values_Some i ns x ns' :
  set_input_values i ns x = Some ns' ->
  map neuron_params ns' = map neuron_params ns
  /\ map value ns' = take (length ns) (drop i x).
Proof.
  revert i ns'. induction ns as [|n ns IH]; intros i ns' Hrun;
    simpl in Hrun.
  - by simplify_eq.
  - destruct (x !! i) as [v|] eqn:Hv; simplify_eq/=.
    destruct (set_input_values (S i) ns x) as [ns''|] eqn:E; simplify_eq/=.
    destruct (IH _ _ E) as [-> ->]. split; [done|].
    rewrite (drop_S _ _ _ Hv). done.
Qed.

Lemma set_input_values_is_Some i ns x :
  is_Some (set_input_values i ns x) <-> i + length ns <= length x \/ ns = [].
Proof.
  revert i. induction ns as [|n ns IH]; intros i; simpl.
  - split; [by right|by eexists].
  - destruct (x !! i) as [v|] eqn:Hv; simpl.
    + apply lookup_lt_Some in Hv. destruct (IH (S i)) as [IH1 IH2].
      destruct (set_input_values (S i) ns x) as [ns''|] eqn:E; simpl.
      * split; [|by eexists]. intros _. left.
        destruct IH1 as [?| ->]; [by eexists|simpl; lia..].
      * split; [by intros [? ?]|]. intros [Hle|?]; [|done].
        destruct IH2 as [? ?]; [left; lia|done].
    + apply lookup_ge_None in Hv. split; [by intros [? ?]|].
      intros [?|?]; [lia|done].
Qed.

Lemma store_outputs_set_input_values i ns x :
  store_outputs i ns x = set_input_values i ns x.
Proof.
  revert i. induction ns as [|n ns IH]; intros i; simpl; [done|].
  by rewrite IH.
Qed.

Lemma weighted_sum_values j prev prev' ws acc :
  map value prev = map value prev' ->
  weighted_sum j prev ws acc = weighted_sum j prev' ws acc.
Proof.
  revert j prev' acc. induction prev as [|p prev IH];
    intros j [|p' prev'] acc Hv; try done.
  injection Hv as Hp Hv. simpl.
  destruct (ws !! j) as [w|]; simpl; [|done]. rewrite Hp. by apply IH.
Qed.

Lemma weighted_sum_is_Some j prev ws acc :
  j + length prev <= length ws -> is_Some (weighted_sum j prev ws acc).
Proof.
  revert j acc. induction prev as [|p prev IH]; intros j acc Hlen; simpl.
  - by eexists.
  - simpl in Hlen. destruct (lookup_lt_is_Some_2 ws j) as [w ->]; [lia|].
    simpl. apply IH. lia.
Qed.

Lemma fire_values (l l' : Layer D) o n :
  map value (neurons l) = map value (neurons l') -> fire l o n = fire l' o n.
Proof. intros Hv. unfold fire. by rewrite (weighted_sum_values _ _ _ _ _ Hv). Qed.

Lemma fire_Some (l : Layer D) o n n' :
  fire l o n = Some n' -> neuron_params n' = neuron_params n.
Proof.
  unfold fire. intros Hrun.
  destruct (weighted_sum 0 (neurons l) (weights n) d0); by simplify_eq/=.
Qed.

(** The activation a neuron receives does not depend on the one it held. *)
Lemma fire_params (l : Layer D) o n n' :
  neuron_params n = neuron_params n' -> fire l o n = fire l o n'.
Proof.
  destruct n, n'. unfold neuron_params, fire. simpl. by intros [= -> ->].
Qed.

Lemma output_deltas_values i ns ns' x :
  map value ns = map value ns' -> output_deltas i ns x = output_deltas i ns' x.
Proof.
  revert i ns'. induction ns as [|n ns IH]; intros i [|n' ns'] Hv;
    try done.
  injection Hv as Hn Hv. simpl.
  destruct (x !! i); simpl; [|done]. by rewrite (IH _ _ Hv), Hn.
Qed.

Lemma hidden_row_values j cur cur' next delta_of :
  map value cur = map value cur' ->
  hidden_row j cur next delta_of = hidden_row j cur' next delta_of.
Proof.
  revert j cur'. induction cur as [|n cur IH]; intros j [|n' cur'] Hv;
    try done.
  injection Hv as Hn Hv. simpl.
  destruct (delta_sum 0 next j delta_of d0); simpl; [|done].
  by rewrite (IH _ _ Hv), Hn.
Qed.

Lemma update_weights_values k ws prev prev' lr delta :
  map value prev = map value prev' ->
  update_weights k ws prev lr delta = update_weights k ws prev' lr delta.
Proof.
  intros Hv. revert k. induction ws as [|w ws IH]; intros k; simpl; [done|].
  assert (value <$> prev !! k = value <$> prev' !! k) as Hk.
  { by rewrite <- !list_lookup_fmap, <- !map_fmap, Hv. }
  rewrite IH.
  destruct (prev !! k) as [p|], (prev' !! k) as [p'|]; simpl in Hk;
    try done.
  injection Hk as Hk. simpl. by rewrite Hk.
Qed.

Lemma update_neurons_values j ns delta_of prev prev' lr :
  map value prev = map value prev' ->
  update_neurons j ns delta_of prev lr = update_neurons j ns delta_of prev' lr.
Proof.
  intros Hv. revert j. induction ns as [|n ns IH]; intros j; simpl; [done|].
  destruct (delta_of j) as [delta|]; simpl; [|done].
  by rewrite (update_weights_values _ _ _ _ _ _ Hv), IH.
Qed.

Lemma update_neurons_values_kept j ns delta_of prev lr ns' :
  update_neurons j ns delta_of prev lr = Some ns' ->
  map value ns' = map value ns.
Proof.
  revert j ns'. induction ns as [|n ns IH]; intros j ns' Hrun;
    simplify_eq/=; [done|].
  destruct (delta_of j); simplify_eq/=.
  destruct (update_weights _ _ _ _ _); simplify_eq/=.
  destruct (update_neurons _ _ _ _ _) eqn:E; simplify_eq/=.
  by rewrite (IH _ _ E).
Qed.
End InnerLoops.

(** ** The first constructed layer: its weights and biases are dead *)

Section FirstLayer.
Context {D : Type} `{DoubleOps D}.
Implicit Types (net : NeuralNetwork D) (ls rest : list (Layer D))
  (ps : list (list D * D)).

Lemma for_down_ext {St : Type} (body body' : nat -> St -> option St)
    lo count s :
  (forall i t, body i t = body' i t) ->
  for_down lo count body s = for_down lo count body' s.
Proof.
  intros Hext. revert s. induction count as [|c IH]; intros s; simpl;
    [done|].
  rewrite Hext. destruct (body' (lo + c) s); simpl; [apply IH|done].
Qed.

Lemma max_element_from_values (f : Neuron D -> D) (comp : D -> D -> bool)
    largest v it (ns : list (Neuron D)) :
  max_element_from (fun a b => comp (f a) (f b)) largest v it ns
  = max_element_from comp largest (f v) it (map f ns).
Proof.
  revert largest v it. induction ns as [|n ns IH]; intros largest v it;
    simpl; [done|].
  destruct (comp (f v) (f n)); apply IH.
Qed.

Lemma max_element_values (ns : list (Neuron D)) :
  max_element (fun a b => dlt (value a) (value b)) ns
  = max_element dlt (map value ns).
Proof. destruct ns as [|n ns]; [done|]. apply max_element_from_values. Qed.

Lemma on_first_length ps ls : length (on_first ps ls) = length ls.
Proof. by destruct ls. Qed.

Lemma on_first_lookup_S ps ls i : on_first ps ls !! S i = ls !! S i.
Proof. by destruct ls. Qed.

Lemma on_first_insert_S ps ls i (x : Layer D) :
  <[S i := x]> (on_first ps ls) = on_first ps (<[S i := x]> ls).
Proof. by destruct ls. Qed.

(** Through [ls !! i] the first layer shows the activations it had. *)
Lemma on_first_lookup_values ps ls i :
  (fun l => map value (neurons l)) <$> on_first ps ls !! i
  = (fun l => map value (neurons l)) <$> ls !! i.
Proof.
  destruct ls as [|l0 rest]; [done|]. destruct i as [|i]; [|done].
  simpl. by rewrite set_params_values.
Qed.

Lemma on_first_last_values ps ls :
  (fun l => map value (neurons l)) <$> last (on_first ps ls)
  = (fun l => map value (neurons l)) <$> last ls.
Proof.
  destruct ls as [|l0 [|l1 rest]]; [done| |done].
  simpl. by rewrite set_params_values.
Qed.

Lemma forward_from_values (prev prev' : Layer D) rest :
  map value (neurons prev) = map value (neurons prev') ->
  forward_from prev rest = forward_from prev' rest.
Proof.
  intros Hv. destruct rest as [|cur rest]; [done|]. simpl.
  by rewrite (mapM_ext _ _ _ (fun n => fire_values prev prev' _ n Hv)).
Qed.

Lemma forward_with_first_params ps net x :
  forwardPropagation (with_first_params ps net) x
  = with_first_params ps <$> forwardPropagation net x.
Proof.
  rewrite !forwardPropagation_unfold. unfold with_first_params at 1. simpl.
  destruct (layers net) as [|l0 rest]; [done|]. simpl.
  rewrite set_input_values_set_params.
  destruct (set_input_values 0 (neurons l0) x) as [ns0|]; simpl; [|done].
  rewrite (forward_from_values (mkLayer (set_params ns0 ps)) (mkLayer ns0))
    by apply set_params_values.
  by destruct (forward_from (mkLayer ns0) rest).
Qed.

Lemma forward_first_params_kept net x net' :
  forwardPropagation net x = Some net' -> first_params net' = first_params net.
Proof.
  rewrite forwardPropagation_unfold. unfold first_params.
  destruct (layers net) as [|l0 rest]; [done|]. intros Hrun.
  destruct (set_input_values 0 (neurons l0) x) as [ns0|] eqn:E0;
    simplify_eq/=.
  destruct (forward_from (mkLayer ns0) rest); simplify_eq/=.
  unfold layer_params. simpl.
  by destruct (set_input_values_Some _ _ _ _ E0) as [-> _].
Qed.

(** After a forward pass the activations of [layers[0]] are the leading
    entries of the input. *)
Lemma forward_first_values net (x : list D) net' :
  forwardPropagation net x = Some net' ->
  getOutputs <$> head (layers net') = Some (take (firstWidth net) x).
Proof.
  rewrite forwardPropagation_unfold. unfold firstWidth.
  destruct (layers net) as [|l0 rest]; [done|]. intros Hrun.
  destruct (set_input_values 0 (neurons l0) x) as [ns0|] eqn:E0;
    simplify_eq/=.
  destruct (forward_from (mkLayer ns0) rest); simplify_eq/=.
  unfold getOutputs. simpl.
  by destruct (set_input_values_Some _ _ _ _ E0) as [_ ->].
Qed.

Lemma hidden_step_on_first ps ls outputDeltas i hiddenDeltas :
  hidden_step (on_first ps ls) outputDeltas i hiddenDeltas
  = hidden_step ls outputDeltas i hiddenDeltas.
Proof.
  unfold hidden_step. rewrite on_first_length.
  pose proof (on_first_lookup_values ps ls i) as Hcur.
  replace (i + 1) with (S i) by lia. rewrite on_first_lookup_S.
  destruct (on_first ps ls !! i) as [cur'|], (ls !! i) as [cur|];
    simplify_eq/=; [|done].
  destruct (ls !! S i) as [next|]; simpl; [|done].
  by rewrite (hidden_row_values _ _ _ _ _ Hcur).
Qed.

Lemma update_step_on_first ps lr outputDeltas hiddenDeltas i ls :
  1 <= i ->
  update_step lr outputDeltas hiddenDeltas i (on_first ps ls)
  = on_first ps <$> update_step lr outputDeltas hiddenDeltas i ls.
Proof.
  intros Hi. destruct i as [|i]; [lia|]. unfold update_step.
  rewrite on_first_length, on_first_lookup_S.
  destruct (ls !! S i) as [cur|]; simpl; [|done].
  rewrite Nat.sub_0_r.
  pose proof (on_first_lookup_values ps ls i) as Hprev.
  destruct (on_first ps ls !! i) as [prev'|], (ls !! i) as [prev|];
    simplify_eq/=; [|done].
  rewrite (update_neurons_values _ _ _ _ _ _ Hprev).
  destruct (update_neurons _ _ _ _ _); simpl; [|done].
  by rewrite on_first_insert_S.
Qed.

Lemma backward_with_first_params ps net t :
  backPropagation (with_first_params ps net) t
  = with_first_params ps <$> backPropagation net t.
Proof.
  unfold backPropagation, with_first_params at 1. simpl.
  rewrite on_first_length.
  pose proof (on_first_last_values ps (layers net)) as Hback.
  destruct (last (on_first ps (layers net))) as [back'|],
    (last (layers net)) as [back|]; simplify_eq/=; [|done].
  rewrite (output_deltas_values _ _ _ _ Hback).
  destruct (output_deltas 0 (neurons back) t) as [outputDeltas|]; simpl;
    [|done].
  rewrite (for_down_ext _ _ _ _ _
             (hidden_step_on_first ps (layers net) outputDeltas)).
  destruct (for_down 0 _ _ _) as [hiddenDeltas|]; simpl; [|done].
  rewrite (for_down_commute (on_first ps) (fun _ => True)
             (update_step (learningRate net) outputDeltas hiddenDeltas));
    [|done| |done].
  - by destruct (for_down 1 _ _ _).
  - intros i ls [Hi _] _. by apply update_step_on_first.
Qed.

Lemma update_step_head lr outputDeltas hiddenDeltas i ls ls' :
  1 <= i -> update_step lr outputDeltas hiddenDeltas i ls = Some ls' ->
  head ls' = head ls.
Proof.
  intros Hi Hrun. unfold update_step in Hrun.
  destruct (ls !! i), (ls !! (i - 1)); simplify_eq/=.
  destruct (update_neurons _ _ _ _ _); simplify_eq/=.
  destruct i as [|i]; [lia|]. by destruct ls.
Qed.

Lemma backward_first_params_kept net t net' :
  backPropagation net t = Some net' -> first_params net' = first_params net.
Proof.
  unfold backPropagation, first_params. intros Hrun.
  destruct (last (layers net)); simplify_eq/=.
  destruct (output_deltas _ _ _) as [outputDeltas|]; simplify_eq/=.
  destruct (for_down 0 _ _ _) as [hiddenDeltas|]; simplify_eq/=.
  destruct (for_down 1 _ _ _) as [ls'|] eqn:E; simplify_eq/=.
  f_equal. revert E.
  apply (for_down_invariant (fun ls => head ls = head (layers net)));
    [|done].
  intros i ls ls'' [Hi _] <-. by apply update_step_head.
Qed.

Lemma train_sample_with_first_params ps inputs targets i net :
  train_sample inputs targets i (with_first_params ps net)
  = with_first_params ps <$> train_sample inputs targets i net.
Proof.
  unfold train_sample. destruct (inputs !! i) as [x|]; simpl; [|done].
  rewrite forward_with_first_params.
  destruct (forwardPropagation net x) as [net1|]; simpl; [|done].
  destruct (targets !! i) as [t|]; simpl; [|done].
  apply backward_with_first_params.
Qed.

Lemma train_with_first_params ps net inputs targets epochs :
  train (with_first_params ps net) inputs targets epochs
  = with_first_params ps <$> train net inputs targets epochs.
Proof.
  unfold train.
  apply (for_up_commute (with_first_params ps) (fun _ => True)); [done| |done].
  intros _ net1 _ _.
  apply (for_up_commute (with_first_params ps) (fun _ => True)); [done| |done].
  intros i net2 _ _. apply train_sample_with_first_params.
Qed.

Lemma train_sample_first_params_kept inputs targets i net net' :
  train_sample inputs targets i net = Some net' ->
  first_params net' = first_params net.
Proof.
  unfold train_sample. intros Hrun.
  destruct (inputs !! i) as [x|]; simplify_eq/=.
  destruct (forwardPropagation net x) as [net1|] eqn:E1; simplify_eq/=.
  destruct (targets !! i) as [t|]; simplify_eq/=.
  rewrite (backward_first_params_kept _ _ _ Hrun).
  by apply forward_first_params_kept in E1.
Qed.

Lemma train_first_params_kept net inputs targets epochs net' :
  train net inputs targets epochs = Some net' ->
  first_params net' = first_params net.
Proof.
  unfold train.
  apply (for_up_invariant (fun n => first_params n = first_params net));
    [|done].
  intros _ net1 net2 _ <-.
  apply (for_up_invariant (fun n => first_params n = first_params net1));
    [|done].
  intros i net3 net4 _ <-. apply train_sample_first_params_kept.
Qed.

Lemma argmax_output_with_first_params ps net :
  argmax_output (with_first_params ps net) = argmax_output net.
Proof.
  unfold argmax_output, with_first_params. simpl.
  pose proof (on_first_last_values ps (layers net)) as Hback.
  destruct (last (on_first ps (layers net))) as [back'|],
    (last (layers net)) as [back|]; simplify_eq/=; [|done].
  by rewrite !max_element_values, Hback.
Qed.

Lemma predict_with_first_params ps net x :
  predict (with_first_params ps net) x
  = prod_map (with_first_params ps) (fun c : nat => c) <$> predict net x.
Proof.
  unfold predict. rewrite forward_with_first_params.
  destruct (forwardPropagation net x) as [net'|]; simpl; [|done].
  rewrite argmax_output_with_first_params.
  by destruct (argmax_output net').
Qed.

Lemma evaluate_sample_with_first_params ps inputs outputs i st :
  evaluate_sample inputs outputs i
    (prod_map (with_first_params ps) (fun c : nat => c) st)
  = prod_map (with_first_params ps) (fun c : nat => c)
      <$> evaluate_sample inputs outputs i st.
Proof.
  destruct st as [net c]. unfold evaluate_sample. simpl.
  destruct (inputs !! i) as [x|]; simpl; [|done].
  rewrite forward_with_first_params.
  destruct (forwardPropagation net x) as [net'|]; simpl; [|done].
  rewrite argmax_output_with_first_params.
  destruct (argmax_output net'); simpl; [|done].
  by destruct (outputs !! i).
Qed.

Lemma evaluate_with_first_params ps net inputs outputs :
  evaluateAccuracy (with_first_params ps net) inputs outputs
  = prod_map (with_first_params ps) (fun acc : D => acc)
      <$> evaluateAccuracy net inputs outputs.
Proof.
  unfold evaluateAccuracy.
  rewrite (for_up_commute (prod_map (with_first_params ps) (fun c : nat => c))
             (fun _ => True) (evaluate_sample inputs outputs)
             (evaluate_sample inputs outputs) 0 (length inputs) (net, 0));
    [|done| |done].
  - by destruct (for_up 0 _ _ _) as [[net' c]|].
  - intros i st _ _. apply evaluate_sample_with_first_params.
Qed.

Lemma predict_first_params_kept net x net' c :
  predict net x = Some (net', c) -> first_params net' = first_params net.
Proof.
  unfold predict. intros Hrun.
  destruct (forwardPropagation net x) as [net1|] eqn:E; simplify_eq/=.
  destruct (argmax_output net1); simplify_eq/=.
  by apply forward_first_params_kept in E.
Qed.

Lemma evaluate_first_params_kept net inputs outputs net' acc :
  evaluateAccuracy net inputs outputs = Some (net', acc) ->
  first_params net' = first_params net.
Proof.
  unfold evaluateAccuracy. intros Hrun.
  destruct (for_up 0 _ _ _) as [[net1 c]|] eqn:E; simplify_eq/=.
  revert E.
  apply (for_up_invariant
           (fun st : NeuralNetwork D * nat =>
              first_params st.1 = first_params net)); [|done].
  intros i [n1 c1] [n2 c2] _ Hn1 Hstep. simpl in *.
  unfold evaluate_sample in Hstep. simpl in Hstep.
  destruct (inputs !! i) as [x|]; simplify_eq/=.
  destruct (forwardPropagation n1 x) as [n3|] eqn:E3; simplify_eq/=.
  destruct (argmax_output n3); simplify_eq/=.
  destruct (outputs !! i); simplify_eq/=.
  rewrite <- Hn1. by apply forward_first_params_kept in E3.
Qed.
End FirstLayer.

(** ** What training depends on *)

Section Determinism.
Context {D : Type} `{DoubleOps D}.
Implicit Types (net : NeuralNetwork D) (ls rest : list (Layer D))
  (ns : list (Neuron D)).

Lemma set_input_values_params i ns ns' x :
  map neuron_params ns = map neuron_params ns' ->
  set_input_values i ns x = set_input_values i ns' x.
Proof.
  revert i ns'. induction ns as [|n ns IH]; intros i [|n' ns'] Hp;
    try done.
  injection Hp as Hw Hb Hp. simpl.
  destruct (x !! i); simpl; [|done].
  rewrite (IH _ _ Hp). unfold set_value. by rewrite Hw, Hb.
Qed.

Lemma mapM_fire_params (prev : Layer D) o ns ns' :
  map neuron_params ns = map neuron_params ns' ->
  mapM (fire prev o) ns = mapM (fire prev o) ns'.
Proof.
  revert ns'. induction ns as [|n ns IH]; intros [|n' ns'] Hp; try done.
  injection Hp as Hw Hb Hp. simpl.
  rewrite (fire_params prev o n n') by (unfold neuron_params; congruence).
  by rewrite (IH _ Hp).
Qed.

Lemma forward_from_params (prev : Layer D) rest rest' :
  map layer_params rest = map layer_params rest' ->
  forward_from prev rest = forward_from prev rest'.
Proof.
  revert prev rest'. induction rest as [|cur rest IH];
    intros prev [|cur' rest'] Hp; try done.
  injection Hp as Hcur Hp. simpl.
  rewrite (mapM_fire_params prev _ _ _ Hcur).
  assert (bool_decide (rest = []) = bool_decide (rest' = [])) as ->.
  { apply bool_decide_ext. destruct rest, rest'; naive_solver. }
  destruct (mapM _ (neurons cur')) as [ns|]; simpl; [|done].
  destruct (if bool_decide (rest' = []) then _ else _) as [l|]; simpl;
    [|done].
  by rewrite (IH _ _ Hp).
Qed.

(** A forward pass overwrites every activation: its result is fixed by the
    weights, the biases and the input. *)
Lemma forward_params net net' x :
  parameters net = parameters net' ->
  forwardPropagation net x = forwardPropagation net' x.
Proof.
  unfold parameters. intros [= Hls Hlr].
  rewrite !forwardPropagation_unfold.
  destruct (layers net) as [|l0 rest], (layers net') as [|l0' rest'];
    try done.
  injection Hls as Hl0 Hrest.
  rewrite (set_input_values_params _ _ _ _ Hl0), Hlr.
  destruct (set_input_values 0 (neurons l0') x) as [ns0|]; simpl; [|done].
  by rewrite (forward_from_params _ _ _ Hrest).
Qed.


Lemma for_up_first {St : Type} (body : nat -> St -> option St)
    lo count s s' :
  body lo s = body lo s' -> 0 < count ->
  for_up lo count body s = for_up lo count body s'.
Proof. destruct count; [lia|]. simpl. by intros ->. Qed.


Context {G : Type} (dis : G -> D * G).

End Determinism.

(** ** When the forward pass is defined *)

Section Definedness.
Context {D : Type} `{DoubleOps D}.
Implicit Types (net : NeuralNetwork D) (ls rest : list (Layer D))
  (ns : list (Neuron D)).

Lemma max_element_from_bound {A : Type} (comp : A -> A -> bool)
    largest v it (l : list A) :
  largest < it -> max_element_from comp largest v it l < it + length l.
Proof.
  revert largest v it. induction l as [|x l IH]; intros largest v it Hlt;
    simpl; [lia|].
  destruct (comp v x).
  - specialize (IH it x (S it)). lia.
  - specialize (IH largest v (S it)). lia.
Qed.

Lemma max_element_lt {A : Type} (comp : A -> A -> bool) (l : list A) :
  l <> [] -> max_element comp l < length l.
Proof.
  destruct l as [|x l]; [done|]. intros _. simpl.
  pose proof (max_element_from_bound comp 0 x 1 l). lia.
Qed.

Lemma softmax_exps_length m (x : list D) s :
  length (softmax_exps m x s).1 = length x.
Proof.
  revert s. induction x as [|xi x IH]; intros s; simpl; [done|].
  specialize (IH (dadd s (dexp (dsub xi m)))).
  destruct (softmax_exps m x _). simpl in *. by rewrite IH.
Qed.

Lemma softmax_is_Some (x : list D) :
  x <> [] -> exists r, softmax x = Some r /\ length r = length x.
Proof.
  intros Hx. unfold softmax.
  destruct (lookup_lt_is_Some_2 x (max_element dlt x)) as [m ->];
    [by apply max_element_lt|].
  simpl. pose proof (softmax_exps_length m x d0) as Hlen.
  destruct (softmax_exps m x d0) as [result expSum]. simpl in *.
  eexists. split; [done|]. by rewrite length_map.
Qed.


Lemma mapM_fire_Some (prev : Layer D) o ns :
  forallb (fun n => Nat.eqb (length (weights n)) (length (neurons prev))) ns
  = true ->
  exists ns', mapM (fire prev o) ns = Some ns'
              /\ map neuron_params ns' = map neuron_params ns.
Proof.
  induction ns as [|n ns IH]; intros Hw; simpl in *; [by eexists|].
  apply andb_prop in Hw as [Hn Hw]. apply Nat.eqb_eq in Hn.
  destruct (IH Hw) as (ns' & -> & Hp).
  destruct (weighted_sum_is_Some 0 (neurons prev) (weights n) d0) as [v Hv];
    [lia|].
  unfold fire at 1. rewrite Hv. simpl. eexists. split; [done|].
  simpl. by rewrite Hp.
Qed.

Lemma forward_from_Some (prev : Layer D) rest :
  shaped (length (neurons prev)) rest = true ->
  (forall back, last rest = Some back -> neurons back <> []) ->
  exists rest', forward_from prev rest = Some rest'
                /\ map layer_params rest' = map layer_params rest.
Proof.
  revert prev. induction rest as [|cur rest IH]; intros prev Hshape Hout;
    [by eexists|].
  simpl in Hshape. apply andb_prop in Hshape as [Hcur Hshape].
  destruct (mapM_fire_Some prev (bool_decide (rest = [])) _ Hcur)
    as (ns & Hns & Hp).
  assert (length ns = length (neurons cur)) as Hlen.
  { by rewrite <- (length_map neuron_params), Hp, length_map. }
  simpl. rewrite Hns. simpl.
  case_bool_decide as Hrest.
  - subst rest.
    assert (ns <> []) as Hne.
    { intros ->. by apply (Hout cur); [|destruct (neurons cur)]. }
    destruct (softmax_is_Some (map value ns)) as (outputs & -> & Hlo);
      [by destruct ns|].
    simpl. rewrite store_outputs_set_input_values.
    destruct (set_input_values_is_Some 0 ns outputs) as [_ [ns' Hns']].
    { left. rewrite Hlo, length_map. simpl. lia. }
    rewrite Hns'. simpl. eexists. split; [done|].
    simpl. f_equal. unfold layer_params. simpl.
    destruct (set_input_values_Some _ _ _ _ Hns') as [-> _]. by rewrite Hp.
  - simpl. destruct (IH (mkLayer ns)) as (rest' & -> & Hp').
    + simpl. by rewrite Hlen.
    + intros back Hback. apply Hout. destruct rest; [done|].
      by rewrite last_cons_cons.
    + simpl. eexists. split; [done|]. simpl. rewrite Hp'. f_equal.
      exact Hp.
Qed.

(** On a network whose weight vectors fit its layer sizes and whose output
    layer is not empty, the forward pass is defined as soon as the input
    has an entry for every neuron of [layers[0]]. *)
Lemma forward_defined net x w :
  shaped w (layers net) = true ->
  firstWidth net <= length x ->
  0 < outputWidth net ->
  exists net', forwardPropagation net x = Some net'
               /\ parameters net' = parameters net.
Proof.
  rewrite forwardPropagation_unfold.
  unfold firstWidth, outputWidth, parameters.
  destruct (layers net) as [|l0 rest] eqn:Hls; simpl; [lia|].
  intros Hshape Hx Hout. apply andb_prop in Hshape as [_ Hshape].
  destruct (set_input_values_is_Some 0 (neurons l0) x) as [_ [ns0 Hns0]];
    [left; simpl; lia|].
  rewrite Hns0. simpl.
  destruct (set_input_values_Some _ _ _ _ Hns0) as [Hp0 _].
  assert (length ns0 = length (neurons l0)) as Hlen.
  { by rewrite <- (length_map neuron_params), Hp0, length_map. }
  destruct (forward_from_Some (mkLayer ns0) rest) as (rest' & -> & Hp).
  - simpl. by rewrite Hlen.
  - intros back Hback Hnil. destruct rest as [|l1 rest]; [done|].
    rewrite last_cons_cons, Hback in Hout. simpl in Hout.
    rewrite Hnil in Hout. simpl in Hout. lia.
  - simpl. eexists. split; [done|]. simpl. rewrite Hp. do 2 f_equal.
    exact Hp0.
Qed.

Lemma parameters_outputWidth net net' :
  parameters net' = parameters net -> outputWidth net' = outputWidth net.
Proof.
  unfold parameters, outputWidth. intros [= Hls _].
  assert (forall ls ls' : list (Layer D),
            map layer_params ls' = map layer_params ls ->
            from_option (fun l => length (neurons l)) 0 (last ls')
            = from_option (fun l => length (neurons l)) 0 (last ls)) as Hgen.
  { induction ls as [|l ls IH]; intros [|l' ls'] Hp; try done.
    injection Hp as Hl Hp. destruct ls as [|l1 ls], ls' as [|l1' ls'];
      try done.
    - simpl. by rewrite <- (length_map neuron_params (neurons l')),
        <- (length_map neuron_params (neurons l)); unfold layer_params in Hl;
        rewrite Hl.
    - rewrite !last_cons_cons. by apply IH. }
  by apply Hgen.
Qed.

Lemma build_last_width {G : Type} (dis : G -> D * G) rd i prev sizes :
  from_option (fun l => length (neurons l)) 0 (last (build dis rd i prev sizes))
  = from_option (fun s => s) 0 (last sizes).
Proof.
  revert i prev. induction sizes as [|s sizes IH]; intros i prev; [done|].
  destruct sizes as [|s' sizes].
  - simpl. apply init_neurons_length.
  - specialize (IH (S i) s). cbn [build] in IH |- *.
    by rewrite !last_cons_cons, IH.
Qed.

(** On a constructed network with positive layer sizes the forward pass is
    defined - every subscript of every weight vector is in range - as soon
    as the input covers the [layerSizes[1]] neurons of [layers[0]]. *)
Lemma forward_constructed_defined {G : Type} (dis : G -> D * G) rd
    s0 s1 sizes lr (x : list D) :
  Forall (fun s => 0 < s) (s1 :: sizes) -> s1 <= length x ->
  is_Some (forwardPropagation
             (NeuralNetwork_new dis rd (s0 :: s1 :: sizes) lr) x).
Proof.
  intros Hpos Hx.
  destruct (forward_defined (NeuralNetwork_new dis rd (s0 :: s1 :: sizes) lr)
              x s0) as (net' & -> & _); [| | |by eexists].
  - rewrite layers_new. apply build_shaped.
  - unfold firstWidth. rewrite layers_new. simpl.
    by rewrite init_neurons_length.
  - unfold outputWidth. rewrite layers_new, build_last_width.
    destruct (last (s1 :: sizes)) as [sL|] eqn:HsL;
      [|by apply last_None in HsL].
    simpl. rewrite Forall_forall in Hpos. apply Hpos.
    by apply last_Some_elem_of.
Qed.
End Definedness.

(** ** Softmax and arg-max over the reals *)

Section RealFacts.
Open Scope R_scope.
Implicit Types (x l pre : list R).

Lemma Rltb_lt a b : Rltb a b = true <-> a < b.
Proof. unfold Rltb. destruct (Rlt_dec a b); split; (done || lra). Qed.

Lemma Rltb_ge a b : Rltb a b = false <-> b <= a.
Proof. unfold Rltb. destruct (Rlt_dec a b); split; (done || lra). Qed.

Lemma max_element_from_first_maximum l pre largest v :
  pre !! largest = Some v ->
  (forall j u, pre !! j = Some u -> u <= v) ->
  (forall j u, (j < largest)%nat -> pre !! j = Some u -> u < v) ->
  first_maximum (pre ++ l)
    (max_element_from Rltb largest v (length pre) l).
Proof.
  revert pre largest v. induction l as [|a l IH];
    intros pre largest v Hv Hle Hlt.
  - simpl. rewrite app_nil_r. by exists v.
  - simpl. replace (pre ++ a :: l) with ((pre ++ [a]) ++ l)
      by by rewrite <- app_assoc.
    replace (S (length pre)) with (length (pre ++ [a]))
      by (rewrite length_app; simpl; lia).
    destruct (Rltb v a) eqn:Hcmp.
    + apply Rltb_lt in Hcmp. apply IH.
      * by rewrite lookup_app_r, Nat.sub_diag.
      * intros j u [[_ Hu]|[_ ->]]%lookup_snoc_Some; [|lra].
        apply Hle in Hu. lra.
      * intros j u Hj Hu. rewrite lookup_app_l in Hu by done.
        apply Hle in Hu. lra.
    + apply Rltb_ge in Hcmp. apply IH.
      * by apply lookup_app_l_Some.
      * intros j u [[_ Hu]|[_ ->]]%lookup_snoc_Some; [by eapply Hle|done].
      * intros j u Hj Hu. apply lookup_lt_Some in Hv.
        rewrite lookup_app_l in Hu by lia. by eapply Hlt.
Qed.

(** [std::max_element] with [<] finds the first largest entry. *)
Lemma max_element_first_maximum l :
  l <> [] -> first_maximum l (max_element Rltb l).
Proof.
  destruct l as [|a l]; [done|]. intros _.
  apply (max_element_from_first_maximum l [a] 0 a); [done| |].
  - by intros [|[|j]] u [= ->].
  - intros j u Hj. lia.
Qed.

Lemma fold_left_Rmax_spec l a :
  (a <= fold_left Rmax l a)
  /\ (forall j u, l !! j = Some u -> u <= fold_left Rmax l a)
  /\ (fold_left Rmax l a = a \/ exists j, l !! j = Some (fold_left Rmax l a)).
Proof.
  revert a. induction l as [|b l IH]; intros a; simpl.
  - split; [lra|]. split; [done|by left].
  - destruct (IH (Rmax a b)) as (Hge & Hall & Hin).
    pose proof (Rmax_l a b). pose proof (Rmax_r a b).
    split; [lra|]. split.
    + intros [|j] u Hu; simplify_eq/=; [lra|by eapply Hall].
    + destruct Hin as [Heq|[j Hj]]; [|right; by exists (S j)].
      rewrite Heq. unfold Rmax. destruct (Rle_dec a b);
        [right; by exists 0%nat|by left].
Qed.

Lemma Rmaximum_spec x :
  x <> [] ->
  (exists j, x !! j = Some (Rmaximum x))
  /\ (forall j u, x !! j = Some u -> u <= Rmaximum x).
Proof.
  destruct x as [|a x]; [done|]. intros _. simpl.
  destruct (fold_left_Rmax_spec x a) as (Hge & Hall & Hin). split.
  - destruct Hin as [->|[j Hj]]; [by exists 0%nat|by exists (S j)].
  - intros [|j] u Hu; simplify_eq/=; [done|by eapply Hall].
Qed.

(** The element [softmax] subtracts is the maximum of the vector. *)
Lemma max_element_Rmaximum x :
  x <> [] -> x !! max_element Rltb x = Some (Rmaximum x).
Proof.
  intros Hx. destruct (max_element_first_maximum x Hx) as (m & Hm & Hle & _).
  destruct (Rmaximum_spec x Hx) as [[j Hj] Hmax].
  rewrite Hm. f_equal. apply Rle_antisym; [by eapply Hmax|by eapply Hle].
Qed.

Lemma softmax_exps_real m x s :
  softmax_exps m x s
  = (map (fun xi => exp (xi - m)) x,
     s + Rsum (map (fun xi => exp (xi - m)) x)).
Proof.
  revert s. induction x as [|xi x IH]; intros s; simpl.
  - by rewrite Rplus_0_r.
  - rewrite IH. real_ops. by rewrite Rplus_assoc.
Qed.

Lemma softmax_real x :
  x <> [] -> softmax x = Some (softmax_formula x).
Proof.
  intros Hx. unfold softmax. real_ops.
  rewrite (max_element_Rmaximum x Hx). simpl.
  rewrite softmax_exps_real. unfold softmax_formula.
  real_ops. rewrite Rplus_0_l. by rewrite map_map.
Qed.

Lemma Rsum_exp_pos m x :
  x <> [] -> 0 < Rsum (map (fun xi => exp (xi - m)) x).
Proof.
  intros Hx.
  assert (forall y, 0 <= Rsum (map (fun xi => exp (xi - m)) y)) as Hnonneg.
  { induction y as [|yi y IH]; simpl; [lra|].
    pose proof (exp_pos (yi - m)). lra. }
  destruct x as [|xi x]; [done|]. simpl.
  pose proof (exp_pos (xi - m)). pose proof (Hnonneg x). lra.
Qed.

Lemma Rsum_div l s : Rsum (map (fun e => e / s) l) = Rsum l / s.
Proof.
  induction l as [|e l IH]; simpl.
  - unfold Rdiv. by rewrite Rmult_0_l.
  - rewrite IH. unfold Rdiv. by rewrite Rmult_plus_distr_r.
Qed.

Lemma softmax_formula_sum x : x <> [] -> Rsum (softmax_formula x) = 1.
Proof.
  intros Hx. unfold softmax_formula.
  rewrite <- (map_map (fun xi => exp (xi - Rmaximum x))
                (fun e => e / Rsum (map (fun xj => exp (xj - Rmaximum x)) x))).
  rewrite Rsum_div. pose proof (Rsum_exp_pos (Rmaximum x) x Hx).
  apply Rdiv_diag. lra.
Qed.

Lemma max_element_from_shift c largest v it l :
  max_element_from Rltb largest (v + c) it (map (fun xi => xi + c) l)
  = max_element_from Rltb largest v it l.
Proof.
  revert largest v it. induction l as [|a l IH]; intros largest v it;
    simpl; [done|].
  assert (Rltb (v + c) (a + c) = Rltb v a) as ->.
  { unfold Rltb. destruct (Rlt_dec (v + c) (a + c)), (Rlt_dec v a);
      (done || lra). }
  destruct (Rltb v a); apply IH.
Qed.

Lemma softmax_exps_shift c m x s :
  softmax_exps (m + c) (map (fun xi => xi + c) x) s = softmax_exps m x s.
Proof.
  revert s. induction x as [|xi x IH]; intros s; simpl; [done|].
  real_ops. replace (xi + c - (m + c)) with (xi - m) by lra.
  by rewrite IH.
Qed.

Lemma softmax_shift c x : softmax (map (fun xi => xi + c) x) = softmax x.
Proof.
  unfold softmax. real_ops.
  assert (max_element Rltb (map (fun xi => xi + c) x) = max_element Rltb x)
    as ->.
  { destruct x as [|a x]; [done|]. apply max_element_from_shift. }
  rewrite map_fmap, list_lookup_fmap.
  destruct (x !! max_element Rltb x) as [m|]; simpl; [|done].
  by rewrite <- map_fmap, softmax_exps_shift.
Qed.

(** From the second constructed layer on, the forward pass computes what
    the specification writes: the raw value of a neuron is its bias plus the
    sum over [k] of the previous activation [k] times its weight [k], and a
    layer that is not the last applies [max(0, .)] to it. *)
Lemma weighted_sum_real j (prev : list (Neuron R)) (ws : list R) acc :
  (j + length prev <= length ws)%nat ->
  weighted_sum j prev ws acc
  = Some (acc + Rsum (zip_with Rmult (map value prev) (drop j ws))).
Proof.
  revert j acc. induction prev as [|p prev IH]; intros j acc Hlen; simpl in *.
  - by rewrite Rplus_0_r.
  - destruct (lookup_lt_is_Some_2 ws j) as [w Hw]; [lia|].
    rewrite Hw. simpl. rewrite IH by lia. rewrite (drop_S _ _ _ Hw). simpl.
    real_ops. by rewrite Rplus_assoc.
Qed.

Lemma relu_real (v : R) : relu v = Rmax 0 v.
Proof.
  unfold relu. real_ops. destruct (Rltb 0 v) eqn:Hcmp.
  - apply Rltb_lt in Hcmp. by rewrite Rmax_right by lra.
  - apply Rltb_ge in Hcmp. by rewrite Rmax_left by lra.
Qed.

Lemma fire_real (prev : Layer R) (is_output : bool) (n : Neuron R) :
  (length (neurons prev) <= length (weights n))%nat ->
  fire prev is_output n
  = let raw := bias n + Rsum (zip_with Rmult (getOutputs prev) (weights n)) in
    Some (set_value (if is_output then raw else Rmax 0 raw) n).
Proof.
  intros Hlen. unfold fire. rewrite weighted_sum_real by (simpl; lia).
  simpl. real_ops. rewrite Rplus_0_l, relu_real. unfold getOutputs.
  by rewrite (Rplus_comm (bias n)).
Qed.
End RealFacts.

(** ** Inputs the source does not check *)

Section Unchecked.
Context {D : Type} `{DoubleOps D}.
Implicit Types (net : NeuralNetwork D) (ns : list (Neuron D)).

Lemma set_input_values_app i ns (x extra : list D) :
  i + length ns <= length x ->
  set_input_values i ns (x ++ extra) = set_input_values i ns x.
Proof.
  revert i. induction ns as [|n ns IH]; intros i Hlen; simpl in *; [done|].
  rewrite lookup_app_l by lia. rewrite IH by lia. done.
Qed.

Lemma output_deltas_app i ns (t extra : list D) :
  i + length ns <= length t ->
  output_deltas i ns (t ++ extra) = output_deltas i ns t.
Proof.
  revert i. induction ns as [|n ns IH]; intros i Hlen; simpl in *; [done|].
  rewrite lookup_app_l by lia. rewrite IH by lia. done.
Qed.

Lemma output_deltas_is_Some i ns (t : list D) :
  i + length ns <= length t -> is_Some (output_deltas i ns t).
Proof.
  revert i. induction ns as [|n ns IH]; intros i Hlen; simpl in *;
    [by eexists|].
  destruct (lookup_lt_is_Some_2 t i) as [v ->]; [lia|]. simpl.
  destruct (IH (S i)) as [ds ->]; [lia|]. by eexists.
Qed.

Lemma for_up_idle {St : Type} (body : nat -> St -> option St) lo count s :
  (forall i t, body i t = Some t) -> for_up lo count body s = Some s.
Proof.
  intros Hidle. revert lo. induction count as [|c IH]; intros lo; simpl;
    [done|].
  rewrite Hidle. simpl. apply IH.
Qed.

(** An epoch count that is not positive, or an empty sample list, makes
    [train] return with the network as it was. *)
Lemma train_idle net inputs targets epochs :
  (epochs <= 0)%Z \/ inputs = [] ->
  train net inputs targets epochs = Some net.
Proof.
  unfold train. intros [He| ->].
  - by replace (Z.to_nat epochs) with 0 by lia.
  - by apply for_up_idle.
Qed.

Lemma forward_truncates net (x extra : list D) :
  firstWidth net <= length x ->
  forwardPropagation net (x ++ extra) = forwardPropagation net x.
Proof.
  unfold firstWidth. rewrite !forwardPropagation_unfold.
  destruct (layers net) as [|l0 rest]; [done|]. simpl. intros Hx.
  by rewrite set_input_values_app.
Qed.

Lemma backward_truncates net (t extra : list D) :
  outputWidth net <= length t ->
  backPropagation net (t ++ extra) = backPropagation net t.
Proof.
  unfold outputWidth, backPropagation.
  destruct (last (layers net)) as [back|]; [|done]. simpl. intros Ht.
  by rewrite output_deltas_app.
Qed.

Lemma NeuralNetwork_new_length {G : Type} (dis : G -> D * G) rd sizes lr :
  length (layers (NeuralNetwork_new dis rd sizes lr)) = length sizes - 1.
Proof.
  destruct sizes as [|s0 rest]; [done|].
  rewrite layers_new, build_length. simpl. lia.
Qed.
End Unchecked.

(** ** A network of zeros *)

Section ZeroNetwork.
Open Scope R_scope.
Implicit Types (net : NeuralNetwork R) (rest : list (Layer R))
  (ns : list (Neuron R)).

Lemma weighted_sum_zero j (prev : list (Neuron R)) ws acc v :
  Forall (fun w => w = 0) ws ->
  weighted_sum j prev ws acc = Some v -> v = acc.
Proof.
  intros Hws. revert j acc. induction prev as [|p prev IH]; intros j acc Hrun;
    simpl in Hrun; [by simplify_eq|].
  destruct (ws !! j) as [w|] eqn:Hw; simplify_eq/=.
  rewrite Forall_lookup in Hws. rewrite (Hws _ _ Hw) in Hrun.
  apply IH in Hrun. real_ops. rewrite Hrun. lra.
Qed.

Lemma fire_zero (prev : Layer R) n n' :
  zero_neuron n -> fire prev true n = Some n' -> value n' = 0.
Proof.
  intros [Hb Hws]. unfold fire. intros Hrun.
  destruct (weighted_sum 0 (neurons prev) (weights n) d0) as [v|] eqn:Hv;
    simplify_eq/=.
  apply weighted_sum_zero in Hv; [|done]. real_ops. subst v. rewrite Hb. lra.
Qed.

Lemma mapM_fire_zero (prev : Layer R) ns ns' :
  Forall zero_neuron ns -> mapM (fire prev true) ns = Some ns' ->
  map value ns' = replicate (length ns) 0.
Proof.
  intros Hz Hrun. apply mapM_Some_1 in Hrun.
  induction Hrun as [|n n' ns ns' Hn _ IH]; [done|].
  apply Forall_cons in Hz as [Hzn Hz]. simpl.
  by rewrite (fire_zero prev n n' Hzn Hn), (IH Hz).
Qed.

Lemma Rmaximum_zeros k : Rmaximum (replicate k 0) = 0.
Proof.
  destruct k as [|k]; [done|]. simpl.
  induction k as [|k IH]; [done|]. simpl.
  by rewrite Rmax_left by lra.
Qed.

Lemma Rsum_ones k : Rsum (replicate k 1) = INR k.
Proof.
  induction k as [|k IH]; [done|].
  rewrite S_INR. simpl. rewrite IH. lra.
Qed.

Lemma softmax_zeros k :
  (0 < k)%nat ->
  softmax (replicate k 0) = Some (replicate k (1 / INR k)).
Proof.
  intros Hk. rewrite softmax_real by (destruct k; [lia|done]).
  f_equal. unfold softmax_formula. rewrite Rmaximum_zeros.
  assert (forall m (f : R -> R), map f (replicate m 0) = replicate m (f 0))
    as Hmap.
  { induction m as [|m IH]; intros f; simpl; [done|by rewrite IH]. }
  rewrite !Hmap. rewrite Rminus_diag, exp_0. by rewrite Rsum_ones.
Qed.

Lemma store_outputs_values ns (outputs : list R) ns' :
  length outputs = length ns ->
  store_outputs 0 ns outputs = Some ns' -> map value ns' = outputs.
Proof.
  intros Hlen. rewrite store_outputs_set_input_values. intros Hrun.
  destruct (set_input_values_Some _ _ _ _ Hrun) as [_ ->].
  rewrite <- Hlen. apply firstn_all.
Qed.

Lemma forward_from_length (prev : Layer R) rest rest' :
  forward_from prev rest = Some rest' -> length rest' = length rest.
Proof.
  revert prev rest'. induction rest as [|cur rest IH];
    intros prev rest' Hrun; simpl in Hrun; [by simplify_eq|].
  destruct (mapM _ (neurons cur)) as [ns|]; simplify_eq/=.
  destruct (if bool_decide (rest = []) then _ else _) as [cur'|];
    simplify_eq/=.
  destruct (forward_from cur' rest) as [rest''|] eqn:E; simplify_eq/=.
  by rewrite (IH _ _ E).
Qed.

Lemma forward_from_zero (prev : Layer R) rest rest' back :
  all_zero rest -> last rest = Some back ->
  forward_from prev rest = Some rest' ->
  from_option getOutputs [] (last rest')
  = replicate (length (neurons back)) (1 / INR (length (neurons back))).
Proof.
  revert prev rest'. induction rest as [|cur rest IH];
    intros prev rest' Hz Hback Hrun; [done|].
  apply Forall_cons in Hz as [Hzc Hz]. simpl in Hrun.
  destruct (mapM _ (neurons cur)) as [ns|] eqn:Hns; simplify_eq/=.
  case_bool_decide as Hrest.
  - subst rest. simplify_eq/=.
    pose proof (mapM_fire_zero prev _ _ Hzc Hns) as Hv.
    rewrite Hv in Hrun.
    destruct (decide (length (neurons back) = 0%nat)) as [Hk|Hk].
    { rewrite Hk in Hrun. done. }
    rewrite softmax_zeros in Hrun by lia. simpl in Hrun.
    destruct (store_outputs 0 ns _) as [ns'|] eqn:Hst; simplify_eq/=.
    unfold getOutputs. simpl.
    apply (store_outputs_values ns); [|done].
    rewrite length_replicate.
    by rewrite <- (length_map value ns), Hv, length_replicate.
  - simpl in Hrun.
    destruct (forward_from (mkLayer ns) rest) as [rest''|] eqn:E;
      simplify_eq/=.
    destruct rest as [|l1 rest]; [done|].
    rewrite last_cons_cons in Hback.
    specialize (IH _ _ Hz Hback E).
    pose proof (forward_from_length _ _ _ E) as Hlen.
    destruct rest'' as [|l1' rest'']; [done|].
    by rewrite last_cons_cons.
Qed.

Lemma zero_tail_uniform net (x : list R) net' l0 tl back :
  layers net = l0 :: tl -> all_zero tl -> last tl = Some back ->
  forwardPropagation net x = Some net' ->
  outputs_of net'
  = replicate (length (neurons back)) (1 / INR (length (neurons back))).
Proof.
  rewrite forwardPropagation_unfold. unfold outputs_of.
  intros -> Hz Hback Hrun.
  destruct (set_input_values 0 (neurons l0) x) as [ns0|]; simplify_eq/=.
  destruct (forward_from (mkLayer ns0) tl) as [tl'|] eqn:E; simplify_eq/=.
  pose proof (forward_from_length _ _ _ E) as Hlen.
  destruct tl as [|l1 tl]; [done|]. destruct tl' as [|l1' tl']; [done|].
  rewrite last_cons_cons.
  by apply (forward_from_zero (mkLayer ns0) (l1 :: tl)).
Qed.

(** With at least two constructed layers, a network of zeros answers every
    input it accepts with the uniform distribution. *)
Lemma zero_network_uniform net (x : list R) net' :
  all_zero (layers net) -> (2 <= length (layers net))%nat ->
  forwardPropagation net x = Some net' ->
  outputs_of net'
  = replicate (outputWidth net) (1 / INR (outputWidth net)).
Proof.
  unfold outputWidth.
  destruct (layers net) as [|l0 tl] eqn:Hls; simpl length; [lia|].
  intros Hz Hlen Hrun. apply Forall_cons in Hz as [_ Hz].
  destruct tl as [|l1 tl]; [simpl in Hlen; lia|].
  rewrite last_cons_cons.
  destruct (last (l1 :: tl)) as [back|] eqn:Hback;
    [|by apply last_None in Hback].
  simpl. by apply (zero_tail_uniform net x net' l0 (l1 :: tl)).
Qed.
End ZeroNetwork.

(** ** The backward pass, layer by layer *)

Section BackwardFacts.
Context {D : Type} `{DoubleOps D}.
Implicit Types (cur next : Layer D) (pre suf ls : list (Layer D))
  (ds : list (list D)).

Lemma delta_sum_ext k (next : list (Neuron D)) j (f g : nat -> option D) sum :
  (forall i, f i = g i) -> delta_sum k next j f sum = delta_sum k next j g sum.
Proof.
  intros Hfg. revert k sum. induction next as [|nk next IH]; intros k sum;
    simpl; [done|].
  rewrite Hfg. destruct (weights nk !! j); simpl; [|done].
  destruct (g k); simpl; [apply IH|done].
Qed.

Lemma hidden_row_ext j (cur next : list (Neuron D)) (f g : nat -> option D) :
  (forall i, f i = g i) -> hidden_row j cur next f = hidden_row j cur next g.
Proof.
  intros Hfg. revert j. induction cur as [|n cur IH]; intros j; simpl; [done|].
  by rewrite (delta_sum_ext _ _ _ f g _ Hfg), IH.
Qed.

Lemma update_neurons_ext j (ns : list (Neuron D)) (f g : nat -> option D)
    prev lr :
  (forall i, f i = g i) ->
  update_neurons j ns f prev lr = update_neurons j ns g prev lr.
Proof.
  intros Hfg. revert j. induction ns as [|n ns IH]; intros j; simpl; [done|].
  by rewrite Hfg, IH.
Qed.

Lemma deltas_from_cons cur next suf od :
  deltas_from (cur :: next :: suf) od
  = ds ← deltas_from (next :: suf) od;
    row ← hidden_row 0 (neurons cur) (neurons next)
            (fun k => default od (head ds) !! k);
    Some (row :: ds).
Proof. reflexivity. Qed.

Lemma deltas_from_length ls od ds :
  deltas_from ls od = Some ds -> length ds = length ls - 1.
Proof.
  revert ds. induction ls as [|cur rest IH]; intros ds Hrun;
    [by simplify_eq/=|].
  destruct rest as [|next rest]; [by simplify_eq/=|].
  rewrite deltas_from_cons in Hrun.
  destruct (deltas_from (next :: rest) od) as [ds'|]; [|done].
  cbn [mbind option_bind] in Hrun.
  destruct (hidden_row _ _ _ _); [|done].
  cbn [mbind option_bind] in Hrun. injection Hrun as <-.
  rewrite (length_cons _ ds'), (IH ds' eq_refl). simpl. lia.
Qed.

(** The iteration for the layer [cur] at subscript [length pre] reads the
    deltas of the layer after it and stores its own row. *)
Lemma hidden_step_at pre cur next suf od ds :
  length ds = length suf ->
  hidden_step (pre ++ cur :: next :: suf) od (length pre)
    (replicate (S (length pre)) [] ++ ds)
  = (fun row => replicate (length pre) [] ++ row :: ds)
      <$> hidden_row 0 (neurons cur) (neurons next)
            (fun k => default od (head ds) !! k).
Proof.
  intros Hds. unfold hidden_step.
  rewrite (list_lookup_middle pre (next :: suf) cur (length pre) eq_refl).
  replace (length pre + 1) with (S (length pre)) by lia.
  rewrite lookup_after. cbn [mbind option_bind].
  rewrite (hidden_row_ext _ _ _ _ (fun k => default od (head ds) !! k)).
  - destruct (hidden_row _ _ _ _) as [row|]; cbn [mbind option_bind fmap option_fmap option_map]; [|done].
    f_equal. rewrite replicate_S_end, <- app_assoc.
    rewrite insert_app_r_alt by (rewrite length_replicate; lia).
    by rewrite length_replicate, Nat.sub_diag.
  - intros k. unfold next_delta. rewrite length_app. simpl length.
    case_bool_decide as Hlast.
    + destruct ds as [|d ds]; [done|]. simpl in Hds. lia.
    + rewrite lookup_app_r by (rewrite length_replicate; lia).
      rewrite length_replicate.
      replace (length pre + 1 - S (length pre)) with 0 by lia.
      destruct ds as [|d ds]; [simpl in Hds; lia|done].
Qed.

Lemma hidden_loop od pre suf :
  suf <> [] ->
  (ds ← deltas_from suf od;
   for_down 0 (length pre) (hidden_step (pre ++ suf) od)
     (replicate (length pre) [] ++ ds))
  = deltas_from (pre ++ suf) od.
Proof.
  revert suf. induction pre as [|cur pre IH] using rev_ind; intros suf Hsuf.
  - simpl. by destruct (deltas_from suf od).
  - destruct suf as [|next suf]; [done|].
    replace ((pre ++ [cur]) ++ next :: suf) with (pre ++ cur :: next :: suf)
      by by rewrite <- app_assoc.
    rewrite <- (IH (cur :: next :: suf)) by done.
    rewrite deltas_from_cons.
    destruct (deltas_from (next :: suf) od) as [ds|] eqn:Hds;
      cbn [mbind option_bind]; [|done].
    apply deltas_from_length in Hds. simpl in Hds.
    rewrite length_app. simpl length.
    replace (length pre + 1) with (S (length pre)) by lia.
    cbn [for_down]. rewrite Nat.add_0_l.
    rewrite hidden_step_at by lia.
    by destruct (hidden_row _ _ _ _).
Qed.

Lemma hidden_loop_all ls od :
  ls <> [] ->
  for_down 0 (length ls - 1) (hidden_step ls od)
    (replicate (length ls - 1) [])
  = deltas_from ls od.
Proof.
  intros Hls. destruct (exists_last Hls) as (pre & back & ->).
  rewrite <- (hidden_loop od pre [back]) by done.
  rewrite length_app. simpl.
  replace (length pre + 1 - 1) with (length pre) by lia.
  by rewrite app_nil_r.
Qed.

Lemma update_from_length (prev : Layer D) rest ds lr rest' :
  update_from prev rest ds lr = Some rest' -> length rest' = length rest.
Proof.
  revert prev ds rest'. induction rest as [|cur rest IH];
    intros prev ds rest' Hrun; [by simplify_eq/=|].
  destruct ds as [|d ds]; [done|]. simpl in Hrun.
  destruct (update_neurons _ _ _ _ _); simplify_eq/=.
  destruct (update_from cur rest ds lr) eqn:E; simplify_eq/=.
  by rewrite (IH _ _ _ E).
Qed.

(** The delta row the update loop uses for the layer at subscript [S c],
    out of the rows of the layers [1 ..]. *)
Lemma own_delta_rows od (hd : list (list D)) c j :
  S c <= length hd ->
  own_delta (S (length hd)) od hd (S c) j
  = row ← (drop 1 hd ++ [od]) !! c; row !! j.
Proof.
  intros Hc. unfold own_delta. simpl. rewrite Nat.sub_0_r.
  case_bool_decide as Hlast.
  - rewrite lookup_app_r by (rewrite length_drop; lia).
    rewrite length_drop.
    by replace (c - (length hd - 1)) with 0 by lia.
  - rewrite lookup_app_l by (rewrite length_drop; lia).
    by rewrite lookup_drop.
Qed.

(** The iteration for the layer [cur] at subscript [S c] reads the
    activations of the layer before it and rewrites [cur]. *)
Lemma update_step_at lr od hd (P : list (Layer D)) prevl cur B c :
  length P = S c -> P !! c = Some prevl ->
  update_step lr od hd (S c) (P ++ cur :: B)
  = (fun ns => P ++ mkLayer ns :: B)
      <$> update_neurons 0 (neurons cur)
            (own_delta (length (P ++ cur :: B)) od hd (S c))
            (neurons prevl) lr.
Proof.
  intros HP Hprev. unfold update_step.
  rewrite (list_lookup_middle P B cur (S c)) by done.
  replace (S c - 1) with c by lia.
  rewrite (lookup_app_l_Some _ _ _ _ Hprev). simpl.
  destruct (update_neurons _ _ _ _ _) as [ns|]; simpl; [|done].
  f_equal. rewrite insert_app_r_alt by lia. by rewrite HP, Nat.sub_diag.
Qed.

Lemma lookup_last_cons (l0 : Layer D) (A : list (Layer D)) :
  (l0 :: A) !! length A = Some (default l0 (last A)).
Proof.
  induction A as [|a A IH] using rev_ind; [done|].
  rewrite length_app, last_snoc. simpl.
  replace (l0 :: A ++ [a]) with ((l0 :: A) ++ [a]) by done.
  rewrite lookup_app_r by (simpl; lia).
  by replace (length A + 1 - length (l0 :: A)) with 0 by (simpl; lia).
Qed.

Lemma update_from_cons (prev cur : Layer D) rest d ds lr :
  update_from prev (cur :: rest) (d :: ds) lr
  = ns ← update_neurons 0 (neurons cur) (fun j => d !! j) (neurons prev) lr;
    rest'' ← update_from cur rest ds lr;
    Some (mkLayer ns :: rest'').
Proof. reflexivity. Qed.

Lemma for_down_S {St : Type} (body : nat -> St -> option St) lo c s :
  for_down lo (S c) body s = s' ← body (lo + c) s; for_down lo c body s'.
Proof. reflexivity. Qed.

Lemma update_loop lr od hd l0 A B :
  length hd = length A + length B ->
  (B' ← update_from (default l0 (last A)) B
          (drop (length A) (drop 1 hd ++ [od])) lr;
   for_down 1 (length A) (update_step lr od hd) (l0 :: A ++ B'))
  = (fun rest' => l0 :: rest')
      <$> update_from l0 (A ++ B) (drop 1 hd ++ [od]) lr.
Proof.
  revert B. induction A as [|cur A IH] using rev_ind; intros B Hhd.
  - simpl. by destruct (update_from l0 B _ lr).
  - rewrite length_app in Hhd. simpl in Hhd.
    replace ((A ++ [cur]) ++ B) with (A ++ cur :: B)
      by (by rewrite <- app_assoc).
    rewrite <- (IH (cur :: B)) by (simpl; lia).
    rewrite last_snoc, length_app. simpl length.
    replace (length A + 1) with (S (length A)) by lia.
    change (default l0 (Some cur)) with cur.
    set (rows := drop 1 hd ++ [od]).
    assert (length A < length rows) as Hrows.
    { unfold rows. rewrite length_app, length_drop. simpl. lia. }
    destruct (lookup_lt_is_Some_2 rows (length A) Hrows) as [r Hr].
    rewrite (drop_S _ _ _ Hr), update_from_cons.
    destruct (update_from cur B (drop (S (length A)) rows) lr) as [B'|]
      eqn:HB.
    + pose proof (update_from_length _ _ _ _ _ HB) as HlenB.
      change (Some B' ≫= ?f) with (f B'). cbv beta.
      rewrite for_down_S. change (1 + length A) with (S (length A)).
      replace (l0 :: (A ++ [cur]) ++ B') with ((l0 :: A) ++ cur :: B')
        by (by rewrite <- app_assoc).
      rewrite (update_step_at lr od hd (l0 :: A) (default l0 (last A)) cur B'
                 (length A) eq_refl (lookup_last_cons l0 A)).
      rewrite (update_neurons_ext _ _ _ (fun j => r !! j)).
      * by destruct (update_neurons _ _ _ _ _).
      * intros j. rewrite length_app. simpl length.
        replace (S (length A) + S (length B')) with (S (length hd)) by lia.
        rewrite own_delta_rows by lia. fold rows. by rewrite Hr.
    + by destruct (update_neurons _ _ _ _ _).
Qed.

(** [backPropagation] computes the output deltas, then the deltas of the
    layers before the last from the weights as they are, then updates every
    layer but [layers[0]], which it returns as it was. *)
Lemma backPropagation_unfold (net : NeuralNetwork D) (t : list D) :
  backPropagation net t
  = match layers net with
    | [] => None
    | l0 :: rest =>
        back ← last (l0 :: rest);
        outputDeltas ← output_deltas 0 (neurons back) t;
        hiddenDeltas ← deltas_from (l0 :: rest) outputDeltas;
        rest' ← update_from l0 rest (drop 1 hiddenDeltas ++ [outputDeltas])
                  (learningRate net);
        Some (mkNetwork (l0 :: rest') (learningRate net))
    end.
Proof.
  unfold backPropagation. destruct (layers net) as [|l0 rest]; [done|].
  destruct (last (l0 :: rest)) as [back|]; [|done]. cbn [mbind option_bind].
  destruct (output_deltas 0 (neurons back) t) as [od|]; [|done].
  cbn [mbind option_bind]. rewrite hidden_loop_all by done.
  destruct (deltas_from (l0 :: rest) od) as [hd|] eqn:Hhd; [|done].
  cbn [mbind option_bind]. apply deltas_from_length in Hhd. simpl in Hhd.
  pose proof (update_loop (learningRate net) od hd l0 rest []) as Hloop.
  rewrite app_nil_r in Hloop. simpl in Hloop, Hhd.
  rewrite app_nil_r in Hloop.
  replace (length (l0 :: rest) - 1) with (length rest) by (simpl; lia).
  rewrite Hloop by lia.
  by destruct (update_from l0 rest _ _).
Qed.
End BackwardFacts.

Section LoopFacts.
Context {St : Type}.
Implicit Types (body : nat -> St -> option St) (s : St).

(** A loop that reaches an iteration undefined in every state is
    undefined. *)
Lemma for_up_None_at body lo count s i :
  lo <= i < lo + count -> (forall t, body i t = None) ->
  for_up lo count body s = None.
Proof.
  revert lo s. induction count as [|c IH]; intros lo s Hi Hnone; [lia|].
  simpl. destruct (body lo s) as [s1|] eqn:E; [|done]. simpl.
  destruct (decide (i = lo)) as [->|Hne]; [by rewrite Hnone in E|].
  apply IH; [lia|done].
Qed.

Lemma for_up_add body lo a b s :
  for_up lo (a + b) body s = s' ← for_up lo a body s; for_up (lo + a) b body s'.
Proof.
  revert lo s. induction a as [|a IH]; intros lo s; simpl.
  - by rewrite Nat.add_0_r.
  - destruct (body lo s) as [s1|]; simpl; [|done].
    rewrite IH. by replace (S lo + a) with (lo + S a) by lia.
Qed.

Lemma for_up_shift (f : St -> option St) lo lo' count s :
  for_up lo count (fun _ => f) s = for_up lo' count (fun _ => f) s.
Proof.
  revert lo lo' s. induction count as [|c IH]; intros lo lo' s; simpl;
    [done|].
  destruct (f s); simpl; [apply IH|done].
Qed.
End LoopFacts.

(** ** Inputs shorter than [layers[0]] *)

Section ShortInput.
Context {D : Type} `{DoubleOps D}.

(** An input with fewer entries than [layers[0]] has neurons is read past
    its end. *)
Lemma forward_short_input (net : NeuralNetwork D) (x : list D) :
  length x < firstWidth net -> forwardPropagation net x = None.
Proof.
  intros Hx. rewrite forwardPropagation_unfold. unfold firstWidth in Hx.
  destruct (layers net) as [|l0 rest]; [done|]. simpl in Hx.
  destruct (set_input_values 0 (neurons l0) x) as [ns0|] eqn:E; [|done].
  assert (is_Some (set_input_values 0 (neurons l0) x)) as Hsome by eauto.
  apply set_input_values_is_Some in Hsome as [Hle|Hnil]; [lia|].
  rewrite Hnil in Hx. simpl in Hx. lia.
Qed.

Lemma firstWidth_new {G : Type} (dis : G -> D * G) (rd : nat -> G)
    s0 s1 rest lr :
  firstWidth (NeuralNetwork_new dis rd (s0 :: s1 :: rest) lr) = s1.
Proof.
  unfold firstWidth. rewrite layers_new. simpl. apply init_neurons_length.
Qed.

Lemma train_first_sample_short (net : NeuralNetwork D) x inputs targets
    epochs :
  length x < firstWidth net -> (0 < epochs)%Z ->
  train net (x :: inputs) targets epochs = None.
Proof.
  intros Hx He. unfold train.
  destruct (Z.to_nat epochs) as [|e] eqn:E; [lia|].
  assert (train_sample (x :: inputs) targets 0 net = None) as Hfirst.
  { unfold train_sample. change ((x :: inputs) !! 0) with (Some x).
    cbn [mbind option_bind]. by rewrite forward_short_input. }
  cbn [for_up length]. by rewrite Hfirst.
Qed.
End ShortInput.

(** ** The constructor on [int] sizes *)

Section IntSizes.
Context {D : Type} `{DoubleOps D} {G : Type} (dis : G -> D * G).
Implicit Types (rd : nat -> G) (sizes : list Z).

Lemma for_up_ext {St : Type} (body body' : nat -> St -> option St)
    lo count s :
  (forall i t, lo <= i < lo + count -> body i t = body' i t) ->
  for_up lo count body s = for_up lo count body' s.
Proof.
  revert lo s. induction count as [|c IH]; intros lo s Hext; [done|].
  cbn [for_up]. rewrite Hext by lia.
  destruct (body' lo s) as [s'|]; [|done]. cbn [mbind option_bind].
  apply IH. intros i t Hi. apply Hext. lia.
Qed.

Lemma Layer_int_nat (a b : Z) gen :
  (0 <= a)%Z -> (0 <= b)%Z ->
  Layer_int dis a b gen = Some (Layer_new dis (Z.to_nat a) (Z.to_nat b) gen).
Proof.
  intros Ha Hb. unfold Layer_int.
  destruct (Z.ltb_spec a 0); [lia|]. destruct (Z.ltb_spec b 0); [lia|].
  by rewrite andb_false_r.
Qed.

Lemma Layer_int_negative (a b : Z) gen :
  (a < 0)%Z \/ (0 < a)%Z /\ (b < 0)%Z -> Layer_int dis a b gen = None.
Proof.
  intros Hneg. unfold Layer_int.
  destruct (Z.ltb_spec a 0); [done|].
  destruct (Z.ltb_spec 0 a), (Z.ltb_spec b 0); try done; lia.
Qed.

Lemma nth_to_nat sizes i :
  Z.to_nat (nth i sizes 0%Z) = nth i (map Z.to_nat sizes) 0.
Proof. by rewrite <- (map_nth Z.to_nat). Qed.

(** On sizes that are not negative the constructor returns, and what it
    returns is [NeuralNetwork_new] on the same sizes. *)
Lemma NeuralNetwork_int_nat rd sizes lr :
  Forall (fun s => (0 <= s)%Z) sizes ->
  NeuralNetwork_int dis rd sizes lr
  = Some (NeuralNetwork_new dis rd (map Z.to_nat sizes) lr).
Proof.
  intros Hpos. unfold NeuralNetwork_int, NeuralNetwork_new.
  rewrite length_map.
  assert (forall i, (0 <= nth i sizes 0)%Z) as Hnth.
  { intros i. destruct (nth_in_or_default i sizes 0%Z) as [Hin| ->]; [|lia].
    exact (proj1 (List.Forall_forall _ _) Hpos _ Hin). }
  rewrite (for_up_ext _ (construct_step dis rd (map Z.to_nat sizes))).
  - rewrite construct_loop. done.
  - intros i t _. unfold construct_step_int, construct_step.
    rewrite Layer_int_nat by done. by rewrite !nth_to_nat.
Qed.

(** A negative size where a layer is built, or before a layer that has a
    neuron: the constructor ends in [std::length_error]. *)
Lemma NeuralNetwork_int_negative rd sizes lr i :
  1 <= i < length sizes ->
  (nth i sizes 0 < 0)%Z
  \/ (0 < nth i sizes 0)%Z /\ (nth (i - 1) sizes 0 < 0)%Z ->
  NeuralNetwork_int dis rd sizes lr = None.
Proof.
  intros Hi Hneg. unfold NeuralNetwork_int.
  rewrite (for_up_None_at _ _ _ _ i); [done|lia|].
  intros t. unfold construct_step_int. by rewrite Layer_int_negative.
Qed.
End IntSizes.

(** ** The statements of the specification *)

Section Supplements.
Context {D : Type} `{DoubleOps D}.
Implicit Types (net : NeuralNetwork D) (ps : list (list D * D)).

Lemma set_params_params (ns : list (Neuron D)) ps :
  length ps = length ns -> map neuron_params (set_params ns ps) = ps.
Proof.
  revert ps. induction ns as [|n ns IH]; intros [|[ws b] ps] Hlen;
    simplify_eq/=; [done|].
  by rewrite IH.
Qed.

Lemma first_params_with_first_params net ps :
  firstWidth net = length ps -> 0 < length ps ->
  first_params (with_first_params ps net) = Some ps.
Proof.
  unfold firstWidth, first_params, with_first_params. simpl.
  destruct (layers net) as [|l0 rest]; simpl; [lia|]. intros Hlen _.
  unfold layer_params. simpl. by rewrite set_params_params.
Qed.

(** Backward propagation on a chain of three one-neuron layers, with the
    activations [v0], [v1], [v2] a forward pass left behind.  The output
    delta is [v2 - t]; the delta of the middle layer uses the weight [w2] as
    it was before the update; the second and third layer are updated with
    their delta and the activation before them; the first layer is returned
    as it was. *)
Lemma backPropagation_chain (v0 w0 b0 v1 w1 b1 v2 w2 b2 lr t : D) :
  let delta2 := dsub v2 t in
  let delta1 := dmul (dadd d0 (dmul w2 delta2)) (reluDerivative v1) in
  backPropagation
    (mkNetwork [mkLayer [mkNeuron v0 [w0] b0];
                mkLayer [mkNeuron v1 [w1] b1];
                mkLayer [mkNeuron v2 [w2] b2]] lr) [t]
  = Some (mkNetwork
            [mkLayer [mkNeuron v0 [w0] b0];
             mkLayer [mkNeuron v1 [dsub w1 (dmul (dmul lr delta1) v0)]
                        (dsub b1 (dmul lr delta1))];
             mkLayer [mkNeuron v2 [dsub w2 (dmul (dmul lr delta2) v1)]
                        (dsub b2 (dmul lr delta2))]] lr).
Proof. reflexivity. Qed.
End Supplements.

(** C1 (what the code does instead).  On a network constructed from two
    layer sizes [s0; s1] - one real layer - the forward pass on an input with
    at least [s1] entries is defined and leaves, as the activations of the
    output layer, the first [s1] entries of the input: the weights and the
    bias of the first real layer, drawn by the constructor, take no part, and
    neither ReLU nor softmax is applied. *)
Theorem forward_single_layer_copies_input {D : Type} `{DoubleOps D} {G : Type}
    (dis : G -> D * G) (rd : nat -> G) (s0 s1 : nat) (lr : D) (x : list D) :
  s1 <= length x ->
  exists net',
    forwardPropagation (NeuralNetwork_new dis rd [s0; s1] lr) x = Some net'
    /\ outputs_of net' = take s1 x
    /\ parameters net' = parameters (NeuralNetwork_new dis rd [s0; s1] lr).
Proof.
  intros Hx. rewrite forwardPropagation_unfold.
  unfold parameters, outputs_of. rewrite layers_new. simpl.
  destruct (set_input_values_is_Some 0 (init_neurons dis s1 s0 (rd 1)) x)
    as [_ [ns0 Hns0]].
  { left. rewrite init_neurons_length. simpl. lia. }
  rewrite Hns0. simpl. eexists. split; [done|].
  destruct (set_input_values_Some _ _ _ _ Hns0) as [Hp Hv].
  rewrite init_neurons_length in Hv. simpl. unfold getOutputs, layer_params.
  simpl. by rewrite Hv, Hp.
Qed.

Lemma forward_single_layer_copies_input_witness :
  (2 <= length [3%R; 5%R])
  /\ exists net',
       forwardPropagation
         (NeuralNetwork_new (fun g : nat => (INR g, S g)) (fun i => i)
            [2; 2] 1%R) [3%R; 5%R] = Some net'
       /\ outputs_of net' = take 2 [3%R; 5%R]
       /\ parameters net'
          = parameters (NeuralNetwork_new (fun g : nat => (INR g, S g))
                          (fun i => i) [2; 2] 1%R).
Proof.
  split; [simpl; lia|].
  apply (forward_single_layer_copies_input (D:=R)). simpl. lia.
Defined.

(** C2 (the read past the input).  When the second configured size exceeds
    the first, the forward pass on an input of the declared width [s0] is
    undefined: the loop over the neurons of [layers[0]] - there are [s1] of
    them - subscripts the input at [s0]. *)
Theorem forward_reads_past_input {D : Type} `{DoubleOps D} {G : Type}
    (dis : G -> D * G) (rd : nat -> G) (s0 s1 : nat) (rest : list nat)
    (lr : D) (x : list D) :
  length x = s0 -> s0 < s1 ->
  firstWidth (NeuralNetwork_new dis rd (s0 :: s1 :: rest) lr) = s1
  /\ x !! s0 = None
  /\ forwardPropagation (NeuralNetwork_new dis rd (s0 :: s1 :: rest) lr) x
     = None.
Proof.
  intros Hx Hlt. unfold firstWidth.
  rewrite forwardPropagation_unfold, layers_new. simpl.
  split; [apply init_neurons_length|].
  split; [apply lookup_ge_None; lia|].
  destruct (set_input_values 0 (init_neurons dis s1 s0 (rd 1)) x) as [ns0|]
    eqn:E; [|done].
  assert (is_Some (set_input_values 0 (init_neurons dis s1 s0 (rd 1)) x))
    as Hs by (by rewrite E).
  apply set_input_values_is_Some in Hs as [Hs|Hs].
  - rewrite init_neurons_length in Hs. simpl in Hs. lia.
  - apply (f_equal length) in Hs. rewrite init_neurons_length in Hs.
    simpl in Hs. lia.
Qed.

Lemma forward_reads_past_input_witness :
  length [5.1%R; 3.5%R; 1.4%R; 0.2%R] = 4 /\ 4 < 8
  /\ firstWidth (NeuralNetwork_new (fun g : nat => (INR g, S g)) (fun i => i)
                   [4; 8; 128; 64; 8; 3] 0.01%R) = 8
  /\ [5.1%R; 3.5%R; 1.4%R; 0.2%R] !! 4 = None
  /\ forwardPropagation
       (NeuralNetwork_new (fun g : nat => (INR g, S g)) (fun i => i)
          [4; 8; 128; 64; 8; 3] 0.01%R)
       [5.1%R; 3.5%R; 1.4%R; 0.2%R] = None.
Proof.
  split; [reflexivity|]. split; [lia|].
  apply (forward_reads_past_input (D:=R)); [reflexivity|lia].
Defined.

(** C3 (the update that is missing).  On a network with one real layer,
    backward propagation with a target that covers the output layer is
    defined and returns the network as it was: no weight and no bias of the
    first real layer is updated, whatever the output deltas are. *)
Theorem backPropagation_single_layer {D : Type} `{DoubleOps D}
    (l : Layer D) (lr : D) (t : list D) :
  length (neurons l) <= length t ->
  backPropagation (mkNetwork [l] lr) t = Some (mkNetwork [l] lr).
Proof.
  intros Ht. unfold backPropagation. simpl.
  destruct (output_deltas_is_Some 0 (neurons l) t) as [ds ->]; [simpl; lia|].
  done.
Qed.

Lemma backPropagation_single_layer_witness :
  length (neurons (mkLayer [mkNeuron 3%R [2%R] 1%R])) <= length [1%R]
  /\ backPropagation (mkNetwork [mkLayer [mkNeuron 3%R [2%R] 1%R]] 0.1%R) [1%R]
     = Some (mkNetwork [mkLayer [mkNeuron 3%R [2%R] 1%R]] 0.1%R).
Proof.
  split; [simpl; lia|].
  apply (backPropagation_single_layer (D:=R)). simpl. lia.
Defined.




(** What C4 says beyond that holds in exact arithmetic ([softmax_real],
    [softmax_formula_sum], [softmax_shift]) and not in binary64.  With an
    [exp] that is correctly rounded at 0, -1 and -2: the entries of
    [softmax {1, 3, 2}] add up to the double below 1, and adding 2^60 to
    the entries of [{0, 1}] changes the result. *)
Lemma softmax_binary64_rounds (libm_exp : float -> float) :
  libm_exp 0%float = 1%float ->
  libm_exp (-1)%float = 0x1.78b56362cef38p-2%float ->
  libm_exp (-2)%float = 0x1.152aaa3bf81ccp-3%float ->
  (foldl PrimFloat.add 0%float
     <$> softmax (H:=float_DoubleOps libm_exp) [1; 3; 2]%float)
  = Some 0x1.fffffffffffffp-1%float
  /\ softmax (H:=float_DoubleOps libm_exp) [0; 1]%float
     = Some [0x1.136561454ba86p-2; 0x1.764d4f5d5a2bdp-1]%float
  /\ softmax (H:=float_DoubleOps libm_exp)
       (map (fun xi => PrimFloat.add xi 0x1p60%float) [0; 1]%float)
     = Some [0.5; 0.5]%float.
Proof.
  intros H0 H1 H2. repeat split.
  - vm_compute. rewrite H0, H1, H2. vm_compute. reflexivity.
  - vm_compute. rewrite H0, H1. vm_compute. reflexivity.
  - vm_compute. rewrite H0. vm_compute. reflexivity.
Qed.

Lemma softmax_binary64_rounds_example :
  (foldl PrimFloat.add 0%float
     <$> softmax (H:=float_DoubleOps exp_example) [1; 3; 2]%float)
  = Some 0x1.fffffffffffffp-1%float
  /\ softmax (H:=float_DoubleOps exp_example) [0; 1]%float
     <> softmax (H:=float_DoubleOps exp_example)
          (map (fun xi => PrimFloat.add xi 0x1p60%float) [0; 1]%float).
Proof.
  destruct (softmax_binary64_rounds exp_example eq_refl eq_refl eq_refl)
    as (Hsum & Hplain & Hshifted).
  split; [exact Hsum|]. rewrite Hplain, Hshifted. intros Heq.
  apply (f_equal (fun r => match r with
                           | Some (v :: _) => PrimFloat.eqb v 0.5%float
                           | _ => false
                           end)) in Heq.
  vm_compute in Heq. discriminate.
Qed.

(** C5 (the value returned for no samples).  In IEEE 754 binary64
    arithmetic, whatever [exp] is, [evaluateAccuracy] on empty sample lists
    returns [0.0 / 0.0], which is NaN: not 0.0, and no signalled
    condition. *)
Theorem evaluateAccuracy_no_samples_nan (libm_exp : float -> float)
    (net : NeuralNetwork float) :
  exists accuracy : float,
    @evaluateAccuracy float (float_DoubleOps libm_exp) net [] []
    = Some (net, accuracy)
    /\ PrimFloat.is_nan accuracy = true
    /\ PrimFloat.eqb accuracy 0%float = false.
Proof. exists PrimFloat.nan. repeat split. Qed.

(** C6 (counterexample).  A layer-size sequence with a single entry, a
    negative learning rate, a negative epoch count and an empty data set:
    the constructor returns a network (with no layer) and [train] returns it
    unchanged; nothing is reported. *)
Lemma invalid_configuration_accepted :
  length [3] < 2 /\ (-1 <= 0)%R /\ (-5 <= 0)%Z
  /\ train (NeuralNetwork_new (fun g : nat => (INR g, S g)) (fun i => i)
              [3] (-1)%R) [] [] (-5)
     = Some (mkNetwork [] (-1)%R).
Proof. split; [simpl; lia|]. split; [lra|]. split; [lia|reflexivity]. Qed.

(** C6 (amended).  No precondition of the error taxonomy is checked.  The
    constructor accepts every sequence of layer sizes that are not negative
    and every learning rate, and builds one layer per size after the first
    (none for fewer than two sizes).  It does not check for a negative size
    either: one that reaches [vector::resize] - the size of a layer, or the
    size before a layer that has a neuron - ends the constructor in the
    library's [std::length_error].  [train] with an epoch count that is not
    positive, or with no sample, returns with the network unchanged; an
    input vector longer than [layers[0]] and a target vector longer than
    the output layer are read up to that width and the rest is ignored. *)
Theorem preconditions_unchecked {D : Type} `{DoubleOps D} {G : Type}
    (dis : G -> D * G) (rd : nat -> G) (sizes : list Z) (lr : D)
    (net : NeuralNetwork D) (inputs targets : list (list D)) (epochs : Z)
    (x t extra : list D) :
  (Forall (fun s => (0 <= s)%Z) sizes ->
   exists net0,
     NeuralNetwork_int dis rd sizes lr = Some net0
     /\ net0 = NeuralNetwork_new dis rd (map Z.to_nat sizes) lr
     /\ length (layers net0) = length sizes - 1
     /\ learningRate net0 = lr)
  /\ (forall i, 1 <= i < length sizes ->
        (nth i sizes 0 < 0)%Z
        \/ (0 < nth i sizes 0)%Z /\ (nth (i - 1) sizes 0 < 0)%Z ->
        NeuralNetwork_int dis rd sizes lr = None)
  /\ ((epochs <= 0)%Z \/ inputs = [] ->
      train net inputs targets epochs = Some net)
  /\ (firstWidth net <= length x ->
      forwardPropagation net (x ++ extra) = forwardPropagation net x)
  /\ (outputWidth net <= length t ->
      backPropagation net (t ++ extra) = backPropagation net t).
Proof.
  split.
  { intros Hpos. eexists. split; [by apply NeuralNetwork_int_nat|].
    split; [done|].
    split; [by rewrite NeuralNetwork_new_length, length_map|done]. }
  split; [intros i; apply NeuralNetwork_int_negative|].
  split; [apply train_idle|].
  split; [apply forward_truncates|apply backward_truncates].
Qed.

Lemma preconditions_unchecked_witness :
  let dis := fun g : nat => (INR g, S g) in
  let net := mkNetwork [mkLayer [mkNeuron 0%R [] 0%R; mkNeuron 0%R [] 0%R]]
               0%R in
  (exists net0,
     NeuralNetwork_int dis (fun i => i) [3; 0; 2]%Z (-1)%R = Some net0
     /\ net0 = NeuralNetwork_new dis (fun i => i)
                 (map Z.to_nat [3; 0; 2]%Z) (-1)%R
     /\ length (layers net0) = length [3; 0; 2]%Z - 1
     /\ learningRate net0 = (-1)%R)
  /\ NeuralNetwork_int dis (fun i => i) [3; -2]%Z 0.1%R = None
  /\ NeuralNetwork_int dis (fun i => i) [-3; 2]%Z 0.1%R = None
  /\ train net [] [] (-1) = Some net
  /\ forwardPropagation net ([1%R; 2%R] ++ [9%R])
     = forwardPropagation net [1%R; 2%R]
  /\ backPropagation net ([1%R; 0%R] ++ [9%R])
     = backPropagation net [1%R; 0%R].
Proof.
  intros dis net.
  destruct (preconditions_unchecked (D:=R) dis (fun i => i) [3; 0; 2]%Z
              (-1)%R net [] [] (-1) [1%R; 2%R] [1%R; 0%R] [9%R])
    as (Hnew & _ & Htrain & Hforward & Hbackward).
  destruct (preconditions_unchecked (D:=R) dis (fun i => i) [3; -2]%Z
              0.1%R net [] [] (-1) [1%R; 2%R] [1%R; 0%R] [9%R])
    as (_ & Hlayer & _).
  destruct (preconditions_unchecked (D:=R) dis (fun i => i) [-3; 2]%Z
              0.1%R net [] [] (-1) [1%R; 2%R] [1%R; 0%R] [9%R])
    as (_ & Hbefore & _).
  split; [apply Hnew; repeat constructor; lia|].
  split; [apply (Hlayer 1); [simpl; lia|left; simpl; lia]|].
  split; [apply (Hbefore 1); [simpl; lia|right; simpl; lia]|].
  split; [apply Htrain; left; lia|].
  split; [apply Hforward; vm_compute; lia|apply Hbackward; vm_compute; lia].
Defined.

(** C7 (the inputs [predict] cannot take).  On a network constructed from
    sizes whose second exceeds the first - [main]'s own - [predict] on a
    feature vector of the declared width has no defined result: its forward
    pass reads the vector past its end, so no index is returned. *)
Theorem predict_reads_past_input {D : Type} `{DoubleOps D} {G : Type}
    (dis : G -> D * G) (rd : nat -> G) (s0 s1 : nat) (rest : list nat)
    (lr : D) (x : list D) :
  length x = s0 -> s0 < s1 ->
  predict (NeuralNetwork_new dis rd (s0 :: s1 :: rest) lr) x = None.
Proof.
  intros Hx Hlt. unfold predict.
  rewrite forward_short_input; [done|]. rewrite firstWidth_new. lia.
Qed.

Lemma predict_reads_past_input_witness :
  length [5.1%R; 3.5%R; 1.4%R; 0.2%R] = 4 /\ 4 < 8
  /\ predict
       (NeuralNetwork_new (fun g : nat => (INR g, S g)) (fun i => i)
          [4; 8; 128; 64; 8; 3] 0.01%R)
       [5.1%R; 3.5%R; 1.4%R; 0.2%R] = None.
Proof.
  split; [reflexivity|]. split; [lia|].
  apply (predict_reads_past_input (D:=R)); [reflexivity|lia].
Defined.

(** Where the input has an entry for every neuron of [layers[0]], the
    weight vectors fit the layer sizes and the output layer is not empty,
    [predict] runs one forward pass and returns the position
    [std::max_element] finds among the output activations, below the output
    width - in any arithmetic. *)
Lemma predict_max_element {D : Type} `{DoubleOps D} (net : NeuralNetwork D)
    (x : list D) (w : nat) :
  shaped w (layers net) = true ->
  firstWidth net <= length x ->
  0 < outputWidth net ->
  exists net',
    forwardPropagation net x = Some net'
    /\ predict net x = Some (net', max_element dlt (outputs_of net'))
    /\ max_element dlt (outputs_of net') < outputWidth net.
Proof.
  intros Hshape Hx Hout.
  destruct (forward_defined net x w Hshape Hx Hout) as (net' & Hrun & Hp).
  pose proof (parameters_outputWidth _ _ Hp) as Hw.
  exists net'. unfold predict, argmax_output, outputs_of. rewrite Hrun.
  cbn [mbind option_bind].
  unfold outputWidth in Hw, Hout |- *. rewrite <- Hw in Hout |- *.
  destruct (last (layers net')) as [back|] eqn:Hback; [|simpl in Hout; lia].
  cbn [from_option mbind option_bind] in *. split; [done|].
  rewrite max_element_values. unfold getOutputs. split; [done|].
  rewrite <- (length_map value). apply max_element_lt.
  destruct (neurons back); [simpl in Hout; lia|done].
Qed.

(** In exact arithmetic that position is the first position of a largest
    activation. *)
Lemma predict_first_maximum (net : NeuralNetwork R) (x : list R) (w : nat) :
  shaped w (layers net) = true ->
  firstWidth net <= length x ->
  0 < outputWidth net ->
  exists net' c,
    forwardPropagation net x = Some net'
    /\ predict net x = Some (net', c)
    /\ first_maximum (outputs_of net') c
    /\ c < outputWidth net.
Proof.
  intros Hshape Hx Hout.
  destruct (forward_defined net x w Hshape Hx Hout) as (net' & Hrun & Hp).
  pose proof (parameters_outputWidth _ _ Hp) as Hw.
  exists net'. unfold predict, argmax_output, outputs_of. rewrite Hrun.
  cbn [mbind option_bind].
  unfold outputWidth in Hw |- *. rewrite <- Hw.
  destruct (last (layers net')) as [back|] eqn:Hback;
    [|unfold outputWidth in Hout; simpl in Hw; lia].
  cbn [from_option mbind option_bind]. eexists. split; [done|].
  split; [done|].
  rewrite max_element_values. unfold getOutputs.
  assert (map value (neurons back) <> []) as Hne.
  { unfold outputWidth in Hout. simpl in Hw.
    destruct (neurons back); [simpl in Hw; lia|done]. }
  split; [by apply max_element_first_maximum|].
  rewrite <- (length_map value). by apply max_element_lt.
Qed.

Lemma predict_first_maximum_witness :
  let net := mkNetwork
               [mkLayer [mkNeuron 0%R [] 0%R; mkNeuron 0%R [] 0%R];
                mkLayer [mkNeuron 0%R [1%R; 0%R] 0%R;
                         mkNeuron 0%R [0%R; 1%R] 0%R]] 1%R in
  shaped 0 (layers net) = true
  /\ firstWidth net <= length [1%R; 2%R]
  /\ 0 < outputWidth net
  /\ exists net' c,
       forwardPropagation net [1%R; 2%R] = Some net'
       /\ predict net [1%R; 2%R] = Some (net', c)
       /\ first_maximum (outputs_of net') c
       /\ c < outputWidth net.
Proof.
  intros net. split; [reflexivity|]. split; [vm_compute; lia|].
  split; [vm_compute; lia|].
  apply (predict_first_maximum net [1%R; 2%R] 0);
    [reflexivity|vm_compute; lia|vm_compute; lia].
Defined.

(** C8 (the network of zeros that is not uniform).  The network the
    constructor builds from the sizes [2; 2] when every draw is 0 has all
    weights and biases zero; on the input (3, 5) its output activations are
    (3, 5), not (1/2, 1/2). *)
Theorem zero_single_layer_echoes_input (lr : R) :
  exists net',
    all_zero (layers (NeuralNetwork_new (fun g : unit => (0%R, g))
                        (fun _ => tt) [2; 2] lr))
    /\ forwardPropagation
         (NeuralNetwork_new (fun g : unit => (0%R, g)) (fun _ => tt)
            [2; 2] lr) [3%R; 5%R] = Some net'
    /\ outputs_of net' = [3%R; 5%R]
    /\ outputs_of net' <> [(1 / 2)%R; (1 / 2)%R].
Proof.
  eexists. split; [by repeat constructor|]. split; [reflexivity|].
  split; [reflexivity|]. simpl. intros [= Habs _]. lra.
Qed.

(** C10.  The weights and biases of the first constructed layer are never
    read and never written.  Never read: replacing them by any [ps] before
    [forwardPropagation], [backPropagation], [train], [predict] or
    [evaluateAccuracy] changes nothing in what the operation does - it
    is defined or not as before, returns the same class or accuracy, and
    leaves the same network up to that replacement.  Never written: after
    each of the five operations the first layer holds the weights and biases
    it held before.  (The replacement is effective: with one entry of [ps]
    per neuron, the first layer holds exactly [ps].)  What the forward pass
    stores in the first layer's activations is the input itself. *)
Theorem first_layer_parameters_inert {D : Type} `{DoubleOps D}
    (net : NeuralNetwork D) (ps : list (list D * D)) :
  (forall x, forwardPropagation (with_first_params ps net) x
             = with_first_params ps <$> forwardPropagation net x)
  /\ (forall t, backPropagation (with_first_params ps net) t
                = with_first_params ps <$> backPropagation net t)
  /\ (forall inputs targets epochs,
        train (with_first_params ps net) inputs targets epochs
        = with_first_params ps <$> train net inputs targets epochs)
  /\ (forall x, predict (with_first_params ps net) x
                = prod_map (with_first_params ps) (fun c : nat => c)
                    <$> predict net x)
  /\ (forall inputs outputs,
        evaluateAccuracy (with_first_params ps net) inputs outputs
        = prod_map (with_first_params ps) (fun acc : D => acc)
            <$> evaluateAccuracy net inputs outputs)
  /\ (forall x net', forwardPropagation net x = Some net' ->
                     first_params net' = first_params net)
  /\ (forall t net', backPropagation net t = Some net' ->
                     first_params net' = first_params net)
  /\ (forall inputs targets epochs net',
        train net inputs targets epochs = Some net' ->
        first_params net' = first_params net)
  /\ (forall x net' c, predict net x = Some (net', c) ->
                       first_params net' = first_params net)
  /\ (forall inputs outputs net' acc,
        evaluateAccuracy net inputs outputs = Some (net', acc) ->
        first_params net' = first_params net)
  /\ (firstWidth net = length ps -> 0 < length ps ->
      first_params (with_first_params ps net) = Some ps)
  /\ (forall x net', forwardPropagation net x = Some net' ->
        getOutputs <$> head (layers net') = Some (take (firstWidth net) x)).
Proof.
  split; [intros; apply forward_with_first_params|].
  split; [intros; apply backward_with_first_params|].
  split; [intros; apply train_with_first_params|].
  split; [intros; apply predict_with_first_params|].
  split; [intros; apply evaluate_with_first_params|].
  split; [intros; by eapply forward_first_params_kept|].
  split; [intros; by eapply backward_first_params_kept|].
  split; [intros; by eapply train_first_params_kept|].
  split; [intros; by eapply predict_first_params_kept|].
  split; [intros; by eapply evaluate_first_params_kept|].
  split; [apply first_params_with_first_params|].
  intros x net'. apply forward_first_values.
Qed.

(** ** What the passes keep *)

Section Kept.
Context {D : Type} `{DoubleOps D}.
Implicit Types (net : NeuralNetwork D) (ls rest : list (Layer D))
  (ns : list (Neuron D)).

Lemma mapM_fire_params_kept (prev : Layer D) o ns ns' :
  mapM (fire prev o) ns = Some ns' ->
  map neuron_params ns' = map neuron_params ns.
Proof.
  intros Hrun. apply mapM_Some_1 in Hrun.
  induction Hrun as [|n n' ns ns' Hn _ IH]; [done|].
  simpl. by rewrite (fire_Some _ _ _ _ Hn), IH.
Qed.

Lemma forward_from_params_kept (prev : Layer D) rest rest' :
  forward_from prev rest = Some rest' ->
  map layer_params rest' = map layer_params rest.
Proof.
  revert prev rest'. induction rest as [|cur rest IH]; intros prev rest' Hrun;
    simpl in Hrun; [by simplify_eq|].
  destruct (mapM _ (neurons cur)) as [ns|] eqn:Hns; simplify_eq/=.
  apply mapM_fire_params_kept in Hns.
  destruct (if bool_decide (rest = []) then _ else _) as [cur'|] eqn:Hcur;
    simplify_eq/=.
  destruct (forward_from cur' rest) as [rest''|] eqn:E; simplify_eq/=.
  rewrite (IH _ _ E). f_equal. unfold layer_params. rewrite <- Hns.
  case_bool_decide; simplify_eq/=; [|done].
  destruct (softmax (map value ns)) as [outputs|]; simplify_eq/=.
  rewrite store_outputs_set_input_values in Hcur.
  destruct (set_input_values 0 ns outputs) as [ns'|] eqn:Hst; simplify_eq/=.
  by destruct (set_input_values_Some _ _ _ _ Hst) as [-> _].
Qed.

(** A forward pass changes activations only. *)
Lemma forward_params_kept net (x : list D) net' :
  forwardPropagation net x = Some net' -> parameters net' = parameters net.
Proof.
  rewrite forwardPropagation_unfold. unfold parameters.
  destruct (layers net) as [|l0 rest]; [done|]. intros Hrun.
  destruct (set_input_values 0 (neurons l0) x) as [ns0|] eqn:E0;
    simplify_eq/=.
  destruct (forward_from (mkLayer ns0) rest) as [rest'|] eqn:E;
    simplify_eq/=.
  rewrite (forward_from_params_kept _ _ _ E). do 2 f_equal.
  unfold layer_params. simpl.
  by destruct (set_input_values_Some _ _ _ _ E0) as [-> _].
Qed.

(** A forward pass on its own result, with the same input, changes
    nothing. *)
Lemma forward_again net (x : list D) net' :
  forwardPropagation net x = Some net' ->
  forwardPropagation net' x = Some net'.
Proof.
  intros Hrun. rewrite <- Hrun. apply forward_params.
  by apply forward_params_kept in Hrun.
Qed.

Lemma evaluate_sample_params inputs outputs i net net' c :
  parameters net = parameters net' ->
  evaluate_sample inputs outputs i (net, c)
  = evaluate_sample inputs outputs i (net', c).
Proof.
  intros Hp. unfold evaluate_sample. simpl.
  destruct (inputs !! i) as [x|]; simpl; [|done].
  by rewrite (forward_params _ _ _ Hp).
Qed.

Lemma evaluate_loop_params_kept inputs outputs net lo count c st :
  for_up lo count (evaluate_sample inputs outputs) (net, c) = Some st ->
  parameters st.1 = parameters net.
Proof.
  apply (for_up_invariant
           (fun st : NeuralNetwork D * nat => parameters st.1 = parameters net));
    [|done].
  intros i [n1 c1] [n2 c2] _ Hn1 Hstep. cbn [fst] in *.
  unfold evaluate_sample in Hstep. simpl in Hstep.
  destruct (inputs !! i) as [x|]; [|done]. simpl in Hstep.
  destruct (forwardPropagation n1 x) as [n3|] eqn:E3; [|done].
  simpl in Hstep. destruct (argmax_output n3); [|done]. simpl in Hstep.
  destruct (outputs !! i); [|done]. simpl in Hstep.
  injection Hstep as <- _.
  rewrite <- Hn1. by apply (forward_params_kept n1 x).
Qed.

Lemma update_weights_length k (ws : list D) prev lr delta ws' :
  update_weights k ws prev lr delta = Some ws' -> length ws' = length ws.
Proof.
  revert k ws'. induction ws as [|w ws IH]; intros k ws' Hrun;
    simplify_eq/=; [done|].
  destruct (prev !! k); simplify_eq/=.
  destruct (update_weights (S k) ws prev lr delta) eqn:E; simplify_eq/=.
  by rewrite (IH _ _ E).
Qed.

Lemma update_neurons_shape j ns delta_of prev lr ns' :
  update_neurons j ns delta_of prev lr = Some ns' ->
  map (fun n => length (weights n)) ns' = map (fun n => length (weights n)) ns.
Proof.
  revert j ns'. induction ns as [|n ns IH]; intros j ns' Hrun;
    simplify_eq/=; [done|].
  destruct (delta_of j); simplify_eq/=.
  destruct (update_weights _ _ _ _ _) as [ws|] eqn:Hws; simplify_eq/=.
  destruct (update_neurons _ _ _ _ _) eqn:E; simplify_eq/=.
  by rewrite (IH _ _ E), (update_weights_length _ _ _ _ _ _ Hws).
Qed.

Lemma update_from_kept (prev : Layer D) rest ds lr rest' :
  update_from prev rest ds lr = Some rest' ->
  map getOutputs rest' = map getOutputs rest
  /\ map (fun l => map (fun n => length (weights n)) (neurons l)) rest'
     = map (fun l => map (fun n => length (weights n)) (neurons l)) rest.
Proof.
  revert prev ds rest'. induction rest as [|cur rest IH];
    intros prev ds rest' Hrun; [by simplify_eq/=|].
  destruct ds as [|d ds]; [done|]. rewrite update_from_cons in Hrun.
  destruct (update_neurons _ _ _ _ _) as [ns|] eqn:Hns; simplify_eq/=.
  destruct (update_from cur rest ds lr) as [rest''|] eqn:E; simplify_eq/=.
  destruct (IH _ _ _ E) as [-> ->]. unfold getOutputs. simpl.
  by rewrite (update_neurons_values_kept _ _ _ _ _ _ Hns),
    (update_neurons_shape _ _ _ _ _ _ Hns).
Qed.

(** A backward pass changes weights and biases only: activations, the
    number of weights of every neuron and the learning rate stay. *)
Lemma backward_kept net (t : list D) net' :
  backPropagation net t = Some net' ->
  activations net' = activations net /\ shape net' = shape net
  /\ learningRate net' = learningRate net.
Proof.
  rewrite backPropagation_unfold. unfold activations, shape.
  destruct (layers net) as [|l0 rest]; [done|]. intros Hrun.
  destruct (last (l0 :: rest)) as [back|]; [|done]. bind_step Hrun.
  destruct (output_deltas 0 (neurons back) t) as [od|]; [|done].
  bind_step Hrun.
  destruct (deltas_from (l0 :: rest) od) as [hd|]; [|done]. bind_step Hrun.
  destruct (update_from l0 rest _ _) as [rest'|] eqn:E; [|done].
  bind_step Hrun. injection Hrun as <-. simpl.
  by destruct (update_from_kept _ _ _ _ _ E) as [-> ->].
Qed.

Lemma parameters_shape net net' :
  parameters net' = parameters net -> shape net' = shape net.
Proof.
  unfold parameters, shape. intros [= Hls _].
  assert (forall l : Layer D,
            map (fun n => length (weights n)) (neurons l)
            = map (fun p : list D * D => length p.1) (layer_params l)) as Hl.
  { intros l. unfold layer_params. by rewrite map_map. }
  rewrite (map_ext _ _ Hl (layers net')), (map_ext _ _ Hl (layers net)).
  by rewrite <- !(map_map layer_params), Hls.
Qed.

Lemma train_sample_shape inputs targets i net net' :
  train_sample inputs targets i net = Some net' ->
  shape net' = shape net /\ learningRate net' = learningRate net.
Proof.
  unfold train_sample. intros Hrun.
  destruct (inputs !! i) as [x|]; simplify_eq/=.
  destruct (forwardPropagation net x) as [net1|] eqn:E1; simplify_eq/=.
  destruct (targets !! i) as [t|]; simplify_eq/=.
  destruct (backward_kept _ _ _ Hrun) as (_ & -> & ->).
  apply forward_params_kept in E1. split; [by apply parameters_shape|].
  unfold parameters in E1. by injection E1.
Qed.

Lemma train_shape net inputs targets epochs net' :
  train net inputs targets epochs = Some net' ->
  shape net' = shape net /\ learningRate net' = learningRate net.
Proof.
  unfold train.
  apply (for_up_invariant
           (fun n => shape n = shape net
                     /\ learningRate n = learningRate net)); [|done].
  intros _ net1 net2 _ Hn1.
  apply (for_up_invariant
           (fun n => shape n = shape net
                     /\ learningRate n = learningRate net)); [|done].
  intros i net3 net4 _ [<- <-]. apply train_sample_shape.
Qed.

Lemma shaped_shape w (ls ls' : list (Layer D)) :
  map (fun l => map (fun n => length (weights n)) (neurons l)) ls'
  = map (fun l => map (fun n => length (weights n)) (neurons l)) ls ->
  shaped w ls' = shaped w ls.
Proof.
  revert w ls'. induction ls as [|l ls IH]; intros w [|l' ls'] Hs; try done.
  injection Hs as Hl Hs. simpl.
  assert (forall ns : list (Neuron D),
            forallb (fun n => Nat.eqb (length (weights n)) w) ns
            = forallb (fun k => Nat.eqb k w)
                (map (fun n => length (weights n)) ns)) as Hall.
  { induction ns as [|n ns IHn]; simpl; [done|by rewrite IHn]. }
  rewrite !Hall, Hl.
  rewrite <- (length_map (fun n => length (weights n)) (neurons l')), Hl,
    length_map.
  by rewrite (IH _ _ Hs).
Qed.
End Kept.

(** ** Loops that stop, loops that compose *)

Section Bounds.
Context {D : Type} `{DoubleOps D}.
Implicit Types (net : NeuralNetwork D).

Lemma train_sample_no_target (inputs targets : list (list D)) net :
  train_sample inputs targets (length targets) net = None.
Proof.
  unfold train_sample.
  destruct (inputs !! length targets) as [x|]; simpl; [|done].
  destruct (forwardPropagation net x); simpl; [|done].
  by rewrite (lookup_ge_None_2 targets (length targets)) by lia.
Qed.

Lemma evaluate_sample_no_output (inputs outputs : list (list D))
    (st : NeuralNetwork D * nat) :
  evaluate_sample inputs outputs (length outputs) st = None.
Proof.
  unfold evaluate_sample.
  destruct (inputs !! length outputs) as [x|]; simpl; [|done].
  destruct (forwardPropagation st.1 x) as [net'|]; simpl; [|done].
  destruct (argmax_output net'); simpl; [|done].
  by rewrite (lookup_ge_None_2 outputs (length outputs)) by lia.
Qed.

Lemma train_add net (inputs targets : list (list D)) (e1 e2 : nat) :
  train net inputs targets (Z.of_nat (e1 + e2))
  = net1 ← train net inputs targets (Z.of_nat e1);
    train net1 inputs targets (Z.of_nat e2).
Proof.
  unfold train. rewrite !Nat2Z.id, for_up_add.
  destruct (for_up 0 e1 _ net) as [net1|]; simpl; [|done].
  apply for_up_shift.
Qed.
End Bounds.

(** ** What the constructor builds *)

Section Built.
Context {D : Type} `{DoubleOps D} {G : Type} (dis : G -> D * G).
Implicit Types (rd : nat -> G) (gen : G) (P : D -> Prop).

Lemma generate_range P n gen :
  (forall g, P (dis g).1) -> Forall P (generate dis n gen).1.
Proof.
  intros HP. revert gen. induction n as [|n IH]; intros gen; simpl;
    [by constructor|].
  pose proof (HP gen) as Hw. destruct (dis gen) as [w gen1].
  specialize (IH gen1). destruct (generate dis n gen1) as [ws gen2].
  simpl in *. by constructor.
Qed.

Lemma init_neurons_range P c p gen :
  (forall g, P (dis g).1) ->
  Forall (fun n => value n = d0 /\ P (bias n) /\ Forall P (weights n))
    (init_neurons dis c p gen).
Proof.
  intros HP. revert gen. induction c as [|c IH]; intros gen; simpl;
    [by constructor|].
  pose proof (generate_range P p gen HP) as Hws.
  destruct (generate dis p gen) as [ws gen1].
  pose proof (HP gen1) as Hb. destruct (dis gen1) as [b gen2].
  simpl in *. constructor; [done|apply IH].
Qed.

Lemma build_range P rd i prev sizes :
  (forall g, P (dis g).1) ->
  Forall (fun l =>
            Forall (fun n => value n = d0 /\ P (bias n) /\ Forall P (weights n))
              (neurons l))
    (build dis rd i prev sizes).
Proof.
  intros HP. revert i prev. induction sizes as [|s sizes IH]; intros i prev;
    simpl; [by constructor|].
  constructor; [by apply init_neurons_range|apply IH].
Qed.

Lemma build_widths rd i prev sizes :
  map (fun l => length (neurons l)) (build dis rd i prev sizes) = sizes.
Proof.
  revert i prev. induction sizes as [|s sizes IH]; intros i prev; simpl;
    [done|].
  by rewrite init_neurons_length, IH.
Qed.
End Built.

(** ** Activations over the reals *)

Section RealActivations.
Open Scope R_scope.
Implicit Types (x l : list R) (net : NeuralNetwork R).

Lemma relu_nonneg (v : R) : 0 <= relu v.
Proof. rewrite relu_real. apply Rmax_l. Qed.

Lemma reluDerivative_relu (v : R) :
  reluDerivative (relu v) = reluDerivative v.
Proof.
  unfold reluDerivative, relu. real_ops.
  destruct (Rltb 0 v) eqn:Hv; [by rewrite Hv|].
  assert (Rltb 0 0 = false) as -> by (apply Rltb_ge; lra). done.
Qed.

(** The number of matches never exceeds the number of samples seen. *)
Lemma evaluate_loop_count (inputs outputs : list (list R)) lo count
    (st st' : NeuralNetwork R * nat) :
  for_up lo count (evaluate_sample inputs outputs) st = Some st' ->
  (st'.2 <= st.2 + count)%nat.
Proof.
  revert lo st. induction count as [|c IH]; intros lo st Hrun;
    simpl in Hrun; [simplify_eq; lia|].
  destruct (evaluate_sample inputs outputs lo st) as [st1|] eqn:E;
    simplify_eq/=.
  apply IH in Hrun.
  assert (st1.2 <= S st.2)%nat; [|lia].
  unfold evaluate_sample in E.
  destruct (inputs !! lo); simplify_eq/=.
  destruct (forwardPropagation st.1 _); simplify_eq/=.
  destruct (argmax_output _); simplify_eq/=.
  destruct (outputs !! lo); simplify_eq/=.
  case_bool_decide; lia.
Qed.

End RealActivations.

(** ** The line parser *)

Section ParseFacts.
Context {D : Type} `{DoubleOps D}.
Context (stod : string -> stod_result D).
Implicit Types (f label rest line : string) (input : list D).

Lemma getline_field c f rest :
  lacks c f = true -> getline c (f +:+ String c rest) = (f, rest).
Proof.
  induction f as [|c' f IH]; simpl; intros Hf.
  - by rewrite bool_decide_eq_true_2.
  - apply andb_prop in Hf as [Hc Hf]. apply negb_true_iff in Hc.
    rewrite Hc. by rewrite (IH Hf).
Qed.

Lemma getline_last c f :
  lacks c f = true -> getline c f = (f, EmptyString).
Proof.
  induction f as [|c' f IH]; simpl; intros Hf; [done|].
  apply andb_prop in Hf as [Hc Hf]. apply negb_true_iff in Hc.
  rewrite Hc. by rewrite (IH Hf).
Qed.

(** A field that [stod] accepts is stored; an empty field and one [stod]
    rejects as no number leave the zero the feature was initialised with. *)
Lemma read_field_value i input f rest :
  lacks ","%char f = true -> field_in_range stod f = true ->
  input !! i = Some d0 ->
  read_field stod i (input, f +:+ String ","%char rest)
  = Some (<[i := field_value stod f]> input, rest).
Proof.
  intros Hf Hrange Hi. unfold read_field, field_value, field_in_range in *.
  simpl. rewrite (getline_field _ _ _ Hf).
  case_bool_decide; [by rewrite list_insert_id|].
  simpl in Hrange. destruct (stod f); [done| |done].
  by rewrite list_insert_id.
Qed.

Lemma read_field_length i (st st' : list D * string) :
  read_field stod i st = Some st' -> length st'.1 = length st.1.
Proof.
  unfold read_field. destruct (getline ","%char st.2) as [value rest].
  case_bool_decide; [by intros [= <-]|].
  destruct (stod value); intros [= <-]; simpl; [|done].
  by rewrite length_insert.
Qed.

Lemma parse_line_shape line input output :
  parse_line stod line = line_row input output ->
  length input = 4 /\ exists k, k < 3 /\ output = one_hot 3 k.
Proof.
  unfold parse_line.
  destruct (for_up 0 4 (read_field stod) (replicate 4 d0, line))
    as [[input' rest]|] eqn:Hfields; [|done].
  assert (length input' = 4) as Hlen.
  { apply (for_up_invariant (fun st : list D * string => length st.1 = 4))
      in Hfields; [done| |done].
    intros i st st' _ Hst Hstep.
    by rewrite (read_field_length _ _ _ Hstep). }
  simpl.
  repeat case_bool_decide; intros [= <- <-]; (split; [done|]).
  - exists 0. split; [lia|done].
  - exists 1. split; [lia|done].
  - exists 2. split; [lia|done].
Qed.

(** The rows the loader keeps: four features each, a one-hot target of
    three entries each, as many targets as rows, at most one per line. *)
Lemma read_rows_shape lines (inputs outputs inputs' outputs' : list (list D)) :
  read_rows stod lines inputs outputs = Some (inputs', outputs') ->
  exists rows targets,
    inputs' = inputs ++ rows /\ outputs' = outputs ++ targets
    /\ length rows = length targets /\ length rows <= length lines
    /\ Forall (fun row => length row = 4) rows
    /\ Forall (fun o => exists k, k < 3 /\ o = one_hot 3 k) targets.
Proof.
  revert inputs outputs. induction lines as [|line lines IH];
    intros inputs outputs Hrun; simpl in Hrun.
  - injection Hrun as <- <-. exists [], []. by rewrite !app_nil_r.
  - destruct (parse_line stod line) as [input output| |] eqn:Hline; [| |done].
    + destruct (IH _ _ Hrun) as (rows & targets & -> & -> & Hlen & Hle & Hr & Ht).
      destruct (parse_line_shape _ _ _ Hline) as (Hin & k & Hk & ->).
      exists (input :: rows), (one_hot 3 k :: targets).
      rewrite <- !app_assoc. simpl. rewrite Hlen.
      repeat split; [lia| |]; constructor; eauto.
    + destruct (IH _ _ Hrun) as (rows & targets & -> & -> & Hlen & Hle & Hr & Ht).
      exists rows, targets. repeat split; [done|simpl; lia|done..].
Qed.

Lemma read_field_thrown i input f rest :
  lacks ","%char f = true -> field_in_range stod f = false ->
  read_field stod i (input, f +:+ String ","%char rest) = None.
Proof.
  intros Hf Hrange. unfold read_field, field_in_range in *.
  cbn [fst snd]. rewrite (getline_field _ _ _ Hf).
  case_bool_decide; [done|]. simpl in Hrange. by destruct (stod f).
Qed.

(** One field out of [double]'s range aborts the line. *)
Lemma parse_line_csv_thrown f0 f1 f2 f3 label :
  lacks ","%char f0 = true -> lacks ","%char f1 = true ->
  lacks ","%char f2 = true -> lacks ","%char f3 = true ->
  field_in_range stod f0 && field_in_range stod f1
  && field_in_range stod f2 && field_in_range stod f3 = false ->
  parse_line stod (csv_line f0 f1 f2 f3 label) = line_thrown.
Proof.
  intros H0 H1 H2 H3 Hrange. unfold parse_line, csv_line. cbn [for_up].
  destruct (field_in_range stod f0) eqn:R0;
    [|by rewrite read_field_thrown].
  rewrite read_field_value by done. cbn [mbind option_bind].
  destruct (field_in_range stod f1) eqn:R1;
    [|by rewrite read_field_thrown].
  rewrite read_field_value by done. cbn [mbind option_bind].
  destruct (field_in_range stod f2) eqn:R2;
    [|by rewrite read_field_thrown].
  rewrite read_field_value by done. cbn [mbind option_bind].
  destruct (field_in_range stod f3) eqn:R3; [done|].
  by rewrite read_field_thrown.
Qed.

End ParseFacts.

(** ** The split *)

Section SplitFacts.
Context {D : Type}.
Implicit Types (indices ks : list nat) (inputs outputs : list (list D)).

Lemma push_loop_Some indices inputs outputs lo count
    (st : list (list D) * list (list D)) :
  lo + count <= length indices ->
  Forall (fun k => k < length inputs /\ k < length outputs)
    (take count (drop lo indices)) ->
  for_up lo count (push_sample indices inputs outputs) st
  = Some (st.1 ++ map (fun k => inputs !!! k) (take count (drop lo indices)),
          st.2 ++ map (fun k => outputs !!! k) (take count (drop lo indices))).
Proof.
  revert lo st. induction count as [|count IH]; intros lo [ins outs] Hle Hks.
  - simpl. by rewrite !app_nil_r.
  - destruct (lookup_lt_is_Some_2 indices lo) as [k Hk]; [lia|].
    rewrite (drop_S _ _ _ Hk) in Hks. rewrite firstn_cons in Hks.
    apply Forall_cons in Hks as [[Hin Hout] Hks].
    destruct (lookup_lt_is_Some_2 inputs k Hin) as [x Hx].
    destruct (lookup_lt_is_Some_2 outputs k Hout) as [o Ho].
    assert (push_sample indices inputs outputs lo (ins, outs)
            = Some (ins ++ [x], outs ++ [o])) as Hstep.
    { unfold push_sample. rewrite Hk. simpl. rewrite Hx. simpl.
      by rewrite Ho. }
    cbn [for_up]. rewrite Hstep. cbn [mbind option_bind].
    rewrite IH by (done || lia).
    rewrite (drop_S _ _ _ Hk). simpl.
    rewrite (list_lookup_total_correct _ _ _ Hx).
    rewrite (list_lookup_total_correct _ _ _ Ho).
    by rewrite <- !app_assoc.
Qed.

Lemma push_loop_None indices inputs outputs lo count
    (st : list (list D) * list (list D)) :
  0 < count -> length indices < lo + count ->
  for_up lo count (push_sample indices inputs outputs) st = None.
Proof.
  intros Hpos Hlt. apply (for_up_None_at _ _ _ _ (Nat.max lo (length indices)));
    [lia|].
  intros t. unfold push_sample. by rewrite lookup_ge_None_2 by lia.
Qed.

(** Whatever [indices] holds, a loop that returns has pushed [count] pairs,
    each a row of [inputs] with the target at the same position of
    [outputs]. *)
Lemma push_loop_inv indices inputs outputs lo count
    (st st' : list (list D) * list (list D)) :
  for_up lo count (push_sample indices inputs outputs) st = Some st' ->
  exists ks, length ks = count
    /\ Forall (fun k => k < length inputs /\ k < length outputs) ks
    /\ st'.1 = st.1 ++ map (fun k => inputs !!! k) ks
    /\ st'.2 = st.2 ++ map (fun k => outputs !!! k) ks.
Proof.
  revert lo st. induction count as [|count IH]; intros lo [ins outs] Hrun.
  - injection Hrun as <-. exists []. by rewrite !app_nil_r.
  - cbn [for_up] in Hrun.
    destruct (push_sample indices inputs outputs lo (ins, outs))
      as [st1|] eqn:Hstep; [|done].
    bind_step Hrun. unfold push_sample in Hstep.
    destruct (indices !! lo) as [k|]; [|done]. simpl in Hstep.
    destruct (inputs !! k) as [x|] eqn:Hx; [|done]. simpl in Hstep.
    destruct (outputs !! k) as [o|] eqn:Ho; [|done]. simpl in Hstep.
    injection Hstep as <-.
    destruct (IH _ _ Hrun) as (ks & Hlen & Hks & -> & ->).
    exists (k :: ks). simpl. rewrite Hlen.
    rewrite (list_lookup_total_correct _ _ _ Hx).
    rewrite (list_lookup_total_correct _ _ _ Ho).
    rewrite <- !app_assoc. repeat split; [|done..].
    constructor; [|done]. split; eapply lookup_lt_Some; eauto.
Qed.

Lemma take_drop_app (ks : list nat) a b :
  take a ks ++ take b (drop a ks) = take (a + b) ks.
Proof.
  revert ks. induction a as [|a IH]; intros [|k ks]; simpl;
    rewrite ?take_nil; try done.
  by rewrite IH.
Qed.

Lemma Permutation_seq_bound indices n :
  Permutation indices (seq 0 n) -> Forall (fun k => k < n) indices.
Proof.
  intros Hp. apply Forall_forall. intros k Hk.
  assert (k ∈ seq 0 n) as Hin by (by rewrite <- Hp).
  apply elem_of_seq in Hin. lia.
Qed.

Lemma Permutation_seq_NoDup indices n :
  Permutation indices (seq 0 n) -> NoDup indices.
Proof. intros Hp. rewrite Hp. apply NoDup_seq. Qed.
End SplitFacts.

(** ** The normalisation *)

Section NormalizeFacts.
Context {D : Type} `{DoubleOps D} `{LoaderOps D}.
Implicit Types (row inputMeans inputStds : list D) (inputs : list (list D)).

(** On rows as wide as the accumulators the three inner loops are
    element-wise. *)
Lemma add_to_means_zip j row inputMeans :
  j + length row = length inputMeans ->
  add_to_means j row inputMeans
  = Some (take j inputMeans ++ zip_with dadd (drop j inputMeans) row).
Proof.
  revert j inputMeans. induction row as [|x row IH]; intros j means Hlen;
    simpl in *.
  - rewrite zip_with_nil_r, app_nil_r. by rewrite take_ge by lia.
  - destruct (lookup_lt_is_Some_2 means j) as [m Hm]; [lia|].
    rewrite Hm. simpl. rewrite IH by (rewrite length_insert; lia).
    rewrite (take_S_r _ _ (dadd m x));
      [|apply list_lookup_insert_eq; lia].
    rewrite take_insert_ge by lia. rewrite drop_insert_lt by lia.
    rewrite (drop_S _ _ _ Hm). simpl. by rewrite <- app_assoc.
Qed.

Lemma add_to_stds_zip j row inputMeans inputStds :
  j + length row = length inputStds ->
  length inputMeans = length inputStds ->
  add_to_stds j row inputMeans inputStds
  = Some (take j inputStds
          ++ zip_with dadd (drop j inputStds)
               (zip_with (fun x m => dpow2 (dsub x m)) row
                  (drop j inputMeans))).
Proof.
  revert j inputStds. induction row as [|x row IH]; intros j stds Hlen Hm;
    simpl in *.
  - rewrite zip_with_nil_r, app_nil_r. by rewrite take_ge by lia.
  - destruct (lookup_lt_is_Some_2 stds j) as [s Hs]; [lia|].
    destruct (lookup_lt_is_Some_2 inputMeans j) as [m Hmj]; [lia|].
    rewrite Hs. simpl. rewrite Hmj. simpl.
    rewrite IH by (rewrite length_insert; lia).
    rewrite (take_S_r _ _ (dadd s (dpow2 (dsub x m))));
      [|apply list_lookup_insert_eq; lia].
    rewrite take_insert_ge by lia. rewrite drop_insert_lt by lia.
    rewrite (drop_S _ _ _ Hs), (drop_S _ _ _ Hmj). simpl.
    by rewrite <- app_assoc.
Qed.

Lemma normalize_row_zip j row inputMeans inputStds :
  j + length row = length inputMeans ->
  length inputStds = length inputMeans ->
  normalize_row j row inputMeans inputStds
  = Some (zip_with (fun x ms => ddiv (dsub x ms.1) ms.2) row
            (zip (drop j inputMeans) (drop j inputStds))).
Proof.
  revert j. induction row as [|x row IH]; intros j Hlen Hs; simpl in *;
    [done|].
  destruct (lookup_lt_is_Some_2 inputMeans j) as [m Hmj]; [lia|].
  destruct (lookup_lt_is_Some_2 inputStds j) as [s Hsj]; [lia|].
  rewrite Hmj. simpl. rewrite Hsj. simpl. rewrite IH by lia. simpl.
  by rewrite (drop_S _ _ _ Hmj), (drop_S _ _ _ Hsj).
Qed.

Lemma sum_rows_fold inputs inputMeans :
  Forall (fun row => length row = length inputMeans) inputs ->
  sum_rows inputs inputMeans
  = Some (foldl (zip_with dadd) inputMeans inputs).
Proof.
  revert inputMeans. induction inputs as [|row inputs IH];
    intros means Hw; [done|].
  apply Forall_cons in Hw as [Hrow Hw]. simpl.
  rewrite add_to_means_zip by (simpl; lia). simpl. rewrite drop_0.
  apply IH. rewrite length_zip_with_l_eq by done.
  done.
Qed.

Lemma sum_squares_fold inputs inputMeans inputStds :
  length inputMeans = length inputStds ->
  Forall (fun row => length row = length inputStds) inputs ->
  sum_squares inputs inputMeans inputStds
  = Some (foldl (fun acc row =>
                   zip_with dadd acc
                     (zip_with (fun x m => dpow2 (dsub x m)) row inputMeans))
            inputStds inputs).
Proof.
  intros Hm. revert inputStds Hm. induction inputs as [|row inputs IH];
    intros stds Hm Hw; [done|].
  apply Forall_cons in Hw as [Hrow Hw]. simpl.
  rewrite add_to_stds_zip by (simpl; lia). simpl. rewrite !drop_0.
  assert (length (zip_with dadd stds
                    (zip_with (fun x m => dpow2 (dsub x m)) row inputMeans))
          = length stds) as Hlen.
  { rewrite !length_zip_with. lia. }
  apply IH; rewrite Hlen; done.
Qed.

Lemma foldl_width {A B : Type} (f : list A -> B -> list A) (P : B -> Prop)
    w acc (rows : list B) :
  (forall a r, P r -> length a = w -> length (f a r) = w) ->
  Forall P rows -> length acc = w -> length (foldl f acc rows) = w.
Proof.
  intros Hf Hrows. revert acc.
  induction Hrows as [|r rows Hr _ IH]; intros acc Hacc; [done|].
  simpl. apply IH. by apply Hf.
Qed.

(** On a table of four-wide rows the normalisation returns, with the
    element-wise reading of its five loops. *)
Lemma normalize_wide inputs :
  Forall (fun row => length row = 4) inputs ->
  let n := dof_nat (length inputs) in
  let inputMeans :=
    map (fun m => ddiv m n) (foldl (zip_with dadd) (replicate 4 d0) inputs) in
  let inputStds :=
    map (fun s => dsqrt (ddiv s n))
      (foldl (fun acc row =>
                zip_with dadd acc
                  (zip_with (fun x m => dpow2 (dsub x m)) row inputMeans))
         (replicate 4 d0) inputs) in
  length inputMeans = 4 /\ length inputStds = 4
  /\ normalize inputs
     = Some (map (fun row =>
                    zip_with (fun x ms => ddiv (dsub x ms.1) ms.2) row
                      (zip inputMeans inputStds)) inputs).
Proof.
  intros Hw n inputMeans inputStds.
  assert (length inputMeans = 4) as Hm.
  { unfold inputMeans. rewrite length_map.
    apply (foldl_width _ (fun row => length row = 4)); [|done..].
    intros a r Hr Ha. rewrite length_zip_with. lia. }
  assert (length inputStds = 4) as Hs.
  { unfold inputStds. rewrite length_map.
    apply (foldl_width _ (fun row => length row = 4)); [|done..].
    intros a r Hr Ha. rewrite !length_zip_with. lia. }
  split; [done|]. split; [done|]. unfold normalize.
  rewrite sum_rows_fold by done. cbn [mbind option_bind].
  fold n. fold inputMeans.
  rewrite sum_squares_fold; [|by rewrite Hm|done].
  cbn [mbind option_bind]. fold inputStds.
  apply mapM_Some. rewrite map_fmap. apply Forall2_fmap_r.
  apply Forall_Forall2_diag. eapply Forall_impl; [exact Hw|].
  intros row Hrow. cbv beta in Hrow. simpl.
  rewrite normalize_row_zip by (simpl; lia). by rewrite !drop_0.
Qed.

Lemma normalize_defined inputs :
  Forall (fun row => length row = 4) inputs ->
  exists rows, normalize inputs = Some rows
    /\ length rows = length inputs
    /\ Forall (fun row => length row = 4) rows.
Proof.
  intros Hw. destruct (normalize_wide inputs Hw) as (Hm & Hs & ->).
  eexists. split; [done|]. rewrite length_map. split; [done|].
  rewrite map_fmap. apply Forall_fmap. eapply Forall_impl; [exact Hw|].
  intros row Hrow. cbv beta in Hrow. unfold compose.
  rewrite length_zip_with, length_zip. cbv zeta in Hm, Hs. lia.
Qed.
End NormalizeFacts.

(** ** The loader as a whole *)

Section LoaderFacts.
Context {D : Type} `{DoubleOps D} `{LoaderOps D}.
Context (stod : string -> stod_result D).

(** What reaches the split: as many normalised rows as kept rows, four
    features each, and the one-hot targets of [read_rows]. *)
Lemma loader_rows lines (rows targets : list (list D)) :
  read_rows stod lines [] [] = Some (rows, targets) ->
  length targets = length rows /\ length rows <= length lines
  /\ Forall (fun o => exists k, k < 3 /\ o = one_hot 3 k) targets
  /\ exists inputs, normalize rows = Some inputs
       /\ length inputs = length rows
       /\ Forall (fun row => length row = 4) inputs.
Proof.
  intros Hread.
  destruct (read_rows_shape _ _ _ _ _ _ Hread)
    as (rows' & targets' & -> & -> & Hlen & Hle & Hrows & Htargets).
  simpl. repeat split; [done..|]. by apply normalize_defined.
Qed.

Lemma read_rows_thrown lines line (inputs outputs : list (list D)) :
  line ∈ lines -> parse_line stod line = line_thrown ->
  read_rows stod lines inputs outputs = None.
Proof.
  intros Hin Hline. revert inputs outputs.
  induction Hin as [line lines|line line' lines _ IH]; intros inputs outputs;
    simpl.
  - by rewrite Hline.
  - destruct (parse_line stod line'); auto.
Qed.

Lemma Forall_lookup_total_map {A : Type} `{Inhabited A} (P : A -> Prop)
    (l : list A) (ks : list nat) :
  Forall P l -> Forall (fun k => k < length l) ks ->
  Forall P (map (fun k => l !!! k) ks).
Proof.
  intros Hl Hks. rewrite map_fmap. apply Forall_fmap.
  eapply Forall_impl; [exact Hks|]. intros k Hk. simpl.
  by apply Forall_lookup_total_1.
Qed.
End LoaderFacts.

Section RealSizes.
Lemma Int_part_le (x : R) : (IZR (Int_part x) <= x)%R.
Proof. destruct (base_Int_part x). lra. Qed.

Lemma Int_part_nonneg (x : R) : (0 <= x)%R -> (0 <= Int_part x)%Z.
Proof.
  intros Hx. destruct (base_Int_part x) as [_ Hgt].
  assert (-1 < Int_part x)%Z; [|lia]. apply lt_IZR. lra.
Qed.

Lemma Int_part_positive (x : R) : (1 <= x)%R -> (1 <= Int_part x)%Z.
Proof.
  intros Hx. destruct (base_Int_part x) as [_ Hgt].
  assert (0 < Int_part x)%Z; [|lia]. apply lt_IZR. lra.
Qed.

Lemma dto_size_real (x : R) :
  (0 <= x)%R -> dto_size x = Some (Z.to_nat (Int_part x)).
Proof.
  intros Hx. cbn [dto_size R_LoaderOps]. destruct (Rlt_dec (-1) x); [done|lra].
Qed.

(** The two truncated sizes fit the table when the two fractions do. *)
Lemma split_sizes_fit (n : nat) (ts vs : R) :
  (0 <= ts)%R -> (0 <= vs)%R -> (ts + vs <= 1)%R ->
  Z.to_nat (Int_part (INR n * ts)) + Z.to_nat (Int_part (INR n * vs)) <= n.
Proof.
  intros Hts Hvs Hsum. pose proof (pos_INR n) as Hn.
  assert (0 <= INR n * ts)%R as Ha by (by apply Rmult_le_pos).
  assert (0 <= INR n * vs)%R as Hb by (by apply Rmult_le_pos).
  pose proof (Int_part_nonneg _ Ha). pose proof (Int_part_nonneg _ Hb).
  pose proof (Int_part_le (INR n * ts)). pose proof (Int_part_le (INR n * vs)).
  assert (Int_part (INR n * ts) + Int_part (INR n * vs) <= Z.of_nat n)%Z;
    [|lia].
  apply le_IZR. rewrite plus_IZR, <- INR_IZR_INZ.
  assert (INR n * ts + INR n * vs <= INR n)%R; [|lra].
  rewrite <- Rmult_plus_distr_l. rewrite <- (Rmult_1_r (INR n)) at 2.
  by apply Rmult_le_compat_l.
Qed.
End RealSizes.

(** ** Inference and stale activations *)

Section Inference.
Context {D : Type} `{DoubleOps D}.
Implicit Types (net : NeuralNetwork D) (x : list D).

Lemma predict_params net1 net2 x :
  parameters net1 = parameters net2 -> predict net1 x = predict net2 x.
Proof. intros Hp. unfold predict. by rewrite (forward_params net1 net2). Qed.

Lemma evaluateAccuracy_params net1 net2 (inputs outputs : list (list D)) :
  parameters net1 = parameters net2 ->
  (inputs <> [] ->
   evaluateAccuracy net1 inputs outputs = evaluateAccuracy net2 inputs outputs)
  /\ snd <$> evaluateAccuracy net1 inputs outputs
     = snd <$> evaluateAccuracy net2 inputs outputs.
Proof.
  intros Hp.
  assert (inputs <> [] ->
          evaluateAccuracy net1 inputs outputs
          = evaluateAccuracy net2 inputs outputs) as Hne.
  { intros Hin. unfold evaluateAccuracy.
    rewrite (for_up_first _ _ _ (net1, 0) (net2, 0)); [done| |].
    - by apply evaluate_sample_params.
    - destruct inputs; [done|simpl; lia]. }
  split; [done|]. destruct inputs as [|x inputs]; [done|].
  by rewrite Hne.
Qed.

Lemma evaluateAccuracy_params_kept net (inputs outputs : list (list D))
    net' acc :
  evaluateAccuracy net inputs outputs = Some (net', acc) ->
  parameters net' = parameters net.
Proof.
  unfold evaluateAccuracy. intros Hrun.
  destruct (for_up 0 (length inputs) (evaluate_sample inputs outputs) (net, 0))
    as [st|] eqn:Hloop; [|done].
  simpl in Hrun. injection Hrun as <- _.
  by apply (evaluate_loop_params_kept _ _ _ _ _ _ _ Hloop).
Qed.
End Inference.

(** ** The layout of a constructed network *)

Section Layout.
Context {D : Type} `{DoubleOps D} {G : Type} (dis : G -> D * G).

Lemma init_neurons_layout c p gen :
  map (fun n => length (weights n)) (init_neurons dis c p gen) = replicate c p
  /\ map value (init_neurons dis c p gen) = replicate c d0.
Proof.
  revert gen. induction c as [|c IH]; intros gen; simpl; [done|].
  pose proof (generate_length dis p gen) as Hlen.
  destruct (generate dis p gen) as [ws gen1], (dis gen1) as [b gen2].
  destruct (IH gen2) as [IH1 IH2]. simpl in *. by rewrite IH1, IH2, Hlen.
Qed.

Lemma build_layout rd i prev sizes :
  map (fun l => map (fun n => length (weights n)) (neurons l))
    (build dis rd i prev sizes)
  = zip_with (fun p s => replicate s p) (prev :: sizes) sizes
  /\ map getOutputs (build dis rd i prev sizes)
     = map (fun s => replicate s d0) sizes.
Proof.
  revert i prev. induction sizes as [|s sizes IH]; intros i prev; [done|].
  cbn [build map zip_with]. destruct (IH (S i) s) as [-> ->].
  unfold Layer_new, getOutputs. cbn [neurons].
  by destruct (init_neurons_layout s prev (rd i)) as [-> ->].
Qed.

Lemma build_parameters_range (P : D -> Prop) rd i prev sizes :
  (forall g, P (dis g).1) ->
  Forall (Forall (fun p : list D * D => Forall P p.1 /\ P p.2))
    (map layer_params (build dis rd i prev sizes)).
Proof.
  intros HP. rewrite map_fmap. apply Forall_fmap.
  eapply Forall_impl; [apply (build_range dis P rd i prev sizes HP)|].
  intros l Hl. simpl. unfold layer_params. rewrite map_fmap.
  apply Forall_fmap. eapply Forall_impl; [exact Hl|].
  intros n (_ & Hb & Hws). done.
Qed.
End Layout.

Section RealOutputs.
Lemma Rdiv_unit (a b : R) :
  (0 <= a <= b)%R -> (0 < b)%R -> (0 <= a / b <= 1)%R.
Proof.
  intros [Ha Hab] Hb. split.
  - unfold Rdiv. apply Rmult_le_pos; [lra|].
    apply Rlt_le, Rinv_0_lt_compat. lra.
  - apply (Rmult_le_reg_r b); [lra|].
    unfold Rdiv. rewrite Rmult_assoc, Rinv_l by lra. lra.
Qed.

End RealOutputs.

(** ** The loader over the reals *)

Section LoaderReal.
Context (stod : string -> stod_result R) (shuffle : list nat -> list nat).
Implicit Types (rows targets inputs : list (list R)).

Lemma loadIrisDataset_split lines rows targets inputs
    (trainInputs trainOutputs validationInputs validationOutputs
       : list (list R)) (trainSplit validationSplit : R) :
  read_rows stod lines [] [] = Some (rows, targets) ->
  normalize rows = Some inputs ->
  loadIrisDataset stod shuffle lines trainInputs trainOutputs
    validationInputs validationOutputs trainSplit validationSplit
  = trainSize ← dto_size (INR (length inputs) * trainSplit)%R;
    validationSize ← dto_size (INR (length inputs) * validationSplit)%R;
    split_rows (shuffle (seq 0 (length inputs))) inputs targets
      trainSize validationSize
      trainInputs trainOutputs validationInputs validationOutputs.
Proof.
  intros Hread Hnorm. unfold loadIrisDataset. rewrite Hread.
  cbn [mbind option_bind fst snd]. by rewrite Hnorm.
Qed.

(** With a shuffle that permutes and fractions that fit, the loader
    returns: the first [a] shuffled rows are appended to the training
    vectors and the next [b] to the validation vectors, [a] and [b] the
    truncated products, every row with the target of its line. *)
Lemma loadIrisDataset_real lines rows targets
    (trainInputs trainOutputs validationInputs validationOutputs
       : list (list R)) (trainSplit validationSplit : R) :
  (forall l, Permutation (shuffle l) l) ->
  (0 <= trainSplit)%R -> (0 <= validationSplit)%R ->
  (trainSplit + validationSplit <= 1)%R ->
  read_rows stod lines [] [] = Some (rows, targets) ->
  let n := length rows in
  let a := Z.to_nat (Int_part (INR n * trainSplit)) in
  let b := Z.to_nat (Int_part (INR n * validationSplit)) in
  let indices := shuffle (seq 0 n) in
  exists inputs,
    normalize rows = Some inputs /\ length inputs = n
    /\ a + b <= n
    /\ Forall (fun k => k < n) indices
    /\ NoDup (take a indices ++ take b (drop a indices))
    /\ loadIrisDataset stod shuffle lines trainInputs trainOutputs
         validationInputs validationOutputs trainSplit validationSplit
       = Some (trainInputs ++ map (fun k => inputs !!! k) (take a indices),
               trainOutputs ++ map (fun k => targets !!! k) (take a indices),
               (validationInputs
                ++ map (fun k => inputs !!! k) (take b (drop a indices)),
                validationOutputs
                ++ map (fun k => targets !!! k) (take b (drop a indices)))).
Proof.
  intros Hperm Hts Hvs Hsum Hread n a b indices. subst indices b a n.
  destruct (loader_rows _ _ _ _ Hread)
    as (Htargets & _ & _ & inputs & Hnorm & Hlen & _).
  pose proof (split_sizes_fit (length rows) _ _ Hts Hvs Hsum) as Hfit.
  pose proof (Permutation_seq_bound _ _ (Hperm (seq 0 (length rows))))
    as Hbound.
  pose proof (Permutation_seq_NoDup _ _ (Hperm (seq 0 (length rows))))
    as Hnodup.
  assert (length (shuffle (seq 0 (length rows))) = length rows) as Hidx.
  { rewrite (Permutation_length (Hperm (seq 0 (length rows)))).
    apply length_seq. }
  exists inputs. split; [done|]. split; [done|]. split; [done|].
  split; [done|]. split.
  { rewrite take_drop_app. eapply sublist_NoDup; [exact Hnodup|].
    apply sublist_take. }
  rewrite (loadIrisDataset_split _ _ _ _ _ _ _ _ _ _ Hread Hnorm).
  pose proof (pos_INR (length rows)) as Hn. rewrite Hlen.
  rewrite !dto_size_real by (by apply Rmult_le_pos).
  cbn [mbind option_bind]. unfold split_rows.
  assert (Forall (fun k => k < length inputs /\ k < length targets)
            (shuffle (seq 0 (length rows)))) as Hboth.
  { eapply Forall_impl; [exact Hbound|]. intros k Hk. cbv beta in Hk. lia. }
  rewrite push_loop_Some; [|lia|by apply Forall_take, Forall_drop].
  cbn [mbind option_bind].
  rewrite push_loop_Some; [|lia|by apply Forall_take, Forall_drop].
  cbn [mbind option_bind fst snd]. by rewrite drop_0.
Qed.

(** Two kept rows are enough for [main]'s fractions to ask for a training
    sample, and a training sample is a row: it has four entries. *)
Lemma main_training_set lines rows targets sets :
  read_rows stod lines [] [] = Some (rows, targets) ->
  2 <= length rows ->
  loadIrisDataset stod shuffle lines [] [] [] [] d0_90 d0_1 = Some sets ->
  exists x trainInputs, sets.1.1 = x :: trainInputs /\ length x = 4.
Proof.
  intros Hread Hrows Hload.
  destruct (loader_rows _ _ _ _ Hread)
    as (Htargets & _ & _ & inputs & Hnorm & Hlen & Hwide).
  rewrite (loadIrisDataset_split _ _ _ _ _ _ _ _ _ _ Hread Hnorm) in Hload.
  cbn [d0_90 d0_1 R_LoaderOps] in Hload.
  assert (2 <= INR (length inputs))%R as Hn.
  { rewrite Hlen. change 2%R with (INR 2). by apply le_INR. }
  rewrite !dto_size_real in Hload by lra. bind_step Hload. bind_step Hload.
  unfold split_rows in Hload.
  destruct (for_up 0 _ _ ([], [])) as [tr|] eqn:Htrain in Hload; [|done].
  bind_step Hload.
  destruct (for_up _ _ _ ([], [])) as [va|] in Hload; [|done].
  bind_step Hload. injection Hload as <-. cbn [fst].
  destruct (push_loop_inv _ _ _ _ _ _ _ Htrain) as (ks & Hks & Hin & Htr & _).
  assert (1 <= Int_part (INR (length inputs) * 0.90))%Z as Hpos
    by (apply Int_part_positive; lra).
  destruct ks as [|k ks]; [simpl in Hks; lia|].
  rewrite Htr. simpl. eexists _, _. split; [done|].
  apply Forall_cons in Hin as [[Hk _] _].
  by apply Forall_lookup_total_1.
Qed.
End LoaderReal.

(** ** The update of the output layer *)

Section UpdateRule.
Context {D : Type} `{DoubleOps D}.
Implicit Types (ns : list (Neuron D)) (prev back : Layer D).

(** The neuron [n] after an update with the delta [delta], [prev] the
    neurons of the layer before it. *)
Lemma update_weights_zip k (ws : list D) (prev : list (Neuron D)) lr delta
    ws' :
  update_weights k ws prev lr delta = Some ws' ->
  ws' = zip_with (fun w p => dsub w (dmul (dmul lr delta) (value p)))
          ws (drop k prev).
Proof.
  revert k ws'. induction ws as [|w ws IH]; intros k ws' Hrun;
    simpl in Hrun; [by injection Hrun as <-|].
  destruct (prev !! k) as [p|] eqn:Hp; [|done]. bind_step Hrun.
  destruct (update_weights (S k) ws prev lr delta) as [ws''|] eqn:Hrest;
    [|done].
  bind_step Hrun. injection Hrun as <-.
  rewrite (drop_S _ _ _ Hp). simpl. by rewrite (IH _ _ Hrest).
Qed.

Lemma output_deltas_lookup i ns (t ds : list D) :
  output_deltas i ns t = Some ds ->
  forall j n, ns !! j = Some n ->
    exists tj, t !! (i + j) = Some tj /\ ds !! j = Some (dsub (value n) tj).
Proof.
  revert i ds. induction ns as [|n0 ns IH]; intros i ds Hrun j n Hj;
    [done|].
  simpl in Hrun.
  destruct (t !! i) as [ti|] eqn:Hti; [|done]. bind_step Hrun.
  destruct (output_deltas (S i) ns t) as [ds'|] eqn:Hrest; [|done].
  bind_step Hrun. injection Hrun as <-.
  destruct j as [|j]; simpl in Hj.
  - injection Hj as <-. exists ti. by rewrite Nat.add_0_r.
  - destruct (IH _ _ Hrest j n Hj) as (tj & Htj & Hds).
    exists tj. split; [|done]. by replace (i + S j) with (S i + j) by lia.
Qed.

Lemma update_neurons_lookup j0 ns (f : nat -> option D)
    (prev : list (Neuron D)) lr ns' :
  update_neurons j0 ns f prev lr = Some ns' ->
  length ns' = length ns
  /\ forall j n, ns !! j = Some n ->
       exists delta, f (j0 + j) = Some delta
         /\ ns' !! j
            = Some (mkNeuron (value n)
                      (zip_with
                         (fun w p => dsub w (dmul (dmul lr delta) (value p)))
                         (weights n) prev)
                      (dsub (bias n) (dmul lr delta))).
Proof.
  revert j0 ns'. induction ns as [|n0 ns IH]; intros j0 ns' Hrun;
    simpl in Hrun; [by injection Hrun as <-|].
  destruct (f j0) as [delta|] eqn:Hd; [|done]. bind_step Hrun.
  destruct (update_weights 0 (weights n0) prev lr delta) as [ws|] eqn:Hws;
    [|done].
  bind_step Hrun.
  destruct (update_neurons (S j0) ns f prev lr) as [ns''|] eqn:Hrest; [|done].
  bind_step Hrun. injection Hrun as <-.
  destruct (IH _ _ Hrest) as [Hlen Hall]. split; [simpl; by rewrite Hlen|].
  intros [|j] n Hj; simpl in Hj.
  - injection Hj as <-. exists delta. rewrite Nat.add_0_r. split; [done|].
    simpl. by rewrite (update_weights_zip _ _ _ _ _ _ Hws), drop_0.
  - destruct (Hall j n Hj) as (d & Hfd & Hn). exists d.
    split; [by replace (j0 + S j) with (S j0 + j) by lia|done].
Qed.

Lemma last_cons_default {A : Type} (a : A) (l : list A) :
  last (a :: l) = Some (default a (last l)).
Proof.
  revert a. induction l as [|b l IH]; intros a; [done|].
  change (last (a :: b :: l)) with (last (b :: l)). rewrite IH.
  by destruct l.
Qed.

Lemma update_from_last prev (mid : list (Layer D)) back
    (dmid : list (list D)) dlast lr rest' :
  length dmid = length mid ->
  update_from prev (mid ++ [back]) (dmid ++ [dlast]) lr = Some rest' ->
  exists ns',
    update_neurons 0 (neurons back) (fun j => dlast !! j)
      (neurons (default prev (last mid))) lr = Some ns'
    /\ last rest' = Some (mkLayer ns').
Proof.
  revert prev dmid rest'. induction mid as [|m mid IH];
    intros prev dmid rest' Hlen Hrun.
  - destruct dmid; [|done]. simpl in Hrun.
    destruct (update_neurons 0 (neurons back) _ (neurons prev) lr)
      as [ns'|] eqn:Hns; [|done].
    bind_step Hrun. injection Hrun as <-. by exists ns'.
  - destruct dmid as [|d dmid]; [done|].
    change ((m :: mid) ++ [back]) with (m :: (mid ++ [back])) in Hrun.
    change ((d :: dmid) ++ [dlast]) with (d :: (dmid ++ [dlast])) in Hrun.
    rewrite update_from_cons in Hrun.
    destruct (update_neurons 0 (neurons m) _ (neurons prev) lr) as [ns|];
      [|done].
    bind_step Hrun.
    destruct (update_from m (mid ++ [back]) (dmid ++ [dlast]) lr)
      as [rest''|] eqn:Hrest; [|done].
    bind_step Hrun. injection Hrun as <-.
    destruct (IH m dmid rest'' ltac:(simpl in Hlen; lia) Hrest)
      as (ns' & Hns' & Hlast).
    exists ns'. rewrite last_cons_default. cbn [default from_option].
    split; [done|]. rewrite last_cons_default, Hlast. done.
Qed.

Lemma backPropagation_output (net net' : NeuralNetwork D) (t : list D)
    l0 (mid : list (Layer D)) back :
  layers net = l0 :: mid ++ [back] ->
  backPropagation net t = Some net' ->
  exists back',
    last (layers net') = Some back'
    /\ length (neurons back') = length (neurons back)
    /\ forall j n, neurons back !! j = Some n ->
         exists tj, t !! j = Some tj
           /\ neurons back' !! j
              = Some (mkNeuron (value n)
                        (zip_with
                           (fun w p =>
                              dsub w (dmul (dmul (learningRate net)
                                                (dsub (value n) tj))
                                        (value p)))
                           (weights n) (neurons (default l0 (last mid))))
                        (dsub (bias n)
                           (dmul (learningRate net) (dsub (value n) tj)))).
Proof.
  intros Hls Hrun. rewrite backPropagation_unfold, Hls in Hrun.
  rewrite last_cons_default, last_snoc in Hrun.
  change (default l0 (Some back)) with back in Hrun. bind_step Hrun.
  destruct (output_deltas 0 (neurons back) t) as [od|] eqn:Hod; [|done].
  bind_step Hrun.
  destruct (deltas_from (l0 :: mid ++ [back]) od) as [hd|] eqn:Hhd; [|done].
  bind_step Hrun.
  destruct (update_from l0 (mid ++ [back]) (drop 1 hd ++ [od])
              (learningRate net)) as [rest'|] eqn:Hup; [|done].
  bind_step Hrun. injection Hrun as <-. cbn [layers].
  pose proof (deltas_from_length _ _ _ Hhd) as Hlen.
  simpl in Hlen. rewrite length_app in Hlen. simpl in Hlen.
  assert (length (drop 1 hd) = length mid) as Hdrop
    by (rewrite length_drop; lia).
  destruct (update_from_last _ _ _ _ _ _ _ Hdrop Hup) as (ns' & Hns' & Hlast).
  destruct (update_neurons_lookup _ _ _ _ _ _ Hns') as [Hlen' Hall].
  exists (mkLayer ns'). rewrite last_cons_default, Hlast.
  split; [done|]. split; [done|]. intros j n Hj.
  destruct (Hall j n Hj) as (delta & Hd & Hn). simpl in Hd.
  destruct (output_deltas_lookup _ _ _ _ Hod j n Hj) as (tj & Htj & Hdj).
  simpl in Htj. rewrite Hdj in Hd. injection Hd as <-.
  exists tj. done.
Qed.
End UpdateRule.

(** ** Where training is defined *)

Section TrainDefined.
Context {D : Type} `{DoubleOps D}.
Implicit Types (net : NeuralNetwork D) (ls rest : list (Layer D))
  (ns cur next prev : list (Neuron D)).














End TrainDefined.




(** ** Hidden activations in any arithmetic *)

Section HiddenRange.
Context {D : Type} `{DoubleOps D}.

Lemma relu_range (v : D) : relu v = d0 \/ dlt d0 (relu v) = true.
Proof. unfold relu. destruct (dlt d0 v) eqn:Hv; [by right|by left]. Qed.

Lemma fire_hidden_range (prev : Layer D) n n' :
  fire prev false n = Some n' ->
  value n' = d0 \/ dlt d0 (value n') = true.
Proof.
  unfold fire. intros Hrun.
  destruct (weighted_sum 0 (neurons prev) (weights n) d0); [|done].
  bind_step Hrun. injection Hrun as <-. apply relu_range.
Qed.

(** Every layer the loop activates, but the last, holds values of ReLU. *)
Lemma forward_from_hidden_range (prev : Layer D) rest rest' i
    (hidden : Layer D) :
  forward_from prev rest = Some rest' ->
  S i < length rest' -> rest' !! i = Some hidden ->
  Forall (fun v => v = d0 \/ dlt d0 v = true) (getOutputs hidden).
Proof.
  revert prev rest' i. induction rest as [|cur rest IH];
    intros prev rest' i Hrun Hi Hl; simpl in Hrun; [by simplify_eq/=|].
  destruct (mapM _ (neurons cur)) as [ns|] eqn:Hns; simplify_eq/=.
  case_bool_decide as Hrest.
  - subst rest.
    destruct (softmax (map value ns)); simplify_eq/=.
    destruct (store_outputs 0 ns _); simplify_eq/=. lia.
  - simpl in Hrun.
    destruct (forward_from (mkLayer ns) rest) as [rest''|] eqn:E;
      simplify_eq/=.
    destruct i as [|i]; simplify_eq/=.
    + unfold getOutputs. simpl. apply mapM_Some_1 in Hns.
      clear -Hns. induction Hns as [|n n' ns0 ns' Hn _ IHn]; simpl;
        [by constructor|].
      constructor; [by eapply fire_hidden_range|done].
    + eapply IH; [done| |done]. lia.
Qed.
End HiddenRange.

(** ** The normalisation, entry by entry *)

Section NormalizeEntries.
Context {D : Type} `{DoubleOps D} `{LoaderOps D}.
Implicit Types (row sums : list D) (inputs : list (list D)).

(** A sum of rows, column by column: [F] is what is added for a row. *)
Lemma fold_columns (F : list D -> list D) (phi : D -> D) w j inputs sums s :
  (forall row, length row = w ->
     length (F row) = w /\ F row !! j = Some (phi (nth j row d0))) ->
  Forall (fun row => length row = w) inputs ->
  length sums = w -> sums !! j = Some s ->
  foldl (fun acc row => zip_with dadd acc (F row)) sums inputs !! j
  = Some (foldl dadd s (map phi (column_of j inputs))).
Proof.
  intros HF Hw. revert sums s. induction Hw as [|row inputs Hrow _ IH];
    intros sums s Hlen Hs; [done|].
  destruct (HF row Hrow) as [HlenF HjF]. simpl.
  apply IH.
  - rewrite length_zip_with. lia.
  - rewrite lookup_zip_with, Hs. simpl. by rewrite HjF.
Qed.

Lemma nth_lookup_Some_eq row j x : row !! j = Some x -> nth j row d0 = x.
Proof. intros Hx. by rewrite nth_lookup, Hx. Qed.

Lemma normalize_means inputs j :
  Forall (fun row => length row = 4) inputs -> j < 4 ->
  map (fun m => ddiv m (dof_nat (length inputs)))
    (foldl (zip_with dadd) (replicate 4 d0) inputs) !! j
  = Some (column_mean j inputs).
Proof.
  intros Hw Hj. rewrite map_fmap, list_lookup_fmap.
  rewrite (fold_columns (fun row => row) (fun x => x) 4 j inputs
             (replicate 4 d0) d0); [| |done|done|].
  - unfold column_mean. simpl. by rewrite map_id.
  - intros row Hrow. split; [done|].
    destruct (lookup_lt_is_Some_2 row j) as [x Hx]; [lia|].
    by rewrite (nth_lookup_Some_eq _ _ _ Hx).
  - by apply lookup_replicate_2.
Qed.

Lemma normalize_devs inputs j (means : list D) m :
  Forall (fun row => length row = 4) inputs -> j < 4 ->
  length means = 4 -> means !! j = Some m ->
  map (fun s => dsqrt (ddiv s (dof_nat (length inputs))))
    (foldl (fun acc row =>
              zip_with dadd acc
                (zip_with (fun x m => dpow2 (dsub x m)) row means))
       (replicate 4 d0) inputs) !! j
  = Some (dsqrt (ddiv (foldl dadd d0
                         (map (fun x => dpow2 (dsub x m))
                            (column_of j inputs)))
                   (dof_nat (length inputs)))).
Proof.
  intros Hw Hj Hlen Hm. rewrite map_fmap, list_lookup_fmap.
  rewrite (fold_columns
             (fun row => zip_with (fun x m => dpow2 (dsub x m)) row means)
             (fun x => dpow2 (dsub x m)) 4 j inputs (replicate 4 d0) d0);
    [done| |done|done|by apply lookup_replicate_2].
  intros row Hrow. split; [rewrite length_zip_with; lia|].
  destruct (lookup_lt_is_Some_2 row j) as [x Hx]; [lia|].
  rewrite lookup_zip_with, Hx, (nth_lookup_Some_eq _ _ _ Hx). simpl.
  by rewrite Hm.
Qed.
End NormalizeEntries.

(** * Further properties of the code *)

(** X1.  A forward pass leaves every weight, every bias and the learning
    rate as they were, and a second pass on the same input changes nothing
    any more; [predict] on the network it leaves gives what [predict] gave
    before it. *)
Theorem forward_pass_repeatable {D : Type} `{DoubleOps D}
    (net net' : NeuralNetwork D) (x : list D) :
  forwardPropagation net x = Some net' ->
  parameters net' = parameters net
  /\ forwardPropagation net' x = Some net'
  /\ predict net' x = predict net x.
Proof.
  intros Hrun. pose proof (forward_params_kept _ _ _ Hrun) as Hp.
  split; [done|]. split; [by apply (forward_again net)|].
  by apply predict_params.
Qed.

Lemma forward_pass_repeatable_witness :
  let net := mkNetwork [mkLayer [mkNeuron 0%R [] 0%R];
                        mkLayer [mkNeuron 0%R [2%R] 1%R]] 0.5%R in
  exists net',
    forwardPropagation net [3%R] = Some net'
    /\ parameters net' = parameters net
    /\ forwardPropagation net' [3%R] = Some net'
    /\ predict net' [3%R] = predict net [3%R].
Proof.
  intros net. eexists. split; [reflexivity|].
  apply (forward_pass_repeatable (D:=R) net _ [3%R]). reflexivity.
Defined.

(** X2.  The activations a network still holds from an earlier pass are
    never an input of inference: two networks with the same weights, biases
    and learning rate are given the same class by [predict] and the same
    accuracy by [evaluateAccuracy], and leave the same network behind
    whenever a forward pass is run at all. *)
Theorem inference_ignores_activations {D : Type} `{DoubleOps D}
    (net1 net2 : NeuralNetwork D) (x : list D)
    (inputs outputs : list (list D)) :
  parameters net1 = parameters net2 ->
  predict net1 x = predict net2 x
  /\ snd <$> evaluateAccuracy net1 inputs outputs
     = snd <$> evaluateAccuracy net2 inputs outputs
  /\ (inputs <> [] ->
      evaluateAccuracy net1 inputs outputs
      = evaluateAccuracy net2 inputs outputs).
Proof.
  intros Hp. split; [by apply predict_params|].
  destruct (evaluateAccuracy_params net1 net2 inputs outputs Hp). done.
Qed.

Lemma inference_ignores_activations_witness :
  let net1 := mkNetwork [mkLayer [mkNeuron 0%R [] 0%R];
                         mkLayer [mkNeuron 0%R [2%R] 1%R]] 0.5%R in
  let net2 := mkNetwork [mkLayer [mkNeuron 7%R [] 0%R];
                         mkLayer [mkNeuron 9%R [2%R] 1%R]] 0.5%R in
  parameters net1 = parameters net2
  /\ predict net1 [3%R] = predict net2 [3%R]
  /\ snd <$> evaluateAccuracy net1 [[3%R]] [[1%R]]
     = snd <$> evaluateAccuracy net2 [[3%R]] [[1%R]]
  /\ ([[3%R]] <> [] ->
      evaluateAccuracy net1 [[3%R]] [[1%R]]
      = evaluateAccuracy net2 [[3%R]] [[1%R]]).
Proof.
  intros net1 net2. split; [reflexivity|].
  apply (inference_ignores_activations (D:=R) net1 net2). reflexivity.
Defined.

(** X3.  [evaluateAccuracy] trains nothing: the network it leaves holds the
    weights, biases and learning rate it was given, and evaluating that
    network on the same samples returns the same accuracy. *)
Theorem evaluateAccuracy_repeatable {D : Type} `{DoubleOps D}
    (net net' : NeuralNetwork D) (inputs outputs : list (list D)) (acc : D) :
  evaluateAccuracy net inputs outputs = Some (net', acc) ->
  parameters net' = parameters net
  /\ snd <$> evaluateAccuracy net' inputs outputs = Some acc.
Proof.
  intros Hrun. pose proof (evaluateAccuracy_params_kept _ _ _ _ _ Hrun) as Hp.
  split; [done|].
  destruct (evaluateAccuracy_params net' net inputs outputs Hp) as [_ ->].
  by rewrite Hrun.
Qed.

Lemma evaluateAccuracy_repeatable_witness :
  let net := mkNetwork [mkLayer [mkNeuron 0%R [] 0%R];
                        mkLayer [mkNeuron 0%R [2%R] 1%R]] 0.5%R in
  exists net' acc,
    evaluateAccuracy net [[3%R]] [[1%R]] = Some (net', acc)
    /\ parameters net' = parameters net
    /\ snd <$> evaluateAccuracy net' [[3%R]] [[1%R]] = Some acc.
Proof.
  intros net. eexists _, _. split; [reflexivity|].
  apply (evaluateAccuracy_repeatable (D:=R) net _ [[3%R]] [[1%R]]).
  reflexivity.
Defined.

(** X4.  Backward propagation changes weights and biases only: every
    activation, the number of weights of every neuron and the learning rate
    are as before. *)
Theorem backPropagation_keeps_activations {D : Type} `{DoubleOps D}
    (net net' : NeuralNetwork D) (t : list D) :
  backPropagation net t = Some net' ->
  activations net' = activations net
  /\ shape net' = shape net
  /\ learningRate net' = learningRate net.
Proof. apply backward_kept. Qed.

Lemma backPropagation_keeps_activations_witness :
  let net := mkNetwork [mkLayer [mkNeuron 3%R [] 0%R];
                        mkLayer [mkNeuron 1%R [2%R] 1%R]] 0.5%R in
  exists net',
    backPropagation net [0%R] = Some net'
    /\ activations net' = activations net
    /\ shape net' = shape net
    /\ learningRate net' = learningRate net.
Proof.
  intros net. eexists. split; [reflexivity|].
  apply (backPropagation_keeps_activations (D:=R) net _ [0%R]). reflexivity.
Defined.

(** X5.  Training never changes the architecture: after any number of
    epochs the network has the layers, the neurons per layer, the weights
    per neuron and the learning rate it started with; in particular it fits
    its layer sizes exactly when it did before. *)
Theorem train_keeps_architecture {D : Type} `{DoubleOps D}
    (net net' : NeuralNetwork D) (inputs targets : list (list D))
    (epochs : Z) :
  train net inputs targets epochs = Some net' ->
  shape net' = shape net
  /\ learningRate net' = learningRate net
  /\ forall w, shaped w (layers net') = shaped w (layers net).
Proof.
  intros Hrun. destruct (train_shape _ _ _ _ _ Hrun) as [Hs Hlr].
  split; [done|]. split; [done|]. intros w. by apply shaped_shape.
Qed.

Lemma train_keeps_architecture_witness :
  let net := mkNetwork [mkLayer [mkNeuron 0%R [] 0%R];
                        mkLayer [mkNeuron 0%R [2%R] 1%R]] 0.5%R in
  exists net',
    train net [[3%R]] [[0%R]] 1 = Some net'
    /\ shape net' = shape net
    /\ learningRate net' = learningRate net
    /\ forall w, shaped w (layers net') = shaped w (layers net).
Proof.
  intros net. eexists. split; [reflexivity|].
  apply (train_keeps_architecture (D:=R) net _ [[3%R]] [[0%R]] 1).
  reflexivity.
Defined.

(** X6.  Samples without a target: [train] and [evaluateAccuracy] subscript
    the targets at every index of the inputs, so with fewer targets than
    inputs [evaluateAccuracy], and [train] for a positive number of epochs,
    read past the end of the targets. *)
Theorem samples_without_targets {D : Type} `{DoubleOps D}
    (net : NeuralNetwork D) (inputs targets : list (list D)) (epochs : Z) :
  length targets < length inputs ->
  evaluateAccuracy net inputs targets = None
  /\ ((0 < epochs)%Z -> train net inputs targets epochs = None).
Proof.
  intros Hlt. split.
  - unfold evaluateAccuracy.
    rewrite (for_up_None_at _ _ _ _ (length targets)); [done|lia|].
    intros st. apply evaluate_sample_no_output.
  - intros He. unfold train.
    destruct (Z.to_nat epochs) as [|e] eqn:E; [lia|]. cbn [for_up].
    rewrite (for_up_None_at _ _ _ _ (length targets)); [done|lia|].
    intros st. apply train_sample_no_target.
Qed.

Lemma samples_without_targets_witness :
  let net := mkNetwork [mkLayer [mkNeuron 0%R [] 0%R];
                        mkLayer [mkNeuron 0%R [2%R] 1%R]] 0.5%R in
  length [[1%R]] < length [[3%R]; [4%R]]
  /\ evaluateAccuracy net [[3%R]; [4%R]] [[1%R]] = None
  /\ ((0 < 5)%Z -> train net [[3%R]; [4%R]] [[1%R]] 5 = None).
Proof.
  intros net. split; [simpl; lia|].
  apply (samples_without_targets (D:=R) net). simpl. lia.
Defined.

(** X7.  Epochs compose: training for [e1 + e2] epochs is training for [e1]
    epochs and then, from the network that leaves, for [e2] more. *)
Theorem train_epochs_compose {D : Type} `{DoubleOps D}
    (net : NeuralNetwork D) (inputs targets : list (list D)) (e1 e2 : Z) :
  (0 <= e1)%Z -> (0 <= e2)%Z ->
  train net inputs targets (e1 + e2)
  = net1 ← train net inputs targets e1; train net1 inputs targets e2.
Proof.
  intros H1 H2.
  remember (Z.to_nat e1) as n1 eqn:E1. remember (Z.to_nat e2) as n2 eqn:E2.
  assert (e1 = Z.of_nat n1) as Hn1 by lia.
  assert (e2 = Z.of_nat n2) as Hn2 by lia.
  rewrite Hn1, Hn2, <- Nat2Z.inj_add. apply train_add.
Qed.

Lemma train_epochs_compose_witness :
  let net := mkNetwork [mkLayer [mkNeuron 0%R [] 0%R];
                        mkLayer [mkNeuron 0%R [2%R] 1%R]] 0.5%R in
  (0 <= 2)%Z /\ (0 <= 3)%Z
  /\ train net [[3%R]] [[0%R]] (2 + 3)
     = net1 ← train net [[3%R]] [[0%R]] 2; train net1 [[3%R]] [[0%R]] 3.
Proof.
  intros net. split; [lia|]. split; [lia|].
  apply (train_epochs_compose (D:=R) net); lia.
Defined.

(** X8.  The layout the constructor builds from the sizes [s0, s1, ...]:
    one layer per size after the first; layer [k] has [s(k+1)] neurons with
    [s(k)] weights each, so the network fits its sizes; every activation is
    zero; the learning rate is the one given. *)
Theorem constructor_layout {D : Type} `{DoubleOps D} {G : Type}
    (dis : G -> D * G) (rd : nat -> G) (s0 : nat) (rest : list nat) (lr : D) :
  shape (NeuralNetwork_new dis rd (s0 :: rest) lr)
  = zip_with (fun p s => replicate s p) (s0 :: rest) rest
  /\ activations (NeuralNetwork_new dis rd (s0 :: rest) lr)
     = map (fun s => replicate s d0) rest
  /\ shaped s0 (layers (NeuralNetwork_new dis rd (s0 :: rest) lr)) = true
  /\ learningRate (NeuralNetwork_new dis rd (s0 :: rest) lr) = lr.
Proof.
  unfold shape, activations. rewrite layers_new.
  destruct (build_layout dis rd 1 s0 rest) as [-> ->].
  split; [done|]. split; [done|]. split; [apply build_shaped|done].
Qed.

(** X9.  Whatever holds of every number the distribution draws holds of
    every weight and every bias of a constructed network: no weight and no
    bias comes from anywhere else. *)
Theorem constructor_draws {D : Type} `{DoubleOps D} {G : Type}
    (P : D -> Prop) (dis : G -> D * G) (rd : nat -> G) (sizes : list nat)
    (lr : D) :
  (forall g, P (dis g).1) ->
  Forall (Forall (fun p : list D * D => Forall P p.1 /\ P p.2))
    (parameters (NeuralNetwork_new dis rd sizes lr)).1.
Proof.
  intros HP. unfold parameters. cbn [fst].
  destruct sizes as [|s0 rest].
  - rewrite layers_new_nil by (simpl; lia). constructor.
  - rewrite layers_new. by apply build_parameters_range.
Qed.

Lemma constructor_draws_witness :
  let P := fun v : R => (-1 <= v < 1)%R in
  let dis := fun g : nat => ((if Nat.even g then 0.5 else -1)%R, S g) in
  (forall g, P (dis g).1)
  /\ Forall (Forall (fun p : list R * R => Forall P p.1 /\ P p.2))
       (parameters (NeuralNetwork_new dis (fun i => i) [4; 8; 3] 0.01%R)).1.
Proof.
  intros P dis.
  assert (forall g, P (dis g).1) as HP.
  { intros g. unfold P, dis. cbn [fst]. destruct (Nat.even g); lra. }
  split; [exact HP|].
  apply (constructor_draws (D:=R) P dis (fun i => i) [4; 8; 3] 0.01%R HP).
Defined.

(** X10.  Over the reals [relu] is never negative and is idempotent, and
    [reluDerivative] gives the same on an activation as on the sum the
    activation was computed from - which is what the backward pass, that
    only has the stored activation, relies on. *)
Theorem relu_stored_activation (v : R) :
  (0 <= relu v)%R
  /\ relu (relu v) = relu v
  /\ reluDerivative (relu v) = reluDerivative v.
Proof.
  split; [apply relu_nonneg|]. split; [|apply reluDerivative_relu].
  rewrite !relu_real. apply Rmax_right. apply Rmax_l.
Qed.

(** X12.  In any arithmetic, what a forward pass leaves in a layer between
    the first and the last is a value of ReLU: each activation is the zero
    of [relu], or [0 < activation] holds.  In binary64 no such activation is
    negative or a NaN. *)
Theorem forward_hidden_activations {D : Type} `{DoubleOps D}
    (net net' : NeuralNetwork D) (x : list D) :
  forwardPropagation net x = Some net' ->
  forall i hidden,
    0 < i -> S i < length (layers net') ->
    layers net' !! i = Some hidden ->
    Forall (fun v => v = d0 \/ dlt d0 v = true) (getOutputs hidden).
Proof.
  intros Hrun. rewrite forwardPropagation_unfold in Hrun.
  destruct (layers net) as [|l0 rest]; [done|].
  destruct (set_input_values 0 (neurons l0) x) as [ns0|]; [|done].
  bind_step Hrun.
  destruct (forward_from (mkLayer ns0) rest) as [rest'|] eqn:Hfrom; [|done].
  bind_step Hrun. injection Hrun as <-.
  intros [|i] hidden Hi Hlast Hat; [lia|]. simpl in Hat, Hlast.
  apply (forward_from_hidden_range _ _ _ i hidden Hfrom); [lia|done].
Qed.

Lemma forward_hidden_activations_witness :
  let net := mkNetwork [mkLayer [mkNeuron 0%R [] 0%R];
                        mkLayer [mkNeuron 0%R [2%R] (-7)%R;
                                 mkNeuron 0%R [1%R] 1%R];
                        mkLayer [mkNeuron 0%R [2%R; 3%R] 1%R]] 0.5%R in
  exists net',
    forwardPropagation net [3%R] = Some net'
    /\ forall i hidden,
         0 < i -> S i < length (layers net') ->
         layers net' !! i = Some hidden ->
         Forall (fun v => v = 0%R \/ Rltb 0 v = true) (getOutputs hidden).
Proof.
  intros net. eexists. split; [reflexivity|].
  exact (forward_hidden_activations (D:=R) net _ [3%R] eq_refl).
Defined.

(** X13.  Over the reals the accuracy [evaluateAccuracy] returns for at
    least one sample lies in [0, 1]. *)
Theorem accuracy_range (net net' : NeuralNetwork R)
    (inputs outputs : list (list R)) (acc : R) :
  inputs <> [] ->
  evaluateAccuracy net inputs outputs = Some (net', acc) ->
  (0 <= acc <= 1)%R.
Proof.
  intros Hin Hrun. unfold evaluateAccuracy in Hrun.
  destruct (for_up 0 (length inputs) (evaluate_sample inputs outputs) (net, 0))
    as [st|] eqn:Hloop; [|done].
  bind_step Hrun. injection Hrun as _ <-.
  pose proof (evaluate_loop_count _ _ _ _ _ _ Hloop) as Hcount.
  cbn [snd dof_nat ddiv R_DoubleOps] in *.
  assert (0 < INR (length inputs))%R as Hn.
  { apply lt_0_INR. destruct inputs; [done|simpl; lia]. }
  pose proof (pos_INR st.2) as Hc.
  assert (INR st.2 <= INR (length inputs))%R as Hle by (apply le_INR; lia).
  apply Rdiv_unit; lra.
Qed.

Lemma accuracy_range_witness :
  let net := mkNetwork [mkLayer [mkNeuron 0%R [] 0%R];
                        mkLayer [mkNeuron 0%R [2%R] 1%R]] 0.5%R in
  [[3%R]] <> []
  /\ exists net' acc,
       evaluateAccuracy net [[3%R]] [[1%R]] = Some (net', acc)
       /\ (0 <= acc <= 1)%R.
Proof.
  intros net. split; [done|]. eexists _, _. split; [reflexivity|].
  eapply (accuracy_range net _ [[3%R]] [[1%R]]); [done|reflexivity].
Defined.

(** X14.  Reading a class back from a one-hot target: the position
    [max_element] finds in the vector of [n] zeros with a one at [k] is
    [k]. *)
Theorem one_hot_class (n k : nat) :
  k < n -> max_element Rltb (one_hot (D:=R) n k) = k.
Proof.
  intros Hk. unfold one_hot. real_ops.
  set (l := <[k := 1%R]> (replicate n 0%R)).
  assert (l !! k = Some 1%R) as Hlk.
  { apply list_lookup_insert_eq. by rewrite length_replicate. }
  assert (forall j u, l !! j = Some u -> j <> k -> u = 0%R) as Hother.
  { intros j u Hj Hne. unfold l in Hj.
    rewrite list_lookup_insert_ne in Hj by done.
    by apply lookup_replicate_1 in Hj as [-> _]. }
  assert (l <> []) as Hne by (by intros Hnil; rewrite Hnil in Hlk).
  destruct (max_element_first_maximum l Hne) as (m & Hm & Hle & Hlt).
  destruct (decide (max_element Rltb l = k)) as [|Hc]; [done|].
  pose proof (Hother _ _ Hm Hc) as ->.
  specialize (Hle _ _ Hlk). lra.
Qed.

Lemma one_hot_class_witness :
  2 < 3 /\ max_element Rltb (one_hot (D:=R) 3 2) = 2.
Proof. split; [lia|]. apply (one_hot_class 3 2). lia. Defined.

(** X15.  A line of four comma-free fields and a label: an empty field and
    a field [stod] rejects as no number leave 0 in the feature and the line
    is kept; the label decides the target - one of the three class names
    gives the one-hot vector of its class, any other text drops the line. *)
Theorem parse_line_well_formed {D : Type} `{DoubleOps D}
    (stod : string -> stod_result D) (f0 f1 f2 f3 label : string) :
  lacks ","%char f0 = true -> lacks ","%char f1 = true ->
  lacks ","%char f2 = true -> lacks ","%char f3 = true ->
  lacks "010"%char label = true ->
  field_in_range stod f0 = true -> field_in_range stod f1 = true ->
  field_in_range stod f2 = true -> field_in_range stod f3 = true ->
  parse_line stod (csv_line f0 f1 f2 f3 label)
  = match label_class label with
    | Some k =>
        line_row [field_value stod f0; field_value stod f1;
                  field_value stod f2; field_value stod f3] (one_hot 3 k)
    | None => line_skipped
    end.
Proof.
  intros H0' H1' H2' H3' Hl R0 R1 R2 R3. unfold parse_line, csv_line.
  cbn [for_up]. rewrite read_field_value by done. cbn [mbind option_bind].
  rewrite read_field_value by done. cbn [mbind option_bind].
  rewrite read_field_value by done. cbn [mbind option_bind].
  rewrite read_field_value by done. cbn [mbind option_bind].
  rewrite (getline_last _ _ Hl). unfold label_class. simpl.
  by repeat case_bool_decide.
Qed.

Lemma parse_line_well_formed_witness :
  lacks ","%char "5.1" = true /\ lacks ","%char "" = true
  /\ lacks ","%char "x" = true /\ lacks ","%char "0.25" = true
  /\ lacks "010"%char "Iris-versicolor" = true
  /\ field_in_range stod_example "5.1" = true
  /\ field_in_range stod_example "" = true
  /\ field_in_range stod_example "x" = true
  /\ field_in_range stod_example "0.25" = true
  /\ parse_line stod_example "5.1,,x,0.25,Iris-versicolor"
     = line_row [INR 3; 0%R; 0%R; INR 4] [0%R; 1%R; 0%R].
Proof.
  repeat (split; [reflexivity|]).
  exact (parse_line_well_formed stod_example "5.1" "" "x" "0.25"
           "Iris-versicolor" eq_refl eq_refl eq_refl eq_refl eq_refl
           eq_refl eq_refl eq_refl eq_refl).
Defined.

(** X16.  Only [invalid_argument] is caught: one line of four comma-free
    fields and a label with a field that [stod] rejects as out of range
    makes the loader, and with it [main], end in an exception - whatever
    the other lines hold. *)
Theorem out_of_range_field_aborts {D : Type} `{DoubleOps D} `{LoaderOps D}
    {G : Type} (stod : string -> stod_result D)
    (shuffle : list nat -> list nat) (dis : G -> D * G) (rd : nat -> G)
    (lines : list string) (f0 f1 f2 f3 label : string)
    (trainInputs trainOutputs validationInputs validationOutputs
       : list (list D)) (trainSplit validationSplit : D) :
  csv_line f0 f1 f2 f3 label ∈ lines ->
  lacks ","%char f0 = true -> lacks ","%char f1 = true ->
  lacks ","%char f2 = true -> lacks ","%char f3 = true ->
  field_in_range stod f0 && field_in_range stod f1
  && field_in_range stod f2 && field_in_range stod f3 = false ->
  loadIrisDataset stod shuffle lines trainInputs trainOutputs
    validationInputs validationOutputs trainSplit validationSplit = None
  /\ main_program stod shuffle dis rd lines = None.
Proof.
  intros Hin H0' H1' H2' H3' Hrange.
  pose proof (parse_line_csv_thrown stod f0 f1 f2 f3 label H0' H1' H2' H3'
                Hrange) as Hline.
  assert (forall inputs outputs,
            read_rows stod lines inputs outputs = None) as Hread.
  { intros inputs outputs. by apply (read_rows_thrown stod lines _ _ _ Hin). }
  assert (forall tI tO vI vO ts vs,
            loadIrisDataset stod shuffle lines tI tO vI vO ts vs = None)
    as Hload.
  { intros. unfold loadIrisDataset. by rewrite Hread. }
  split; [apply Hload|]. unfold main_program. by rewrite Hload.
Qed.

Lemma out_of_range_field_aborts_witness :
  let lines := ["5.1,3.5,1.4,0.2,Iris-setosa"%string;
                "3.0,1.4,1e999,0.2,Iris-setosa"%string] in
  let dis := fun g : nat => (0.5%R, S g) in
  csv_line "3.0" "1.4" "1e999" "0.2" "Iris-setosa" ∈ lines
  /\ lacks ","%char "3.0" = true /\ lacks ","%char "1.4" = true
  /\ lacks ","%char "1e999" = true /\ lacks ","%char "0.2" = true
  /\ field_in_range stod_example "3.0" && field_in_range stod_example "1.4"
     && field_in_range stod_example "1e999"
     && field_in_range stod_example "0.2" = false
  /\ loadIrisDataset stod_example (fun l => l) lines [] [] [] []
       0.90%R 0.1%R = None
  /\ main_program stod_example (fun l => l) dis (fun i => i) lines = None.
Proof.
  intros lines dis.
  assert (csv_line "3.0" "1.4" "1e999" "0.2" "Iris-setosa" ∈ lines) as Hin
    by (right; left).
  split; [exact Hin|]. do 5 (split; [reflexivity|]).
  apply (out_of_range_field_aborts stod_example (fun l => l) dis
           (fun i => i) lines "3.0" "1.4" "1e999" "0.2" "Iris-setosa"
           [] [] [] [] 0.90%R 0.1%R Hin); reflexivity.
Defined.

(** X17.  What the loader hands back, whatever the shuffle did: the four
    vectors it was given, each with new entries appended; as many new
    training inputs as training targets and as many new validation inputs
    as validation targets; every new input has four entries and every new
    target is a one-hot vector of three. *)
Theorem loaded_samples_shape {D : Type} `{DoubleOps D} `{LoaderOps D}
    (stod : string -> stod_result D) (shuffle : list nat -> list nat)
    (lines : list string)
    (trainInputs trainOutputs validationInputs validationOutputs
       : list (list D)) (trainSplit validationSplit : D)
    (trainInputs' trainOutputs' validationInputs' validationOutputs'
       : list (list D)) :
  loadIrisDataset stod shuffle lines trainInputs trainOutputs
    validationInputs validationOutputs trainSplit validationSplit
  = Some (trainInputs', trainOutputs',
          (validationInputs', validationOutputs')) ->
  exists newTI newTO newVI newVO,
    trainInputs' = trainInputs ++ newTI
    /\ trainOutputs' = trainOutputs ++ newTO
    /\ validationInputs' = validationInputs ++ newVI
    /\ validationOutputs' = validationOutputs ++ newVO
    /\ length newTI = length newTO /\ length newVI = length newVO
    /\ Forall (fun row => length row = 4) (newTI ++ newVI)
    /\ Forall (fun o => exists k, k < 3 /\ o = one_hot 3 k) (newTO ++ newVO).
Proof.
  unfold loadIrisDataset. intros Hload.
  destruct (read_rows stod lines [] []) as [[rows targets]|] eqn:Hread;
    [|done].
  destruct (loader_rows _ _ _ _ Hread)
    as (Htargets & _ & Hhot & inputs & Hnorm & Hlen & Hwide).
  bind_step Hload. cbn [fst snd] in Hload. rewrite Hnorm in Hload.
  bind_step Hload.
  destruct (dto_size (dmul (dof_nat (length inputs)) trainSplit)) as [a|];
    [|done].
  bind_step Hload.
  destruct (dto_size (dmul (dof_nat (length inputs)) validationSplit))
    as [b|]; [|done].
  bind_step Hload. unfold split_rows in Hload.
  destruct (for_up 0 a (push_sample (shuffle (seq 0 (length inputs))) inputs
                          targets) (trainInputs, trainOutputs))
    as [tr|] eqn:Htrain; [|done].
  bind_step Hload.
  destruct (for_up a b (push_sample (shuffle (seq 0 (length inputs))) inputs
                          targets) (validationInputs, validationOutputs))
    as [va|] eqn:Hval; [|done].
  bind_step Hload. destruct tr as [tI tO], va as [vI vO].
  injection Hload as <- <- <- <-.
  destruct (push_loop_inv _ _ _ _ _ _ _ Htrain)
    as (ks1 & Hks1 & Hin1 & Htr1 & Htr2).
  destruct (push_loop_inv _ _ _ _ _ _ _ Hval)
    as (ks2 & Hks2 & Hin2 & Hva1 & Hva2).
  cbn [fst snd] in *.
  exists (map (fun k => inputs !!! k) ks1), (map (fun k => targets !!! k) ks1),
    (map (fun k => inputs !!! k) ks2), (map (fun k => targets !!! k) ks2).
  rewrite !length_map.
  repeat split; [done..| |];
    apply Forall_app; split; apply Forall_lookup_total_map; try done;
    (eapply Forall_impl; [eassumption|]); intros k [Hk1 Hk2]; done.
Qed.

(** X18.  The split is a partition.  With [a] and [b] the two sizes the
    loader computes from the fractions, [a + b] within the number [n] of
    kept rows, and a shuffle that permutes the indices: the loader returns;
    of the normalised rows the first [a] in shuffled order are appended to
    the training vectors and the next [b] to the validation vectors, each
    with the target of its own line; no row is taken twice, so no sample is
    in both sets. *)
Theorem loadIrisDataset_partition {D : Type} `{DoubleOps D} `{LoaderOps D}
    (stod : string -> stod_result D) (shuffle : list nat -> list nat)
    (lines : list string) (rows targets : list (list D))
    (trainInputs trainOutputs validationInputs validationOutputs
       : list (list D)) (trainSplit validationSplit : D) (a b : nat) :
  read_rows stod lines [] [] = Some (rows, targets) ->
  Permutation (shuffle (seq 0 (length rows))) (seq 0 (length rows)) ->
  dto_size (dmul (dof_nat (length rows)) trainSplit) = Some a ->
  dto_size (dmul (dof_nat (length rows)) validationSplit) = Some b ->
  a + b <= length rows ->
  let indices := shuffle (seq 0 (length rows)) in
  exists inputs,
    normalize rows = Some inputs /\ length inputs = length rows
    /\ Forall (fun k => k < length rows) indices
    /\ NoDup (take a indices ++ take b (drop a indices))
    /\ loadIrisDataset stod shuffle lines trainInputs trainOutputs
         validationInputs validationOutputs trainSplit validationSplit
       = Some (trainInputs ++ map (fun k => inputs !!! k) (take a indices),
               trainOutputs ++ map (fun k => targets !!! k) (take a indices),
               (validationInputs
                ++ map (fun k => inputs !!! k) (take b (drop a indices)),
                validationOutputs
                ++ map (fun k => targets !!! k) (take b (drop a indices)))).
Proof.
  intros Hread Hperm Ha Hb Hfit indices. subst indices.
  destruct (loader_rows _ _ _ _ Hread)
    as (Htargets & _ & _ & inputs & Hnorm & Hlen & _).
  pose proof (Permutation_seq_bound _ _ Hperm) as Hbound.
  pose proof (Permutation_seq_NoDup _ _ Hperm) as Hnodup.
  assert (length (shuffle (seq 0 (length rows))) = length rows) as Hidx.
  { rewrite (Permutation_length Hperm). apply length_seq. }
  exists inputs. split; [done|]. split; [done|]. split; [done|]. split.
  { rewrite take_drop_app. eapply sublist_NoDup; [exact Hnodup|].
    apply sublist_take. }
  unfold loadIrisDataset. rewrite Hread. cbn [mbind option_bind fst snd].
  rewrite Hnorm. cbn [mbind option_bind]. rewrite Hlen, Ha, Hb.
  cbn [mbind option_bind]. unfold split_rows.
  assert (Forall (fun k => k < length inputs /\ k < length targets)
            (shuffle (seq 0 (length rows)))) as Hboth.
  { eapply Forall_impl; [exact Hbound|]. intros k Hk. cbv beta in Hk. lia. }
  rewrite (push_loop_Some _ _ _ 0 a);
    [|lia|by apply Forall_take, Forall_drop].
  cbn [mbind option_bind].
  rewrite (push_loop_Some _ _ _ a b);
    [|lia|by apply Forall_take, Forall_drop].
  cbn [mbind option_bind fst snd]. by rewrite drop_0.
Qed.

Lemma loadIrisDataset_partition_witness :
  let lines := ["5.1,3.5,1.4,0.2,Iris-setosa"%string;
                "# a comment"%string;
                "7.05,3.2,4.7,1.4,Iris-versicolor"%string] in
  exists rows targets,
    read_rows stod_example lines [] [] = Some (rows, targets)
    /\ Permutation (rev (seq 0 (length rows))) (seq 0 (length rows))
    /\ dto_size (dmul (dof_nat (length rows)) 0.5%R) = Some 1
    /\ dto_size (dmul (dof_nat (length rows)) 0.5%R) = Some 1
    /\ 1 + 1 <= length rows
    /\ let indices := rev (seq 0 (length rows)) in
       exists inputs,
         normalize rows = Some inputs /\ length inputs = length rows
         /\ Forall (fun k => k < length rows) indices
         /\ NoDup (take 1 indices ++ take 1 (drop 1 indices))
         /\ loadIrisDataset stod_example (@rev nat) lines [] [] [] []
              0.5%R 0.5%R
            = Some ([] ++ map (fun k => inputs !!! k) (take 1 indices),
                    [] ++ map (fun k => targets !!! k) (take 1 indices),
                    ([] ++ map (fun k => inputs !!! k)
                             (take 1 (drop 1 indices)),
                     [] ++ map (fun k => targets !!! k)
                             (take 1 (drop 1 indices)))).
Proof.
  intros lines. eexists _, _. split; [reflexivity|].
  assert (Permutation (rev (seq 0 2)) (seq 0 2)) as Hperm
    by (symmetry; apply Permutation_rev).
  assert (dto_size (dmul (INR 2) 0.5%R) = Some 1) as Hsize.
  { cbn [dmul R_DoubleOps]. rewrite dto_size_real by (simpl; lra).
    replace (INR 2 * 0.5)%R with (INR 1) by (simpl; lra).
    by rewrite Int_part_INR. }
  split; [exact Hperm|]. split; [exact Hsize|]. split; [exact Hsize|].
  split; [simpl; lia|].
  apply (loadIrisDataset_partition stod_example (@rev nat) lines _ _
           [] [] [] [] 0.5%R 0.5%R 1 1 eq_refl Hperm Hsize Hsize).
  simpl. lia.
Defined.

Lemma loaded_samples_shape_witness :
  let lines := ["5.1,3.5,1.4,0.2,Iris-setosa"%string;
                "7.05,3.2,4.7,1.4,Iris-versicolor"%string] in
  exists trainInputs' trainOutputs' validationInputs' validationOutputs',
    loadIrisDataset stod_example (fun l => l) lines [] [] [] [] 0.5%R 0.5%R
    = Some (trainInputs', trainOutputs',
            (validationInputs', validationOutputs'))
    /\ exists newTI newTO newVI newVO,
         trainInputs' = [] ++ newTI
         /\ trainOutputs' = [] ++ newTO
         /\ validationInputs' = [] ++ newVI
         /\ validationOutputs' = [] ++ newVO
         /\ length newTI = length newTO /\ length newVI = length newVO
         /\ Forall (fun row => length row = 4) (newTI ++ newVI)
         /\ Forall (fun o => exists k, k < 3 /\ o = one_hot (D:=R) 3 k)
              (newTO ++ newVO).
Proof.
  intros lines.
  destruct (loadIrisDataset_real stod_example (fun l => l) lines _ _
              [] [] [] [] 0.5%R 0.5%R (fun l => Permutation_refl l)
              ltac:(lra) ltac:(lra) ltac:(lra) eq_refl)
    as (inputs & _ & _ & _ & _ & _ & Hload).
  eexists _, _, _, _. split; [exact Hload|].
  exact (loaded_samples_shape stod_example (fun l => l) lines [] [] [] []
           0.5%R 0.5%R _ _ _ _ Hload).
Defined.

(** X19.  What the normalisation computes, in the arithmetic of the code:
    on a table of four-wide rows it returns a table of as many rows in
    which the entry [x] of column [j] has become
    [(x - mean_j) / deviation_j]; [mean_j] is the sum of the column divided
    by the number of rows and [deviation_j] the square root of the sum of
    the [pow(x - mean_j, 2)] divided by the number of rows, each sum
    accumulated from 0 in the order of the rows. *)
Theorem normalize_entries {D : Type} `{DoubleOps D} `{LoaderOps D}
    (inputs : list (list D)) :
  Forall (fun row => length row = 4) inputs ->
  exists rows,
    normalize inputs = Some rows
    /\ length rows = length inputs
    /\ forall i j row x,
         inputs !! i = Some row -> row !! j = Some x ->
         exists row',
           rows !! i = Some row'
           /\ row' !! j
              = Some (ddiv (dsub x (column_mean j inputs))
                        (column_dev j inputs)).
Proof.
  intros Hw. destruct (normalize_wide inputs Hw) as (Hm & Hs & Hrun).
  cbv zeta in Hm, Hs, Hrun. eexists. split; [exact Hrun|].
  split; [by rewrite length_map|].
  intros i j row x Hi Hj.
  assert (length row = 4) as Hrow
    by exact (Forall_lookup_1 _ _ _ _ Hw Hi).
  assert (j < 4) as Hj4.
  { rewrite <- Hrow. by eapply lookup_lt_Some. }
  eexists. split.
  { rewrite map_fmap, list_lookup_fmap, Hi. done. }
  cbv beta. rewrite lookup_zip_with, Hj. cbn [mbind option_bind].
  pose proof (normalize_means inputs j Hw Hj4) as Hmean.
  pose proof (normalize_devs inputs j _ _ Hw Hj4 Hm Hmean) as Hdev.
  assert (forall (l k : list D) a b,
            l !! j = Some a -> k !! j = Some b ->
            zip l k !! j = Some (a, b)) as Hzip.
  { intros l k a b Hl Hk. by apply lookup_zip_Some. }
  rewrite (Hzip _ _ _ _ Hmean Hdev). done.
Qed.

Lemma normalize_entries_witness :
  let inputs := [[1%R; 5%R; 0%R; 0%R]; [3%R; 5%R; 0%R; 0%R]] in
  Forall (fun row => length row = 4) inputs
  /\ exists rows,
       normalize inputs = Some rows
       /\ length rows = length inputs
       /\ forall i j row x,
            inputs !! i = Some row -> row !! j = Some x ->
            exists row',
              rows !! i = Some row'
              /\ row' !! j
                 = Some (ddiv (dsub x (column_mean j inputs))
                           (column_dev j inputs)).
Proof.
  intros inputs.
  assert (Forall (fun row => length row = 4) inputs) as Hw
    by (repeat constructor).
  split; [exact Hw|]. exact (normalize_entries inputs Hw).
Defined.

(** X20.  Fractions that ask for more rows than there are: when the two
    truncated sizes add up to more than the number of kept rows, the split
    loops subscript the index vector past its end. *)
Theorem split_past_the_rows {D : Type} `{DoubleOps D} `{LoaderOps D}
    (stod : string -> stod_result D) (shuffle : list nat -> list nat)
    (lines : list string) (rows targets : list (list D))
    (trainInputs trainOutputs validationInputs validationOutputs
       : list (list D)) (trainSplit validationSplit : D) (a b : nat) :
  read_rows stod lines [] [] = Some (rows, targets) ->
  length (shuffle (seq 0 (length rows))) = length rows ->
  dto_size (dmul (dof_nat (length rows)) trainSplit) = Some a ->
  dto_size (dmul (dof_nat (length rows)) validationSplit) = Some b ->
  length rows < a + b ->
  loadIrisDataset stod shuffle lines trainInputs trainOutputs
    validationInputs validationOutputs trainSplit validationSplit = None.
Proof.
  intros Hread Hidx Ha Hb Hlt.
  destruct (loader_rows _ _ _ _ Hread)
    as (_ & _ & _ & inputs & Hnorm & Hlen & _).
  unfold loadIrisDataset. rewrite Hread. cbn [mbind option_bind fst snd].
  rewrite Hnorm. cbn [mbind option_bind]. rewrite Hlen, Ha, Hb.
  cbn [mbind option_bind]. unfold split_rows.
  destruct (decide (length rows < a)) as [Hbig|Hfit].
  - rewrite (push_loop_None _ _ _ 0 a); [done|lia|simpl; lia].
  - destruct (for_up 0 a _ _) as [tr|]; [|done]. cbn [mbind option_bind].
    rewrite (push_loop_None _ _ _ a b); [done|lia|lia].
Qed.

Lemma split_past_the_rows_witness :
  let lines := ["5.1,3.5,1.4,0.2,Iris-setosa"%string] in
  exists rows targets,
    read_rows stod_example lines [] [] = Some (rows, targets)
    /\ length (seq 0 (length rows)) = length rows
    /\ dto_size (dmul (dof_nat (length rows)) 1%R) = Some 1
    /\ dto_size (dmul (dof_nat (length rows)) 1%R) = Some 1
    /\ length rows < 1 + 1
    /\ loadIrisDataset stod_example (fun l => l) lines [] [] [] [] 1%R 1%R
       = None.
Proof.
  intros lines. eexists _, _. split; [reflexivity|].
  assert (dto_size (dmul (INR 1) 1%R) = Some 1) as Hsize.
  { cbn [dmul R_DoubleOps]. rewrite dto_size_real by (simpl; lra).
    by rewrite Rmult_1_r, Int_part_INR. }
  split; [reflexivity|]. split; [exact Hsize|]. split; [exact Hsize|].
  split; [simpl; lia|].
  apply (split_past_the_rows stod_example (fun l => l) lines _ _ [] [] [] []
           1%R 1%R 1 1 eq_refl eq_refl Hsize Hsize).
  simpl. lia.
Defined.

(** X21.  [main] as shipped: its network is built from the sizes
    4, 8, 128, 64, 8, 3, so [layers[0]] has eight neurons, and the rows it
    trains on have four entries.  Whenever the file yields at least two
    rows, [main] has no defined result - whatever the numbers in the file,
    the shuffle and the random weights are: either the loader does not
    return, or the first forward pass of [train] reads past its input. *)
Theorem main_reads_past_its_rows {G : Type}
    (stod : string -> stod_result R) (shuffle : list nat -> list nat)
    (dis : G -> R * G) (rd : nat -> G) (lines : list string)
    (rows targets : list (list R)) :
  read_rows stod lines [] [] = Some (rows, targets) ->
  2 <= length rows ->
  main_program stod shuffle dis rd lines = None.
Proof.
  intros Hread Hrows. unfold main_program.
  destruct (loadIrisDataset stod shuffle lines [] [] [] [] d0_90 d0_1)
    as [sets|] eqn:Hload; [|done].
  destruct (main_training_set _ _ _ _ _ _ Hread Hrows Hload)
    as (x & trainInputs & Hsets & Hx).
  cbn [mbind option_bind]. rewrite Hsets.
  rewrite train_first_sample_short; [done| |lia].
  rewrite firstWidth_new. lia.
Qed.

Lemma main_reads_past_its_rows_witness :
  let lines := ["5.1,3.5,1.4,0.2,Iris-setosa"%string;
                "7.05,3.2,4.7,1.4,Iris-versicolor"%string] in
  let dis := fun g : nat => (0.5%R, S g) in
  exists rows targets,
    read_rows stod_example lines [] [] = Some (rows, targets)
    /\ 2 <= length rows
    /\ main_program stod_example (fun l => l) dis (fun i => i) lines = None.
Proof.
  intros lines dis. eexists _, _. split; [reflexivity|].
  split; [simpl; lia|].
  apply (main_reads_past_its_rows stod_example (fun l => l) dis (fun i => i)
           lines _ _ eq_refl).
  simpl. lia.
Defined.

(** X22.  The update of the output layer is the delta rule on the stored
    activations.  With [prev] the layer before the last layer [back], one
    backward pass leaves every output neuron [n] with its activation, with
    the bias [bias - learningRate * (value - target)] and with each weight
    [w] on the neuron [p] of [prev] replaced by
    [w - learningRate * (value - target) * value of p]; the target is the
    entry of the target vector at the neuron's position. *)
Theorem output_layer_update {D : Type} `{DoubleOps D}
    (net net' : NeuralNetwork D) (t : list D)
    (front : list (Layer D)) (prev back : Layer D) :
  layers net = front ++ [prev; back] ->
  backPropagation net t = Some net' ->
  exists back',
    last (layers net') = Some back'
    /\ length (neurons back') = length (neurons back)
    /\ forall j n, neurons back !! j = Some n ->
         exists tj, t !! j = Some tj
           /\ neurons back' !! j
              = Some (mkNeuron (value n)
                        (zip_with
                           (fun w p =>
                              dsub w (dmul (dmul (learningRate net)
                                                (dsub (value n) tj))
                                        (value p)))
                           (weights n) (neurons prev))
                        (dsub (bias n)
                           (dmul (learningRate net) (dsub (value n) tj)))).
Proof.
  intros Hls Hrun. destruct front as [|l0 front].
  - apply (backPropagation_output net net' t prev [] back Hls Hrun).
  - assert (layers net = l0 :: (front ++ [prev]) ++ [back]) as Hls'
      by (by rewrite <- app_assoc).
    pose proof (backPropagation_output net net' t l0 (front ++ [prev]) back
                  Hls' Hrun) as Hout.
    by rewrite last_snoc in Hout.
Qed.

Lemma output_layer_update_witness :
  let prev := mkLayer [mkNeuron 3%R [] 0%R] in
  let back := mkLayer [mkNeuron 1%R [2%R] 1%R] in
  let net := mkNetwork [prev; back] 0.5%R in
  layers net = [] ++ [prev; back]
  /\ exists net',
       backPropagation net [0%R] = Some net'
       /\ exists back',
            last (layers net') = Some back'
            /\ length (neurons back') = length (neurons back)
            /\ forall j n, neurons back !! j = Some n ->
                 exists tj, [0%R] !! j = Some tj
                   /\ neurons back' !! j
                      = Some (mkNeuron (value n)
                                (zip_with
                                   (fun w p =>
                                      (w - 0.5 * (value n - tj) * value p)%R)
                                   (weights n) (neurons prev))
                                (bias n - 0.5 * (value n - tj))%R).
Proof.
  intros prev back net. split; [reflexivity|]. eexists.
  split; [reflexivity|].
  exact (output_layer_update (D:=R) net _ [0%R] [] prev back
           eq_refl eq_refl).
Defined.
